(** * Replication in a distributed message queue: ring, health, failover, broker

    A shallow embedding of the coordinator's consistent-hash ring
    (coordinator/hashRing.js), the health monitor (healthMonitor.js), the
    failover controller and request router (coordinator/server.js) and the
    broker's store handler (broker server), with the properties of the
    specification stated and settled over them. *)

From Stdlib Require Import ZArith Lia.
From stdpp Require Import base option list sorting gmap strings pretty.

Set Warnings "-clear-no-such-hyp".

Local Open Scope Z_scope.

(** ** SHA-256 (FIPS 180-4), the digest behind [crypto.createHash('sha256')]

    Words are 32-bit integers carried as [Z] with the wrap-around written
    out. *)
Module Sha256.

Definition w32 (x : Z) : Z := Z.land x 0xffffffff.
Definition add32 (x y : Z) : Z := w32 (x + y).
Definition not32 (x : Z) : Z := Z.lxor x 0xffffffff.
Definition rotr (n x : Z) : Z :=
  Z.lor (Z.shiftr x n) (w32 (Z.shiftl x (32 - n))).

Definition Ch (x y z : Z) : Z := Z.lxor (Z.land x y) (Z.land (not32 x) z).
Definition Maj (x y z : Z) : Z :=
  Z.lxor (Z.lxor (Z.land x y) (Z.land x z)) (Z.land y z).
Definition Sigma0 (x : Z) : Z := Z.lxor (Z.lxor (rotr 2 x) (rotr 13 x)) (rotr 22 x).
Definition Sigma1 (x : Z) : Z := Z.lxor (Z.lxor (rotr 6 x) (rotr 11 x)) (rotr 25 x).
Definition sigma0 (x : Z) : Z := Z.lxor (Z.lxor (rotr 7 x) (rotr 18 x)) (Z.shiftr x 3).
Definition sigma1 (x : Z) : Z := Z.lxor (Z.lxor (rotr 17 x) (rotr 19 x)) (Z.shiftr x 10).

(** The constants of the standard are read off the roots of the first
    primes: the first 32 bits of the fractional part of the cube root (the
    round constants) and of the square root (the initial hash value). *)
Definition is_prime (n : nat) : bool :=
  bool_decide (2 ≤ n)%nat &&
  forallb (λ d, negb (n `mod` d =? 0)%nat) (seq 2 (n - 2)).

Definition first_primes (count : nat) : list Z :=
  Z.of_nat <$> take count (filter (λ n, is_prime n = true) (seq 0 312)).

(** The largest [r] below [2 ^ bits] with [r ^ e <= n]. *)
Fixpoint iroot (e : Z) (bits : nat) (n r : Z) : Z :=
  match bits with
  | O => r
  | S bits' =>
      let r' := r + 2 ^ Z.of_nat bits' in
      iroot e bits' n (if decide (r' ^ e ≤ n) then r' else r)
  end.

Definition K : list Z :=
  Eval vm_compute in
    (λ p, iroot 3 36 (p * 2 ^ 96) 0 `mod` 2 ^ 32) <$> first_primes 64.

Definition initial_words : list Z :=
  Eval vm_compute in
    (λ p, iroot 2 37 (p * 2 ^ 64) 0 `mod` 2 ^ 32) <$> first_primes 8.

(** Bytes of a string, one per character (the UTF-8 bytes of the label). *)
Fixpoint bytes_of_string (s : string) : list Z :=
  match s with
  | EmptyString => []
  | String c s' => Z.of_N (Ascii.N_of_ascii c) :: bytes_of_string s'
  end.

(** Big-endian bytes of [x], [n] of them. *)
Fixpoint be_bytes (n : nat) (x : Z) : list Z :=
  match n with
  | O => []
  | S n' => be_bytes n' (Z.shiftr x 8) ++ [x `mod` 256]
  end.

(** Padding: a 1 bit, zeros up to 56 mod 64, the bit length on 8 bytes. *)
Definition pad (msg : list Z) : list Z :=
  let len := Z.of_nat (length msg) in
  let zeros := Z.to_nat ((55 - len) `mod` 64) in
  msg ++ [0x80] ++ replicate zeros 0 ++ be_bytes 8 (8 * len).

Fixpoint words_of_bytes (fuel : nat) (bs : list Z) : list Z :=
  match fuel, bs with
  | S f, b0 :: b1 :: b2 :: b3 :: rest =>
      (Z.shiftl b0 24 + Z.shiftl b1 16 + Z.shiftl b2 8 + b3)
        :: words_of_bytes f rest
  | _, _ => []
  end.

(** The message schedule, most recent word first. *)
Fixpoint schedule (n : nat) (rev_w : list Z) : list Z :=
  match n with
  | O => rev_w
  | S n' =>
      let w := add32 (add32 (sigma1 (rev_w !!! 1%nat)) (rev_w !!! 6%nat))
                     (add32 (sigma0 (rev_w !!! 14%nat)) (rev_w !!! 15%nat)) in
      schedule n' (w :: rev_w)
  end.

Record regs := Regs { ra : Z; rb : Z; rc : Z; rd : Z; re : Z; rf : Z; rg : Z; rh : Z }.

Definition round (s : regs) (kw : Z * Z) : regs :=
  let t1 := add32 (add32 (add32 (rh s) (Sigma1 (re s)))
                         (add32 (Ch (re s) (rf s) (rg s)) kw.1)) kw.2 in
  let t2 := add32 (Sigma0 (ra s)) (Maj (ra s) (rb s) (rc s)) in
  Regs (add32 t1 t2) (ra s) (rb s) (rc s) (add32 (rd s) t1) (re s) (rf s) (rg s).

Definition compress (h : regs) (block : list Z) : regs :=
  let w := reverse (schedule 48 (reverse block)) in
  let s := foldl round h (zip K w) in
  Regs (add32 (ra h) (ra s)) (add32 (rb h) (rb s)) (add32 (rc h) (rc s))
       (add32 (rd h) (rd s)) (add32 (re h) (re s)) (add32 (rf h) (rf s))
       (add32 (rg h) (rg s)) (add32 (rh h) (rh s)).

Fixpoint blocks (fuel : nat) (ws : list Z) : list (list Z) :=
  match fuel with
  | O => []
  | S f => match ws with
           | [] => []
           | _ => take 16 ws :: blocks f (drop 16 ws)
           end
  end.

Definition init : regs :=
  Regs (initial_words !!! 0%nat) (initial_words !!! 1%nat)
       (initial_words !!! 2%nat) (initial_words !!! 3%nat)
       (initial_words !!! 4%nat) (initial_words !!! 5%nat)
       (initial_words !!! 6%nat) (initial_words !!! 7%nat).

Definition final (s : string) : regs :=
  let bs := pad (bytes_of_string s) in
  let ws := words_of_bytes (length bs) bs in
  foldl compress init (blocks (length ws) ws).

(** The digest as eight 32-bit words. *)
Definition digest (s : string) : list Z :=
  let r := final s in
  [ra r; rb r; rc r; rd r; re r; rf r; rg r; rh r].

(** The first eight hexadecimal digits of the digest, as a number. *)
Definition first_word (s : string) : Z := ra (final s).

End Sha256.

Example sha_constants :
  length Sha256.K = 64%nat ∧ Sha256.K !! 0%nat = Some 0x428a2f98 ∧
  Sha256.K !! 63%nat = Some 0xc67178f2 ∧
  Sha256.initial_words !! 0%nat = Some 0x6a09e667 ∧
  Sha256.initial_words !! 7%nat = Some 0x5be0cd19.
Proof. vm_compute. done. Qed.

Example sha_abc : Sha256.digest "abc" =
  [0xba7816bf; 0x8f01cfea; 0x414140de; 0x5dae2223; 0xb00361a3; 0x96177a9c; 0xb410ff61; 0xf20015ad].
Proof. vm_compute. reflexivity. Qed.

Example sha_empty : Sha256.digest "" =
  [0xe3b0c442; 0x98fc1c14; 0x9afbf4c8; 0x996fb924; 0x27ae41e4; 0x649b934c; 0xa495991b; 0x7852b855].
Proof. vm_compute. reflexivity. Qed.

Example sha_two_blocks :
  Sha256.digest "abcdbcdecdefdefgefghfghighijhijkijkljklmklmnlmnomnopnopq" =
  [0x248d6a61; 0xd20638b8; 0xe5c02693; 0x0c3e6039; 0xa33ce459; 0x64ff2167; 0xf6ecedd4; 0x19db06c1].
Proof. vm_compute. reflexivity. Qed.

(** * The program *)

(** ** The consistent-hash ring (coordinator/hashRing.js) *)

(** A JS [Map] keyed by strings whose iteration order matters: an
    association list in insertion order. [set] on a present key replaces the
    value in place, on an absent key appends. *)
Section JsMap.
Context {V : Type}.

Fixpoint jsmap_get (k : string) (m : list (string * V)) : option V :=
  match m with
  | [] => None
  | (k', v) :: m' => if decide (k = k') then Some v else jsmap_get k m'
  end.

Fixpoint jsmap_set (k : string) (v : V) (m : list (string * V)) : list (string * V) :=
  match m with
  | [] => [(k, v)]
  | (k', v') :: m' =>
      if decide (k = k') then (k, v) :: m' else (k', v') :: jsmap_set k v m'
  end.

Fixpoint jsmap_delete (k : string) (m : list (string * V)) : list (string * V) :=
  match m with
  | [] => []
  | (k', v') :: m' =>
      if decide (k = k') then m' else (k', v') :: jsmap_delete k m'
  end.

Definition jsmap_keys (m : list (string * V)) : list string := m.*1.
End JsMap.

Definition hashSpace : Z := 2 ^ 32.

Record NodeData := mkNodeData { url : string; virtualPositions : list Z }.

Record HashRing := mkHashRing {
  virtualNodeCount : nat;
  ring : gmap Z string;            (* position -> nodeName *)
  sortedPositions : list Z;
  nodes : list (string * NodeData) (* nodeName -> { url, virtualPositions } *)
}.

(** [new HashRing(virtualNodeCount)] *)
Definition newHashRing (virtualNodeCount : nat) : HashRing :=
  mkHashRing virtualNodeCount ∅ [] [].

(** [hash(key)]: the first 8 hex digits of the SHA-256 digest, modulo the
    hash space. *)
Definition hash (key : string) : Z := Sha256.first_word key `mod` hashSpace.

(** The template literal [`${nodeName}:vnode${i}`]. *)
Definition vnode_label (nodeName : string) (i : nat) : string :=
  nodeName +:+ ":vnode" +:+ pretty i.

(** [while (this.ring.has(position)) position = (position + 1) % hashSpace].
    The loop ends within [size ring] steps unless every position of the hash
    space is taken, in which case it never ends: [None]. *)
Fixpoint probe (fuel : nat) (rg : gmap Z string) (position : Z) : option Z :=
  match fuel with
  | O => None
  | S fuel' =>
      match rg !! position with
      | Some _ => probe fuel' rg ((position + 1) `mod` hashSpace)
      | None => Some position
      end
  end.

(** One iteration of the loop of [addNode], on the ring map, the node's
    [virtualPositions] and [sortedPositions]. *)
Definition addNode_iter (nodeName : string)
    (st : option (gmap Z string * list Z * list Z)) (i : nat)
    : option (gmap Z string * list Z * list Z) :=
  '(rg, vps, sp) ← st;
  position ← probe (S (size rg)) rg (hash (vnode_label nodeName i));
  Some (<[position := nodeName]> rg, vps ++ [position], sp ++ [position]).

Definition addNode (r : HashRing) (nodeName : string) (u : string) : option HashRing :=
  '(rg, vps, sp) ← foldl (addNode_iter nodeName)
                       (Some (ring r, [], sortedPositions r))
                       (seq 0 (virtualNodeCount r));
  Some (mkHashRing (virtualNodeCount r) rg (merge_sort Z.le sp)
                   (jsmap_set nodeName (mkNodeData u vps) (nodes r))).

(** [indexOf] then [splice(idx, 1)]: the first occurrence goes. *)
Fixpoint remove_first (p : Z) (l : list Z) : list Z :=
  match l with
  | [] => []
  | x :: l' => if decide (x = p) then l' else x :: remove_first p l'
  end.

Definition removeNode_iter (st : gmap Z string * list Z) (position : Z)
    : gmap Z string * list Z :=
  (delete position st.1, remove_first position st.2).

Definition removeNode (r : HashRing) (nodeName : string) : HashRing :=
  match jsmap_get nodeName (nodes r) with
  | None => r
  | Some nodeData =>
      let st := foldl removeNode_iter (ring r, sortedPositions r)
                      (virtualPositions nodeData) in
      mkHashRing (virtualNodeCount r) st.1 st.2 (jsmap_delete nodeName (nodes r))
  end.

(** The binary search of [_findClockwiseIndex]; [right - left] shrinks at
    every iteration, so [length sortedPositions] iterations are enough. *)
Fixpoint bsearch (fuel : nat) (sp : list Z) (keyPosition : Z) (left right : nat) : nat :=
  match fuel with
  | O => left
  | S fuel' =>
      if decide (left < right)%nat then
        let mid := ((left + right) / 2)%nat in
        match sp !! mid with
        | Some x =>
            if decide (x < keyPosition)
            then bsearch fuel' sp keyPosition (mid + 1)%nat right
            else bsearch fuel' sp keyPosition left mid
        | None => bsearch fuel' sp keyPosition left mid
        end
      else left
  end.

Definition _findClockwiseIndex (r : HashRing) (keyPosition : Z) : nat :=
  let total := length (sortedPositions r) in
  let left := bsearch total (sortedPositions r) keyPosition 0 total in
  if decide (total ≤ left)%nat then 0%nat else left.

(** A node name as [getNodesForKey] reads it from the ring map: [None] is
    JS's [undefined]. *)
Abbreviation jsname := (option string).

Record Assignment := mkAssignment {
  primary : jsname;
  replicas : list jsname;
  keyHash : Z
}.

Inductive outcome (A : Type) : Type :=
  | Raised (msg : string)
  | Returned (v : A).
Arguments Raised {A} msg.
Arguments Returned {A} v.

(** The loop of [getNodesForKey]: [count] iterations are left, [i] is the
    loop counter. *)
Fixpoint walk (r : HashRing) (startIndex total replicationFactor : nat)
    (count i : nat) (assignedNodes : list jsname) (seenNodes : gset jsname)
    : list jsname :=
  match count with
  | O => assignedNodes
  | S count' =>
      if decide (length assignedNodes < replicationFactor)%nat then
        let nodeName :=
          sortedPositions r !! ((startIndex + i) `mod` total)%nat ≫= (ring r !!.) in
        if decide (nodeName ∈ seenNodes)
        then walk r startIndex total replicationFactor count' (S i)
                  assignedNodes seenNodes
        else walk r startIndex total replicationFactor count' (S i)
                  (assignedNodes ++ [nodeName]) ({[nodeName]} ∪ seenNodes)
      else assignedNodes
  end.

Definition getNodesForKey (r : HashRing) (key : string) (replicationFactor : nat)
    : outcome Assignment :=
  if decide (length (nodes r) = 0%nat) then Raised "Hash ring is empty"
  else
    let keyPosition := hash key in
    let startIndex := _findClockwiseIndex r keyPosition in
    let total := length (sortedPositions r) in
    let assignedNodes :=
      walk r startIndex total replicationFactor total 0 [] ∅ in
    Returned (mkAssignment (mjoin (head assignedNodes)) (tail assignedNodes) keyPosition).

(** The values a caller can pass as a key: those of a JSON body, which
    [POST /produce] reads its key from, and [undefined]. An integer stands
    for a number; of an array and of an object only the type matters here.
    ([/consume] and [/route] read the key from the path: a string.) *)
Inductive JsValue :=
  | JsUndefined
  | JsNull
  | JsBoolean (b : bool)
  | JsNumber (x : Z)
  | JsString (s : string)
  | JsArray
  | JsObject.

(** [hash(key)] for a key of any type. [update(key)] of a [crypto] hash
    takes a string (or bytes); for any other value it throws the
    [TypeError] of code [ERR_INVALID_ARG_TYPE], named here by its code.
    [hash] above is the case of a string. *)
Definition hashOf (key : JsValue) : outcome Z :=
  match key with
  | JsString s => Returned (hash s)
  | _ => Raised "ERR_INVALID_ARG_TYPE"
  end.

(** [getNodesForKey(key, replicationFactor)] for a key of any type: the
    test of the empty ring comes first, the hash of the key second.
    [getNodesForKey] above is the case of a string. *)
Definition getNodesForKeyOf (r : HashRing) (key : JsValue) (replicationFactor : nat)
    : outcome Assignment :=
  if decide (length (nodes r) = 0%nat) then Raised "Hash ring is empty"
  else
    match hashOf key with
    | Raised msg => Raised msg
    | Returned keyPosition =>
        let startIndex := _findClockwiseIndex r keyPosition in
        let total := length (sortedPositions r) in
        let assignedNodes :=
          walk r startIndex total replicationFactor total 0 [] ∅ in
        Returned (mkAssignment (mjoin (head assignedNodes)) (tail assignedNodes)
                               keyPosition)
    end.

Definition getNodeUrl (r : HashRing) (nodeName : string) : option string :=
  url <$> jsmap_get nodeName (nodes r).

Definition getAllNodeNames (r : HashRing) : list string := jsmap_keys (nodes r).

(** The ring the coordinator builds from the [name=url] entries of
    [BROKER_NODES]: [if (name && url) ring.addNode(name, url)]. *)
Definition buildRing (v : nat) (brokers : list (string * string)) : option HashRing :=
  foldl (λ acc b, r ← acc;
                  if bool_decide (b.1 ≠ "" ∧ b.2 ≠ "") then addNode r b.1 b.2
                  else Some r)
        (Some (newHashRing v)) brokers.


(** ** The health monitor (healthMonitor.js) *)

Inductive Status := HEALTHY | FAILED | FAILED_OVER | RECOVERED.

Global Instance Status_eq_dec : EqDecision Status.
Proof. solve_decision. Defined.

(** Timestamps are the strings [new Date().toISOString()] returns; the
    clock is an input of each step. *)
Record Health := mkHealth {
  status : Status;
  failCount : nat;
  lastCheck : option string;
  lastSuccess : option string;
  failedAt : option string
}.

(** The record [init] gives every node of the ring. *)
Definition initialHealth : Health := mkHealth HEALTHY 0 None None None.

Inductive Callback :=
  | OnFailure (nodeName : string)
  | OnRecovery (nodeName : string).

(** One iteration of the loop of [_checkAll], for a node that has a URL:
    [responded] tells whether the GET of [/health] resolved within the
    timeout, [tcheck] and [tdone] are the clock before and after it. *)
Definition checkNode (failureThreshold : nat) (nodeName : string)
    (tcheck tdone : string) (responded : bool) (health : Health)
    : Health * option Callback :=
  if responded then
    match status health with
    | FAILED | FAILED_OVER =>
        (mkHealth RECOVERED 0 (Some tcheck) (Some tdone) (failedAt health),
         Some (OnRecovery nodeName))
    | _ =>
        (mkHealth HEALTHY 0 (Some tcheck) (Some tdone) (failedAt health), None)
    end
  else
    let failCount' := S (failCount health) in
    if decide ((failureThreshold ≤ failCount')%nat ∧ status health = HEALTHY) then
      (mkHealth FAILED failCount' (Some tcheck) (lastSuccess health) (Some tdone),
       Some (OnFailure nodeName))
    else
      (mkHealth (status health) failCount' (Some tcheck) (lastSuccess health)
                (failedAt health),
       None).

(** A JS value used as a condition: [undefined] and the empty string are
    falsy. *)
Definition truthy (v : option string) : bool :=
  match v with
  | Some s => bool_decide (s ≠ "")
  | None => false
  end.

Definition callbacks (cb : option Callback) : list Callback :=
  match cb with
  | Some c => [c]
  | None => []
  end.

(** The loop of [_checkAll] over the entries of [nodeHealth] left to
    visit; nodes without a URL are skipped. [responded] and [clock] answer
    for the network and the time. *)
Fixpoint checkAll_loop (failureThreshold : nat) (r : HashRing)
    (responded : string → bool) (clock : string → string * string)
    (names : list string) (nodeHealth : list (string * Health))
    : list (string * Health) * list Callback :=
  match names with
  | [] => (nodeHealth, [])
  | nodeName :: names' =>
      match jsmap_get nodeName nodeHealth with
      | Some health =>
          if truthy (getNodeUrl r nodeName) then
            let res := checkNode failureThreshold nodeName
                         (clock nodeName).1 (clock nodeName).2
                         (responded nodeName) health in
            let rest := checkAll_loop failureThreshold r responded clock names'
                          (jsmap_set nodeName res.1 nodeHealth) in
            (rest.1, callbacks res.2 ++ rest.2)
          else checkAll_loop failureThreshold r responded clock names' nodeHealth
      | None => checkAll_loop failureThreshold r responded clock names' nodeHealth
      end
  end.


(** The nodes [onFailure] is called for. *)
Definition failures (cbs : list Callback) : list string :=
  omap (λ cb, match cb with OnFailure n => Some n | OnRecovery _ => None end) cbs.

(** [health.status = 'FAILED_OVER'] *)
Definition failedOver (health : Health) : Health :=
  mkHealth FAILED_OVER (failCount health) (lastCheck health)
           (lastSuccess health) (failedAt health).

(** [markFailedOver(nodeName)] *)
Definition markFailedOver (nodeName : string) (nodeHealth : list (string * Health))
    : list (string * Health) :=
  match jsmap_get nodeName nodeHealth with
  | Some health => jsmap_set nodeName (failedOver health) nodeHealth
  | None => nodeHealth
  end.

(** [init()]: a fresh record for every node of the ring. *)
Definition initHealth (r : HashRing) : list (string * Health) :=
  foldl (λ acc nodeName, jsmap_set nodeName initialHealth acc) [] (getAllNodeNames r).

(** ** The broker's store handler (broker server, [POST /store]) *)

Inductive Role := RolePrimary | RoleReplica.

(** A payload is the JSON value of the request, kept as its text. *)
Record Entry := mkEntry {
  e_payload : string;
  e_timestamp : string;
  e_role : Role;
  e_replicaOf : option string
}.

Inductive ReplicationStatus := ReplSuccess | ReplFailed.

Record ReplicationResult := mkReplicationResult {
  rr_node : string;
  rr_status : ReplicationStatus;
  rr_error : option string
}.

Inductive LogEntry :=
  | stored_as_primary (key payload : string) (replicatedTo : list string)
      (replicationResults : list ReplicationResult) (timestamp : string)
  | stored_as_replica (key payload : string) (receivedFrom : option string)
      (timestamp : string)
  | promoted_to_primary (timestamp : string).

Record Broker := mkBroker {
  messageStore : gmap string Entry;
  replicationLog : list LogEntry
}.

(** The body of a store request: [key] and [payload] may be missing,
    [replicateTo] defaults to the empty list. *)
Record StoreRequest := mkStoreRequest {
  req_key : option string;
  req_payload : option string;
  req_replicateTo : list string
}.

Inductive StoreResponse :=
  | Response400 (error : string)
  | Response201 (success : bool) (node : string) (role : Role) (key : string)
      (replicatedTo : list string) (replicationResults : list ReplicationResult).

(** What the handler does, in the order it does it. *)
Inductive Effect :=
  | LocalWrite (key : string) (entry : Entry)
  | PostReplicate (replicaUrl key payload primaryNode : string)
  | PushLog (entry : LogEntry)
  | Respond (response : StoreResponse).

(** The replication loop: [post i url] is [None] when the [i]th POST, to
    [url], resolves, and the error's message when it is rejected. *)
Fixpoint replicateLoop (post : nat → string → option string) (NODE_ID key payload : string)
    (i : nat) (replicateTo : list string) : list ReplicationResult * list Effect :=
  match replicateTo with
  | [] => ([], [])
  | replicaUrl :: rest =>
      let result :=
        match post i (replicaUrl +:+ "/replicate") with
        | None => mkReplicationResult replicaUrl ReplSuccess None
        | Some message => mkReplicationResult replicaUrl ReplFailed (Some message)
        end in
      let others := replicateLoop post NODE_ID key payload (S i) rest in
      (result :: others.1,
       PostReplicate replicaUrl key payload NODE_ID :: others.2)
  end.

(** [POST /store]: the broker after the request, the response, and the
    trace of effects. [t_write] and [t_log] are the clock at the local write
    and at the log entry. *)
Definition store (NODE_ID : string) (post : nat → string → option string)
    (t_write t_log : string) (req : StoreRequest) (b : Broker)
    : Broker * StoreResponse * list Effect :=
  match req_key req, req_payload req with
  | Some key, Some payload =>
      if decide (key = "") then
        let response := Response400 "key and payload are required" in
        (b, response, [Respond response])
      else
        let entry := mkEntry payload t_write RolePrimary None in
        let messageStore' := <[key := entry]> (messageStore b) in
        let replicated :=
          replicateLoop post NODE_ID key payload 0 (req_replicateTo req) in
        let logEntry :=
          stored_as_primary key payload (req_replicateTo req) replicated.1 t_log in
        let response :=
          Response201 true NODE_ID RolePrimary key (req_replicateTo req) replicated.1 in
        (mkBroker messageStore' (replicationLog b ++ [logEntry]),
         response,
         LocalWrite key entry :: replicated.2 ++ [PushLog logEntry; Respond response])
  | _, _ =>
      let response := Response400 "key and payload are required" in
      (b, response, [Respond response])
  end.

(** [POST /replicate] *)
Definition replicate (NODE_ID : string) (t_write t_log : string)
    (key payload : option string) (primaryNode : option string) (b : Broker)
    : Broker * option string :=
  match key, payload with
  | Some key, Some payload =>
      if decide (key = "") then (b, Some "key and payload are required")
      else
        (mkBroker (<[key := mkEntry payload t_write RoleReplica primaryNode]> (messageStore b))
                  (replicationLog b ++ [stored_as_replica key payload primaryNode t_log]),
         None)
  | _, _ => (b, Some "key and payload are required")
  end.

(** ** The failover controller and the router (coordinator/server.js) *)

Record FailoverEvent := mkFailoverEvent {
  ev_failedNode : string;
  ev_promotedNode : string;
  ev_timestamp : string
}.

Record Coordinator := mkCoordinator {
  nodeHealth : list (string * Health);
  promotedNodes : gmap string string;   (* failed node -> promoted node *)
  failoverEvents : list FailoverEvent
}.

(** The brokers as the coordinator sees them: whether a GET or a POST of a
    URL resolves. *)
Record Network := mkNetwork {
  get_ok : string → bool;
  post_ok : string → bool
}.

(** What the handler writes to the console. *)
Inductive LogLine :=
  | LogFailoverTriggered (failedNode : string)
  | LogCandidateUnhealthy (candidate : option string)
  | LogNoHealthyReplica (failedNode : string)
  | LogPromoteSignalFailed
  | LogPromoted (promotedNode failedNode : string).

(** A value inside a template literal. *)
Definition template (v : option string) : string := default "undefined" v.

(** [allNodes.indexOf(failedNode)] *)
Fixpoint indexOf (x : string) (l : list string) : Z :=
  match l with
  | [] => -1
  | y :: l' =>
      if decide (y = x) then 0
      else let i := indexOf x l' in if decide (i = -1) then -1 else i + 1
  end.

(** The loop over the candidates, [idxs] being the values of [i] left:
    the value of [promotedNode] after it, and the console output. *)
Fixpoint findCandidate (r : HashRing) (net : Network) (allNodes : list string)
    (failedIndex : Z) (idxs : list nat) : jsname * list LogLine :=
  match idxs with
  | [] => (None, [])
  | i :: idxs' =>
      let candidate :=
        allNodes !! Z.to_nat ((failedIndex + Z.of_nat i) `rem` Z.of_nat (length allNodes)) in
      let candidateUrl := candidate ≫= getNodeUrl r in
      if get_ok net (template candidateUrl +:+ "/health")
      then (candidate, [])
      else
        let rest := findCandidate r net allNodes failedIndex idxs' in
        (rest.1, LogCandidateUnhealthy candidate :: rest.2)
  end.

(** The [onFailure] callback given to the monitor: the coordinator's state
    after it, and its console output. *)
Definition onFailure (r : HashRing) (net : Network) (now : string)
    (failedNode : string) (c : Coordinator) : Coordinator * list LogLine :=
  let allNodes := getAllNodeNames r in
  let failedIndex := indexOf failedNode allNodes in
  let found := findCandidate r net allNodes failedIndex
                 (seq 1 (length allNodes - 1)) in
  let log := LogFailoverTriggered failedNode :: found.2 in
  match found.1 with
  | Some promotedNode =>
      if decide (promotedNode = "")
      then (c, log ++ [LogNoHealthyReplica failedNode])
      else
        let log :=
          if post_ok net (template (getNodeUrl r promotedNode) +:+ "/promote")
          then log
          else log ++ [LogPromoteSignalFailed] in
        (mkCoordinator (markFailedOver failedNode (nodeHealth c))
                       (<[failedNode := promotedNode]> (promotedNodes c))
                       (failoverEvents c ++ [mkFailoverEvent failedNode promotedNode now]),
         log ++ [LogPromoted promotedNode failedNode])
  | None => (c, log ++ [LogNoHealthyReplica failedNode])
  end.

(** [resolveEffectivePrimary(primary)]: [promotedNodes.get(primary) || primary]. *)
Definition resolveEffectivePrimary (c : Coordinator) (primary : jsname) : jsname :=
  match primary with
  | Some p =>
      match promotedNodes c !! p with
      | Some q => if decide (q = "") then Some p else Some q
      | None => Some p
      end
  | None => None
  end.

(** The routing of [POST /produce] (lines 119 to 124). *)
Record Routing := mkRouting {
  rt_keyHash : Z;
  rt_primary : jsname;
  rt_replicas : list jsname;
  rt_primaryUrl : option string;
  rt_replicaUrls : list string
}.

Definition nodeUrl (r : HashRing) (n : jsname) : option string :=
  n ≫= getNodeUrl r.

Definition produceRouting (r : HashRing) (c : Coordinator) (key : string)
    (replicationFactor : nat) : outcome Routing :=
  match getNodesForKey r key replicationFactor with
  | Raised msg => Raised msg
  | Returned a =>
      let primary := resolveEffectivePrimary c (primary a) in
      let replicas :=
        filter (λ n, n ≠ primary) (resolveEffectivePrimary c <$> replicas a) in
      let primaryUrl := nodeUrl r primary in
      let replicaUrls :=
        omap (λ n, let u := nodeUrl r n in if truthy u then u else None) replicas in
      Returned (mkRouting (keyHash a) primary replicas primaryUrl replicaUrls)
  end.

(** The body of the POST to a broker's [/store]. *)
Record StoreBody := mkStoreBody {
  sb_key : string;
  sb_payload : string;
  sb_replicateTo : list string
}.

Inductive ProduceResponse :=
  | Produce400 (error : string)
  | Produce201 (key : string) (keyHash : Z) (primary : jsname)
      (replicas : list jsname) (replicationResults : list ReplicationResult)
  | Produce503 (error : string) (key : string).

(** [POST /produce]: [storeAt u body] is the [replicationResults] of the
    primary's answer to the POST of [body] to [u], which the coordinator
    passes on, and [None] when the POST is rejected. *)
Definition produce (r : HashRing) (c : Coordinator) (replicationFactor : nat)
    (storeAt : string → StoreBody → option (list ReplicationResult))
    (key payload : option string) : outcome ProduceResponse :=
  match key, payload with
  | Some key, Some payload =>
      if decide (key = "") then Returned (Produce400 "key and payload are required")
      else
        match produceRouting r c key replicationFactor with
        | Raised msg => Raised msg
        | Returned rt =>
            match storeAt (template (rt_primaryUrl rt) +:+ "/store")
                          (mkStoreBody key payload (rt_replicaUrls rt)) with
            | Some replicationResults =>
                Returned (Produce201 key (rt_keyHash rt) (rt_primary rt)
                                     (rt_replicas rt) replicationResults)
            | None =>
                Returned (Produce503
                            ("Primary broker " +:+ template (rt_primary rt)
                               +:+ " is unreachable") key)
            end
        end
  | _, _ => Returned (Produce400 "key and payload are required")
  end.

(** The coordinator with the failure callbacks in flight: [onFailure] is
    called without [await], its writes happen when its requests are over. *)
Record World := mkWorld {
  coord : Coordinator;
  inflight : list string
}.

Definition initWorld (r : HashRing) : World :=
  mkWorld (mkCoordinator (initHealth r) ∅ []) [].

Inductive step (r : HashRing) (failureThreshold : nat) : World → World → Prop :=
  | step_check w nodeName health tcheck tdone responded :
      jsmap_get nodeName (nodeHealth (coord w)) = Some health →
      truthy (getNodeUrl r nodeName) = true →
      let res := checkNode failureThreshold nodeName tcheck tdone responded health in
      step r failureThreshold w
        (mkWorld
           (mkCoordinator (jsmap_set nodeName res.1 (nodeHealth (coord w)))
                          (promotedNodes (coord w)) (failoverEvents (coord w)))
           (inflight w ++ failures (callbacks res.2)))
  | step_failover w failedNode net now before after :
      inflight w = before ++ failedNode :: after →
      step r failureThreshold w
        (mkWorld (onFailure r net now failedNode (coord w)).1 (before ++ after)).

Definition reachable (r : HashRing) (failureThreshold : nat) (w : World) : Prop :=
  rtc (step r failureThreshold) (initWorld r) w.

(** ** The other routes of the coordinator (coordinator/server.js) *)

(** [GET /failover/status] *)
Record FailoverStatus := mkFailoverStatus {
  totalFailovers : nat;
  activePromotions : gmap string string;
  events : list FailoverEvent
}.

Definition failoverStatus (c : Coordinator) : FailoverStatus :=
  mkFailoverStatus (length (failoverEvents c)) (promotedNodes c) (failoverEvents c).

(** [promotedNodes.size > 0], the flag of [/route] and [/consume]. *)
Definition failoverActive (c : Coordinator) : bool :=
  bool_decide (0 < size (promotedNodes c))%nat.

(** [GET /route/:key] *)
Record RouteResponse := mkRouteResponse {
  route_key : string;
  route_keyHash : Z;
  route_primary : jsname;
  route_primaryUrl : option string;
  route_replicas : list jsname;
  route_replicaUrls : list (option string);
  route_failoverActive : bool
}.

Definition route (r : HashRing) (c : Coordinator) (replicationFactor : nat)
    (key : string) : outcome RouteResponse :=
  match getNodesForKey r key replicationFactor with
  | Raised msg => Raised msg
  | Returned a =>
      let primary := resolveEffectivePrimary c (primary a) in
      let replicas := resolveEffectivePrimary c <$> replicas a in
      Returned (mkRouteResponse key (keyHash a) primary (nodeUrl r primary)
                  replicas (nodeUrl r <$> replicas) (failoverActive c))
  end.

(** [GET /consume/:key] *)

Inductive Source := SourcePrimary | SourceReplica.

(** What the handler writes to the console. *)
Inductive ConsumeLog :=
  | LogServed (key : string) (nodeName : jsname) (failover : bool)
  | LogUnreachable (nodeName : jsname) (key : string).

Section Consume.
(** The body of a broker's answer to the GET of [/fetch/:key], of which
    the handler reads the field [success] and passes on the rest. *)
Context {Data : Type} (success : Data → bool).

Inductive ConsumeResponse :=
  | Consume200 (data : Data) (servedBy : jsname) (failover : bool) (source : Source)
  | Consume404 (key : string).

(** The loop over the candidates; [fetchAt i u] is the body of the answer
    to the GET of [u] made for the [i]th candidate, [None] when the request
    is rejected (no answer in time, or a status outside 2xx). [c'] is the
    coordinator when the answer is sent: the handler awaits its requests,
    and a failover can end meanwhile. *)
Fixpoint consumeLoop (r : HashRing) (c' : Coordinator)
    (fetchAt : nat → string → option Data) (key : string)
    (rawPrimary primary : jsname) (i : nat) (candidates : list jsname)
    : ConsumeResponse * list ConsumeLog :=
  match candidates with
  | [] => (Consume404 key, [])
  | nodeName :: rest =>
      let url := nodeUrl r nodeName in
      if truthy url then
        match fetchAt i (template url +:+ ("/fetch/" +:+ key)) with
        | Some data =>
            if success data then
              (Consume200 data nodeName (failoverActive c')
                 (if decide (nodeName = rawPrimary) then SourcePrimary else SourceReplica),
               [LogServed key nodeName (bool_decide (nodeName ≠ primary))])
            else consumeLoop r c' fetchAt key rawPrimary primary (S i) rest
        | None =>
            let others := consumeLoop r c' fetchAt key rawPrimary primary (S i) rest in
            (others.1, LogUnreachable nodeName key :: others.2)
        end
      else consumeLoop r c' fetchAt key rawPrimary primary (S i) rest
  end.

(** The candidates: the effective primary, then each replica through the
    override map. *)
Definition consumeCandidates (c : Coordinator) (a : Assignment) : list jsname :=
  resolveEffectivePrimary c (primary a) :: (resolveEffectivePrimary c <$> replicas a).

Definition consume (r : HashRing) (c c' : Coordinator) (replicationFactor : nat)
    (fetchAt : nat → string → option Data) (key : string)
    : outcome (ConsumeResponse * list ConsumeLog) :=
  match getNodesForKey r key replicationFactor with
  | Raised msg => Raised msg
  | Returned a =>
      Returned (consumeLoop r c' fetchAt key (primary a)
                  (resolveEffectivePrimary c (primary a)) 0 (consumeCandidates c a))
  end.
End Consume.

(** ** The other routes of the broker (broker server) *)

(** [messageStore] is a plain object. Reading [messageStore[key]] finds the
    entry written under [key] and, when there is none, what the object
    inherits from [Object.prototype] under that name: a function or object
    that is truthy and has no enumerable field. *)
Definition objectPrototypeNames : list string :=
  ["constructor"; "__defineGetter__"; "__defineSetter__"; "hasOwnProperty";
   "__lookupGetter__"; "__lookupSetter__"; "isPrototypeOf"; "propertyIsEnumerable";
   "toString"; "valueOf"; "__proto__"; "toLocaleString"].

(** [GET /fetch/:key]: 404 with [reason: 'not_found'], or 200 with the
    fields of the entry (none for an inherited name). *)
Inductive FetchResponse :=
  | Fetch404 (node key : string)
  | Fetch200 (node key : string) (entry : option Entry).

Definition fetch (NODE_ID key : string) (b : Broker) : FetchResponse :=
  match messageStore b !! key with
  | Some entry => Fetch200 NODE_ID key (Some entry)
  | None =>
      if bool_decide (key ∈ objectPrototypeNames) then Fetch200 NODE_ID key None
      else Fetch404 NODE_ID key
  end.

(** [GET /health] *)
Record HealthReport := mkHealthReport {
  hr_node : string;
  hr_messageCount : nat;
  hr_timestamp : string
}.

Definition healthReport (NODE_ID now : string) (b : Broker) : HealthReport :=
  mkHealthReport NODE_ID (size (messageStore b)) now.

(** [GET /messages] *)
Record MessagesReport := mkMessagesReport {
  mr_node : string;
  mr_messageCount : nat;
  mr_messages : gmap string Entry
}.

Definition messagesReport (NODE_ID : string) (b : Broker) : MessagesReport :=
  mkMessagesReport NODE_ID (size (messageStore b)) (messageStore b).

(** [GET /log] *)
Record LogReport := mkLogReport {
  lr_node : string;
  lr_totalPrimaryKeys : nat;
  lr_totalReplicaKeys : nat;
  lr_storedAsPrimary : list LogEntry;
  lr_storedAsReplica : list LogEntry
}.

Definition isStoredAsPrimary (e : LogEntry) : bool :=
  match e with stored_as_primary _ _ _ _ _ => true | _ => false end.

Definition isStoredAsReplica (e : LogEntry) : bool :=
  match e with stored_as_replica _ _ _ _ => true | _ => false end.

Definition logReport (NODE_ID : string) (b : Broker) : LogReport :=
  let primaryEntries := filter (λ e, isStoredAsPrimary e = true) (replicationLog b) in
  let replicaEntries := filter (λ e, isStoredAsReplica e = true) (replicationLog b) in
  mkLogReport NODE_ID (length primaryEntries) (length replicaEntries)
              primaryEntries replicaEntries.

(** [POST /promote]: one record in the log. *)
Definition promote (now : string) (b : Broker) : Broker :=
  mkBroker (messageStore b) (replicationLog b ++ [promoted_to_primary now]).

(** * Properties of the ring *)

(** ** Properties of the insertion-ordered map *)
Section JsMapFacts.
Context {V : Type}.
Implicit Types (m : list (string * V)) (k : string) (v : V).

Lemma jsmap_get_None m k : jsmap_get k m = None ↔ k ∉ jsmap_keys m.
Proof.
  unfold jsmap_keys. induction m as [|[k' v'] m IH]; csimpl.
  - split; [intros _; apply not_elem_of_nil | done].
  - rewrite not_elem_of_cons. destruct (decide (k = k')); [|tauto].
    split; [done | tauto].
Qed.

Lemma jsmap_get_Some m k v : jsmap_get k m = Some v → (k, v) ∈ m.
Proof.
  induction m as [|[k' v'] m IH]; csimpl; [done|].
  case_decide; subst.
  - intros [= ->]. left.
  - intros. right. auto.
Qed.

Lemma jsmap_get_is_Some m k : is_Some (jsmap_get k m) ↔ k ∈ jsmap_keys m.
Proof.
  rewrite <- not_eq_None_Some, jsmap_get_None.
  destruct (decide (k ∈ jsmap_keys m)); naive_solver.
Qed.

Lemma jsmap_get_set m k k' v :
  jsmap_get k' (jsmap_set k v m) = if decide (k' = k) then Some v else jsmap_get k' m.
Proof.
  induction m as [|[k0 v0] m IH]; csimpl.
  - by destruct (decide (k' = k)).
  - destruct (decide (k = k0)) as [->|Hne]; csimpl.
    + by destruct (decide (k' = k0)).
    + rewrite IH. destruct (decide (k' = k0)) as [->|]; [|done].
      by rewrite decide_False.
Qed.

Lemma jsmap_keys_set m k v :
  jsmap_keys (jsmap_set k v m) =
    if decide (k ∈ jsmap_keys m) then jsmap_keys m else jsmap_keys m ++ [k].
Proof.
  unfold jsmap_keys. induction m as [|[k0 v0] m IH]; csimpl.
  - done.
  - destruct (decide (k = k0)) as [->|Hne]; csimpl.
    + rewrite decide_True; [done | left].
    + rewrite IH. destruct (decide (k ∈ m.*1)) as [Hin|Hin].
      * rewrite decide_True; [done | by right].
      * rewrite decide_False; [done|]. by apply not_elem_of_cons.
Qed.

Lemma jsmap_set_NoDup m k v :
  NoDup (jsmap_keys m) → NoDup (jsmap_keys (jsmap_set k v m)).
Proof.
  intros Hnd. rewrite jsmap_keys_set. case_decide; [done|].
  apply NoDup_app. split_and!; [done | | apply NoDup_singleton].
  intros x Hx ->%list_elem_of_singleton. done.
Qed.

Lemma jsmap_get_delete m k k' :
  NoDup (jsmap_keys m) →
  jsmap_get k' (jsmap_delete k m) = if decide (k' = k) then None else jsmap_get k' m.
Proof.
  unfold jsmap_keys. induction m as [|[k0 v0] m IH]; csimpl.
  - by case_decide.
  - intros [Hk0 Hnd]%NoDup_cons. destruct (decide (k = k0)) as [->|Hne]; csimpl.
    + destruct (decide (k' = k0)) as [Heq|]; [|done].
      subst k'. by apply jsmap_get_None.
    + rewrite IH by done. destruct (decide (k' = k0)) as [Heq|]; [|done].
      subst k'. by rewrite decide_False.
Qed.

Lemma jsmap_delete_subseteq m k : jsmap_keys (jsmap_delete k m) ⊆ jsmap_keys m.
Proof.
  unfold jsmap_keys. induction m as [|[k0 v0] m IH]; csimpl; [done|].
  case_decide; set_solver.
Qed.

Lemma jsmap_delete_NoDup m k :
  NoDup (jsmap_keys m) → NoDup (jsmap_keys (jsmap_delete k m)).
Proof.
  unfold jsmap_keys. induction m as [|[k0 v0] m IH]; csimpl; [done|].
  intros [Hk0 Hnd]%NoDup_cons. case_decide; [done|]. simpl.
  apply NoDup_cons. split; [|auto].
  intros Hin. apply Hk0. by apply (jsmap_delete_subseteq m k).
Qed.

Lemma jsmap_keys_length m : length (jsmap_keys m) = length m.
Proof. unfold jsmap_keys. by rewrite length_fmap. Qed.
End JsMapFacts.

(** ** Linear probing *)

Definition next_position (p : Z) : Z := (p + 1) `mod` hashSpace.

Lemma hashSpace_pos : 0 < hashSpace.
Proof. done. Qed.

Lemma hash_range key : 0 ≤ hash key < hashSpace.
Proof. unfold hash. apply Z.mod_pos_bound, hashSpace_pos. Qed.

Lemma iter_next_position (k : nat) (h : Z) :
  0 ≤ h < hashSpace → Nat.iter k next_position h = (h + Z.of_nat k) `mod` hashSpace.
Proof.
  intros Hh. induction k as [|k IH].
  - simpl. rewrite Z.add_0_r, Z.mod_small; lia.
  - rewrite Nat.iter_succ, IH. unfold next_position.
    rewrite Zplus_mod_idemp_l. f_equal. lia.
Qed.

Lemma iter_next_position_range (k : nat) (h : Z) :
  0 ≤ h < hashSpace → 0 ≤ Nat.iter k next_position h < hashSpace.
Proof.
  intros Hh. rewrite iter_next_position by done.
  apply Z.mod_pos_bound, hashSpace_pos.
Qed.

Lemma iter_next_position_inj (i j : nat) (h : Z) :
  0 ≤ h < hashSpace → Z.of_nat i < hashSpace → Z.of_nat j < hashSpace →
  Nat.iter i next_position h = Nat.iter j next_position h → i = j.
Proof.
  intros Hh Hi Hj. rewrite !iter_next_position by done. intros Heq.
  assert (Hcases : ∀ a b : Z, 0 ≤ a < hashSpace → 0 ≤ b < hashSpace →
     (h + a) `mod` hashSpace = (h + b) `mod` hashSpace → a = b).
  { intros a b Ha Hb Hab.
    pose proof hashSpace_pos.
    assert (Hd : ((h + a) - (h + b)) `mod` hashSpace = 0).
    { rewrite Zminus_mod, Hab, Z.sub_diag. done. }
    replace (h + a - (h + b)) with (a - b) in Hd by lia.
    apply Z.mod_divide in Hd; [|lia]. destruct Hd as [c Hc].
    assert (c = 0) by nia. lia. }
  apply Nat2Z.inj, Hcases; [lia..|done].
Qed.

(** What [probe] returns: the first free position met from [h] on. *)
Lemma probe_Some fuel (rg : gmap Z string) h q :
  probe fuel rg h = Some q →
  ∃ k : nat, (k < fuel)%nat ∧ q = Nat.iter k next_position h ∧ rg !! q = None ∧
             ∀ j : nat, (j < k)%nat → is_Some (rg !! Nat.iter j next_position h).
Proof.
  revert h. induction fuel as [|fuel IH]; intros h; simpl; [done|].
  destruct (rg !! h) as [n|] eqn:Hh.
  - intros (k & Hk & -> & Hfree & Hocc)%IH. exists (S k).
    split_and!; [lia | by rewrite Nat.iter_succ_r | done |].
    intros [|j] Hj; simpl; [by rewrite Hh|].
    rewrite <- Nat.iter_succ, Nat.iter_succ_r. apply Hocc. lia.
  - intros [= <-]. exists 0%nat. split_and!; [lia|done|done|]. intros; lia.
Qed.

Lemma probe_first_free fuel (rg : gmap Z string) h (k : nat) :
  (k < fuel)%nat →
  rg !! Nat.iter k next_position h = None →
  (∀ j : nat, (j < k)%nat → is_Some (rg !! Nat.iter j next_position h)) →
  probe fuel rg h = Some (Nat.iter k next_position h).
Proof.
  revert h k. induction fuel as [|fuel IH]; intros h k Hk Hfree Hocc; [lia|].
  simpl. destruct k as [|k].
  - simpl in Hfree. by rewrite Hfree.
  - destruct (Hocc 0%nat ltac:(lia)) as [n Hn]. simpl in Hn. rewrite Hn.
    rewrite Nat.iter_succ_r. apply IH; [lia | by rewrite <- Nat.iter_succ_r |].
    intros j Hj. rewrite <- Nat.iter_succ_r. apply Hocc. lia.
Qed.

Lemma probe_None fuel (rg : gmap Z string) h :
  probe fuel rg h = None →
  ∀ j : nat, (j < fuel)%nat → is_Some (rg !! Nat.iter j next_position h).
Proof.
  revert h. induction fuel as [|fuel IH]; intros h; simpl; [intros; lia|].
  destruct (rg !! h) as [n|] eqn:Hh; [|done].
  intros Hp [|j] Hj; simpl; [by rewrite Hh|].
  rewrite <- Nat.iter_succ, Nat.iter_succ_r. apply IH; [done|lia].
Qed.

(** Pigeonhole: [k] consecutive taken positions are [k] keys of the map. *)
Lemma occupied_run_size (rg : gmap Z string) h (k : nat) :
  0 ≤ h < hashSpace → Z.of_nat k ≤ hashSpace →
  (∀ j : nat, (j < k)%nat → is_Some (rg !! Nat.iter j next_position h)) →
  (k ≤ size rg)%nat.
Proof.
  intros Hh Hk Hocc.
  set (l := (λ j, Nat.iter j next_position h) <$> seq 0 k).
  assert (Hnd : NoDup l).
  { apply NoDup_fmap_2_strong; [|apply NoDup_seq].
    intros i j [_ Hi]%elem_of_seq [_ Hj]%elem_of_seq.
    apply iter_next_position_inj; [done|lia..]. }
  assert (Hsub : l ⊆ elements (dom rg)).
  { intros p (j & -> & [_ Hj]%elem_of_seq)%list_elem_of_fmap.
    apply elem_of_elements, elem_of_dom, Hocc. lia. }
  assert (Hlen : (length l ≤ length (elements (dom rg)))%nat).
  { apply submseteq_length, NoDup_submseteq; [done|]. intros x Hx. by apply Hsub. }
  unfold l in Hlen. rewrite length_fmap, length_seq in Hlen.
  by rewrite <- size_dom.
Qed.

(** The loop of [addNode] ends whenever the ring is not full. *)
Lemma probe_total (rg : gmap Z string) h :
  0 ≤ h < hashSpace → Z.of_nat (size rg) < hashSpace →
  is_Some (probe (S (size rg)) rg h).
Proof.
  intros Hh Hsize. destruct (probe _ _ _) eqn:Hp; [done|].
  pose proof (probe_None _ _ _ Hp) as Hocc.
  assert (S (size rg) ≤ size rg)%nat; [|lia].
  apply (occupied_run_size rg h); [done|lia|done].
Qed.

(** ** The loops of [addNode] and [removeNode] *)

Arguments probe : simpl never.

(** The positions [addNode] gives to the labels of indices [idxs], in
    order, from the ring map [rg] on. *)
Fixpoint place (nodeName : string) (rg : gmap Z string) (idxs : list nat)
    : option (gmap Z string * list Z) :=
  match idxs with
  | [] => Some (rg, [])
  | i :: idxs' =>
      position ← probe (S (size rg)) rg (hash (vnode_label nodeName i));
      '(rg', ps) ← place nodeName (<[position := nodeName]> rg) idxs';
      Some (rg', position :: ps)
  end.

Lemma addNode_loop_None n idxs : foldl (addNode_iter n) None idxs = None.
Proof. by induction idxs. Qed.

Lemma addNode_loop_place n idxs rg vps sp :
  foldl (addNode_iter n) (Some (rg, vps, sp)) idxs =
    '(rg', ps) ← place n rg idxs; Some (rg', vps ++ ps, sp ++ ps).
Proof.
  revert rg vps sp. induction idxs as [|i idxs IH]; intros rg vps sp; simpl.
  - by rewrite !app_nil_r.
  - destruct (probe _ _ _) as [q|]; simpl; [|apply addNode_loop_None].
    rewrite IH. destruct (place _ _ _) as [[rg' ps]|]; simpl; [|done].
    by rewrite <- !app_assoc.
Qed.

Lemma addNode_unfold r n u :
  addNode r n u =
    '(rg', ps) ← place n (ring r) (seq 0 (virtualNodeCount r));
    Some (mkHashRing (virtualNodeCount r) rg'
            (merge_sort Z.le (sortedPositions r ++ ps))
            (jsmap_set n (mkNodeData u ps) (nodes r))).
Proof.
  unfold addNode. rewrite addNode_loop_place.
  by destruct (place _ _ _) as [[rg' ps]|].
Qed.

Lemma place_spec n rg idxs rg' ps :
  place n rg idxs = Some (rg', ps) →
  length ps = length idxs ∧
  NoDup ps ∧
  (∀ p, p ∈ ps → rg !! p = None ∧ 0 ≤ p < hashSpace) ∧
  (∀ p, rg' !! p = if decide (p ∈ ps) then Some n else rg !! p).
Proof.
  revert rg rg' ps. induction idxs as [|i idxs IH]; intros rg rg' ps; simpl.
  - intros [= <- <-]. split_and!; [done | constructor | by intros p ?%elem_of_nil |].
    intros p. rewrite decide_False; [done | apply not_elem_of_nil].
  - destruct (probe _ _ _) as [q|] eqn:Hq; simpl; [|done].
    destruct (place _ _ _) as [[rg1 ps1]|] eqn:Hpl; simpl; [|done].
    intros [= <- <-].
    destruct (IH _ _ _ Hpl) as (Hlen & Hnd & Hfree & Hlook).
    apply probe_Some in Hq as (k & _ & Hqk & Hqfree & _).
    assert (Hqr : 0 ≤ q < hashSpace).
    { subst q. apply iter_next_position_range, hash_range. }
    assert (Hq1 : q ∉ ps1).
    { intros Hin. destruct (Hfree q Hin) as [Hn _].
      by rewrite lookup_insert_eq in Hn. }
    split_and!.
    + simpl. by rewrite Hlen.
    + by apply NoDup_cons.
    + intros p [->|Hp]%elem_of_cons; [done|].
      destruct (Hfree p Hp) as [Hn Hr]. split; [|done].
      rewrite lookup_insert_ne in Hn; [done|]. intros ->. done.
    + intros p. rewrite Hlook. destruct (decide (p = q)) as [->|Hne].
      * rewrite decide_False by done. rewrite decide_True by left.
        by rewrite lookup_insert_eq.
      * rewrite lookup_insert_ne by done.
        destruct (decide (p ∈ ps1)).
        -- rewrite decide_True; [done | by right].
        -- rewrite decide_False; [done|]. by apply not_elem_of_cons.
Qed.

Lemma place_size n rg idxs rg' ps :
  place n rg idxs = Some (rg', ps) → size rg' = (size rg + length idxs)%nat.
Proof.
  revert rg rg' ps. induction idxs as [|i idxs IH]; intros rg rg' ps; simpl.
  - intros [= <- <-]. lia.
  - destruct (probe _ _ _) as [q|] eqn:Hq; simpl; [|done].
    destruct (place _ _ _) as [[rg1 ps1]|] eqn:Hpl; simpl; [|done].
    intros [= <- <-]. rewrite (IH _ _ _ Hpl).
    apply probe_Some in Hq as (k & _ & _ & Hqfree & _).
    rewrite map_size_insert_None by done. lia.
Qed.

(** [addNode] returns as long as the ring has room for the new positions. *)
Lemma place_total n rg idxs :
  Z.of_nat (size rg + length idxs) ≤ hashSpace → is_Some (place n rg idxs).
Proof.
  revert rg. induction idxs as [|i idxs IH]; intros rg Hroom; simpl; [done|].
  simpl in Hroom.
  destruct (probe_total rg (hash (vnode_label n i))) as [q Hq];
    [apply hash_range | lia |].
  rewrite Hq. simpl.
  pose proof Hq as (k & _ & _ & Hqfree & _)%probe_Some.
  destruct (IH (<[q:=n]> rg)) as [[rg1 ps1] Hpl].
  { rewrite map_size_insert_None by done. lia. }
  by rewrite Hpl.
Qed.

Lemma addNode_total r n u :
  Z.of_nat (size (ring r) + virtualNodeCount r) ≤ hashSpace →
  is_Some (addNode r n u).
Proof.
  intros Hroom. rewrite addNode_unfold.
  destruct (place_total n (ring r) (seq 0 (virtualNodeCount r))) as [[rg' ps] Hpl].
  { by rewrite length_seq. }
  by rewrite Hpl.
Qed.

Lemma remove_first_elem_of p l x :
  NoDup l → x ∈ remove_first p l ↔ x ∈ l ∧ x ≠ p.
Proof.
  induction l as [|y l IH]; simpl.
  - intros _. split; [by intros ?%elem_of_nil | by intros [?%elem_of_nil _]].
  - intros [Hy Hnd]%NoDup_cons. destruct (decide (y = p)) as [->|Hne].
    + rewrite elem_of_cons. split; [|naive_solver].
      intros Hx. split; [by right|]. by intros ->.
    + rewrite !elem_of_cons, IH by done. naive_solver.
Qed.

Lemma remove_first_sorted p l :
  StronglySorted Z.lt l → StronglySorted Z.lt (remove_first p l).
Proof.
  induction 1 as [|y l Hs IH Hall]; simpl; [constructor|].
  destruct (decide (y = p)); [done|]. constructor; [done|].
  assert (Hnd : NoDup l).
  { clear -Hs. induction Hs as [|z l Hs IH Hall]; constructor; [|done].
    intros Hin. rewrite Forall_forall in Hall. specialize (Hall z Hin). lia. }
  rewrite Forall_forall in *. intros x [Hx _]%remove_first_elem_of; auto.
Qed.

Lemma StronglySorted_lt_NoDup (l : list Z) : StronglySorted Z.lt l → NoDup l.
Proof.
  induction 1 as [|z l Hs IH Hall]; constructor; [|done].
  intros Hin. rewrite Forall_forall in Hall. specialize (Hall z Hin). lia.
Qed.

Lemma removeNode_loop_spec ps rg sp :
  StronglySorted Z.lt sp →
  let st := foldl removeNode_iter (rg, sp) ps in
  StronglySorted Z.lt st.2 ∧
  (∀ p, p ∈ st.2 ↔ p ∈ sp ∧ p ∉ ps) ∧
  (∀ p, st.1 !! p = if decide (p ∈ ps) then None else rg !! p).
Proof.
  revert rg sp. induction ps as [|q ps IH]; intros rg sp Hs; simpl.
  - split_and!; [done| |].
    + intros p. split; [|tauto]. intros; split; [done | apply not_elem_of_nil].
    + done.
  - destruct (IH (delete q rg) (remove_first q sp)) as (Hs' & Hmem & Hlook).
    { by apply remove_first_sorted. }
    split_and!; [done| |].
    + intros p. rewrite Hmem, remove_first_elem_of, not_elem_of_cons
        by by apply StronglySorted_lt_NoDup.
      tauto.
    + intros p. rewrite Hlook. destruct (decide (p = q)) as [->|Hne].
      * rewrite lookup_delete_eq. rewrite (decide_True (P := q ∈ q :: ps)) by left.
        by destruct (decide (q ∈ ps)).
      * rewrite lookup_delete_ne by done.
        destruct (decide (p ∈ ps)).
        -- rewrite decide_True; [done | by right].
        -- rewrite decide_False; [done|]. by apply not_elem_of_cons.
Qed.

(** ** Ring states and their invariant *)

Record ring_wf (r : HashRing) : Prop := mk_ring_wf {
  wf_sorted : StronglySorted Z.lt (sortedPositions r);
  wf_dom : ∀ p, p ∈ sortedPositions r ↔ is_Some (ring r !! p);
  wf_range : ∀ p, is_Some (ring r !! p) → 0 ≤ p < hashSpace;
  wf_names : NoDup (getAllNodeNames r);
  wf_owner : ∀ p n, ring r !! p = Some n →
    ∃ nd, jsmap_get n (nodes r) = Some nd ∧ p ∈ virtualPositions nd;
  wf_vps : ∀ n nd, jsmap_get n (nodes r) = Some nd →
    length (virtualPositions nd) = virtualNodeCount r ∧
    ∀ p, p ∈ virtualPositions nd → ring r !! p = Some n
}.

(** Rings reached through the class's interface, each broker registered
    under a name not in use. *)
Inductive ring_state : HashRing → Prop :=
  | ring_state_new v : ring_state (newHashRing v)
  | ring_state_add r n u r' :
      ring_state r → n ∉ getAllNodeNames r → addNode r n u = Some r' →
      ring_state r'
  | ring_state_remove r n : ring_state r → ring_state (removeNode r n).

(** Rings built by registrations alone, as the coordinator does at start. *)
Inductive ring_built : HashRing → Prop :=
  | ring_built_new v : ring_built (newHashRing v)
  | ring_built_add r n u r' :
      ring_built r → n ∉ getAllNodeNames r → addNode r n u = Some r' →
      ring_built r'.

Lemma ring_built_state r : ring_built r → ring_state r.
Proof. induction 1; econstructor; eauto. Qed.

Lemma newHashRing_wf v : ring_wf (newHashRing v).
Proof.
  split; simpl.
  - constructor.
  - intros p. rewrite lookup_empty. split; [by intros ?%elem_of_nil | by intros [? ?]].
  - intros p. rewrite lookup_empty. by intros [? ?].
  - constructor.
  - intros p n. by rewrite lookup_empty.
  - done.
Qed.

Lemma sorted_le_NoDup_lt (l : list Z) :
  StronglySorted Z.le l → NoDup l → StronglySorted Z.lt l.
Proof.
  induction 1 as [|z l Hs IH Hall]; [constructor|].
  intros [Hz Hnd]%NoDup_cons. constructor; [auto|].
  rewrite Forall_forall in *. intros x Hx. specialize (Hall x Hx).
  assert (x ≠ z) by (intros ->; done). lia.
Qed.

Lemma addNode_wf r n u r' :
  ring_wf r → n ∉ getAllNodeNames r → addNode r n u = Some r' → ring_wf r'.
Proof.
  intros [Hs Hdom Hrange Hnames Howner Hvps] Hfresh. rewrite addNode_unfold.
  destruct (place _ _ _) as [[rg' ps]|] eqn:Hpl; simpl; [|done].
  intros [= <-].
  destruct (place_spec _ _ _ _ _ Hpl) as (Hlen & Hnd & Hfree & Hlook).
  rewrite length_seq in Hlen.
  assert (Hperm : merge_sort Z.le (sortedPositions r ++ ps) ≡ₚ sortedPositions r ++ ps)
    by apply merge_sort_Permutation.
  assert (Hnd' : NoDup (sortedPositions r ++ ps)).
  { apply NoDup_app. split_and!; [by apply StronglySorted_lt_NoDup | | done].
    intros p Hp%Hdom Hp'. destruct (Hfree p Hp') as [Hn _].
    rewrite Hn in Hp. by destruct Hp. }
  split; simpl.
  - apply sorted_le_NoDup_lt; [|by rewrite Hperm].
    apply StronglySorted_merge_sort; apply _.
  - intros p. rewrite Hperm, elem_of_app, Hlook, Hdom.
    destruct (decide (p ∈ ps)); [|tauto]. split; [by eexists | tauto].
  - intros p. rewrite Hlook. destruct (decide (p ∈ ps)) as [Hp|]; [|auto].
    intros _. by apply Hfree.
  - by apply jsmap_set_NoDup.
  - intros p m. rewrite Hlook. destruct (decide (p ∈ ps)) as [Hp|Hp].
    + intros [= <-]. eexists. rewrite jsmap_get_set, decide_True by done. done.
    + intros (nd & Hnd1 & Hnd2)%Howner. exists nd. split; [|done].
      rewrite jsmap_get_set, decide_False; [done|]. intros ->.
      apply Hfresh, jsmap_get_is_Some. by eexists.
  - intros m nd. rewrite jsmap_get_set. destruct (decide (m = n)) as [->|Hne].
    + intros [= <-]. simpl. split; [done|]. intros p Hp.
      by rewrite Hlook, decide_True.
    + intros Hm. destruct (Hvps m nd Hm) as [Hl Hown]. split; [done|].
      intros p Hp. rewrite Hlook, decide_False; [by apply Hown|].
      intros Hp'. destruct (Hfree p Hp') as [Hn _].
      rewrite (Hown p Hp) in Hn. done.
Qed.

Lemma removeNode_wf r n : ring_wf r → ring_wf (removeNode r n).
Proof.
  intros Hwf. unfold removeNode.
  destruct (jsmap_get n (nodes r)) as [nd|] eqn:Hn; [|done].
  destruct Hwf as [Hs Hdom Hrange Hnames Howner Hvps].
  destruct (removeNode_loop_spec (virtualPositions nd) (ring r) (sortedPositions r) Hs)
    as (Hs' & Hmem & Hlook).
  split; simpl.
  - done.
  - intros p. rewrite Hmem, Hlook, Hdom.
    destruct (decide (p ∈ virtualPositions nd)); [|tauto].
    split; [tauto | by intros [? ?]].
  - intros p. rewrite Hlook. destruct (decide _); [by intros [? ?] | auto].
  - by apply jsmap_delete_NoDup.
  - intros p m. rewrite Hlook. destruct (decide _) as [|Hp]; [done|].
    intros Hpm. destruct (Howner p m Hpm) as (nd' & Hnd1 & Hnd2).
    exists nd'. split; [|done].
    rewrite jsmap_get_delete by exact Hnames.
    rewrite decide_False; [done|]. intros ->. congruence.
  - intros m nd'. rewrite jsmap_get_delete by exact Hnames.
    destruct (decide (m = n)) as [->|Hne]; [done|]. intros Hm.
    destruct (Hvps m nd' Hm) as [Hl Hown]. split; [done|].
    intros p Hp. rewrite Hlook, decide_False; [by apply Hown|].
    intros Hp'. destruct (Hvps n nd Hn) as [_ Hown'].
    specialize (Hown' p Hp'). rewrite (Hown p Hp) in Hown'. congruence.
Qed.

Lemma ring_state_wf r : ring_state r → ring_wf r.
Proof.
  induction 1; eauto using newHashRing_wf, addNode_wf, removeNode_wf.
Qed.

(** ** The binary search *)

Lemma sorted_lookup_le (sp : list Z) (i j : nat) x y :
  StronglySorted Z.lt sp → (i ≤ j)%nat →
  sp !! i = Some x → sp !! j = Some y → x ≤ y.
Proof.
  intros Hs. revert i j. induction Hs as [|z l Hs IH Hall]; intros i j Hij.
  - by rewrite lookup_nil.
  - destruct i as [|i], j as [|j]; simpl; try lia.
    + intros [= ->] [= ->]. lia.
    + intros [= ->] Hy. rewrite Forall_forall in Hall.
      apply list_elem_of_lookup_2 in Hy. specialize (Hall y Hy). lia.
    + apply IH. lia.
Qed.

Lemma bsearch_S fuel (sp : list Z) key (left right : nat) :
  bsearch (S fuel) sp key left right =
    if decide (left < right)%nat then
      match sp !! ((left + right) / 2)%nat with
      | Some x =>
          if decide (x < key)
          then bsearch fuel sp key ((left + right) / 2 + 1)%nat right
          else bsearch fuel sp key left ((left + right) / 2)%nat
      | None => bsearch fuel sp key left ((left + right) / 2)%nat
      end
    else left.
Proof. done. Qed.

(** The search does not depend on the fuel once there is enough of it:
    the loop always ends on its own condition. *)
Lemma bsearch_fuel fuel fuel' (sp : list Z) key (left right : nat) :
  (right - left ≤ fuel)%nat → (fuel ≤ fuel')%nat →
  bsearch fuel' sp key left right = bsearch fuel sp key left right.
Proof.
  revert fuel' left right. induction fuel as [|fuel IH]; intros fuel' left right Hf Hle.
  - destruct fuel' as [|fuel']; [done|]. rewrite bsearch_S. simpl.
    by rewrite decide_False by lia.
  - destruct fuel' as [|fuel']; [lia|]. rewrite !bsearch_S.
    destruct (decide (left < right)%nat) as [Hlt|]; [|done].
    assert (Hmid : (left ≤ (left + right) / 2 < right)%nat).
    { split.
      - apply Nat.div_le_lower_bound; lia.
      - apply Nat.Div0.div_lt_upper_bound; lia. }
    destruct (sp !! ((left + right) / 2)%nat) as [x|];
      [destruct (decide (x < key))|]; apply IH; lia.
Qed.

Lemma bsearch_spec fuel (sp : list Z) key (left right : nat) :
  StronglySorted Z.lt sp →
  (right - left ≤ fuel)%nat → (left ≤ right ≤ length sp)%nat →
  (∀ (i : nat) x, (i < left)%nat → sp !! i = Some x → x < key) →
  (∀ (i : nat) x, (right ≤ i)%nat → sp !! i = Some x → key ≤ x) →
  let res := bsearch fuel sp key left right in
  (left ≤ res ≤ right)%nat ∧
  (∀ (i : nat) x, (i < res)%nat → sp !! i = Some x → x < key) ∧
  (∀ (i : nat) x, (res ≤ i)%nat → sp !! i = Some x → key ≤ x).
Proof.
  intros Hs. revert left right.
  induction fuel as [|fuel IH]; intros left right Hfuel Hlr Hlo Hhi.
  - simpl. assert (left = right) as -> by lia. split; [lia | by split].
  - rewrite bsearch_S. destruct (decide (left < right)%nat) as [Hlt|Hge].
    2:{ assert (left = right) as -> by lia. split; [lia | by split]. }
    set (mid := ((left + right) / 2)%nat).
    assert (Hmid : (left ≤ mid < right)%nat).
    { subst mid. split.
      - apply Nat.div_le_lower_bound; lia.
      - apply Nat.Div0.div_lt_upper_bound; lia. }
    destruct (lookup_lt_is_Some_2 sp mid ltac:(lia)) as [x Hx]. rewrite Hx.
    destruct (decide (x < key)) as [Hxk|Hxk].
    + destruct (IH (mid + 1)%nat right) as (Hr1 & Hr2 & Hr3); [lia | lia | | done |].
      * intros i y Hi Hy.
        pose proof (sorted_lookup_le sp i mid y x Hs ltac:(lia) Hy Hx). lia.
      * split; [lia | by split].
    + destruct (IH left mid) as (Hr1 & Hr2 & Hr3); [lia | lia | done | |].
      * intros i y Hi Hy.
        pose proof (sorted_lookup_le sp mid i x y Hs ltac:(lia) Hx Hy). lia.
      * split; [lia | by split].
Qed.

(** [_findClockwiseIndex] is the index of the first position at or after
    the key's, and 0 when every position is before it. *)
Definition clockwise_index (sp : list Z) (h : Z) (idx : nat) : Prop :=
  (∃ p, sp !! idx = Some p ∧ h ≤ p ∧
        ∀ (i : nat) q, (i < idx)%nat → sp !! i = Some q → q < h)
  ∨ (idx = 0%nat ∧ ∀ q, q ∈ sp → q < h).

Lemma findClockwiseIndex_spec r h :
  StronglySorted Z.lt (sortedPositions r) →
  clockwise_index (sortedPositions r) h (_findClockwiseIndex r h).
Proof.
  intros Hs. unfold _findClockwiseIndex, clockwise_index.
  set (sp := sortedPositions r) in *.
  destruct (bsearch_spec (length sp) sp h 0 (length sp) Hs) as (Hr1 & Hr2 & Hr3);
    [lia | lia | intros; lia | |].
  { intros i x Hi Hx. apply lookup_lt_Some in Hx. lia. }
  set (res := bsearch _ _ _ _ _) in *.
  destruct (decide (length sp ≤ res)%nat) as [Hwrap|Hin].
  - right. split; [done|]. intros q (i & Hi)%list_elem_of_lookup_1.
    apply (Hr2 i q); [|done]. apply lookup_lt_Some in Hi. lia.
  - left. destruct (lookup_lt_is_Some_2 sp res ltac:(lia)) as [p Hp].
    exists p. split_and!; [done | by apply (Hr3 res) | done].
Qed.

Lemma findClockwiseIndex_lt r h :
  (0 < length (sortedPositions r))%nat →
  (_findClockwiseIndex r h < length (sortedPositions r))%nat.
Proof.
  intros Hpos. unfold _findClockwiseIndex.
  destruct (decide _); lia.
Qed.

(** ** The walk of [getNodesForKey] *)

(** The names met from index [startIndex] on, once around the ring. *)
Definition owners_from (r : HashRing) (startIndex : nat) : list jsname :=
  (λ p, ring r !! p) <$> rotate startIndex (sortedPositions r).

(** The distinct elements of a list, each at its first occurrence. *)
Fixpoint first_occurrences {A} `{EqDecision A} (l : list A) : list A :=
  match l with
  | [] => []
  | x :: l' => x :: filter (λ y, y ≠ x) (first_occurrences l')
  end.

(** The loop of [getNodesForKey] over the list of the names it meets. *)
Fixpoint collect (replicationFactor : nat) (names assigned : list jsname) : list jsname :=
  match names with
  | [] => assigned
  | n :: names' =>
      if decide (length assigned < replicationFactor)%nat then
        if decide (n ∈ assigned) then collect replicationFactor names' assigned
        else collect replicationFactor names' (assigned ++ [n])
      else assigned
  end.

Definition visit (r : HashRing) (startIndex total i : nat) : jsname :=
  sortedPositions r !! ((startIndex + i) `mod` total)%nat ≫= (ring r !!.).

Lemma walk_collect (r : HashRing) (startIndex total R count i : nat)
    (assigned : list jsname) (seen : gset jsname) :
  seen = list_to_set assigned →
  walk r startIndex total R count i assigned seen =
    collect R (visit r startIndex total <$> seq i count) assigned.
Proof.
  revert i assigned seen. induction count as [|count IH]; intros i assigned seen Hseen;
    simpl; [done|].
  destruct (decide (length assigned < R)%nat); [|done].
  fold (visit r startIndex total i).
  destruct (decide (visit r startIndex total i ∈ seen)) as [Hin|Hin].
  - rewrite decide_True by (by rewrite Hseen, elem_of_list_to_set in Hin).
    by apply IH.
  - rewrite decide_False by (by rewrite Hseen, elem_of_list_to_set in Hin).
    apply IH. rewrite Hseen, list_to_set_app_L. simpl. set_solver.
Qed.

Lemma rotate_nat_add_mod (base offset len : nat) :
  rotate_nat_add base offset len = ((base + offset) `mod` len)%nat.
Proof.
  unfold rotate_nat_add.
  rewrite <- Nat2Z.inj_add, <- Nat2Z.inj_mod. apply Nat2Z.id.
Qed.

Lemma visit_owners_from r startIndex :
  visit r startIndex (length (sortedPositions r)) <$> seq 0 (length (sortedPositions r))
  = owners_from r startIndex.
Proof.
  unfold owners_from. apply list_eq. intros i.
  rewrite !list_lookup_fmap.
  destruct (decide (i < length (sortedPositions r))%nat) as [Hi|Hi].
  - rewrite lookup_seq_lt by done. simpl.
    rewrite lookup_rotate_r by done. rewrite rotate_nat_add_mod.
    unfold visit.
    destruct (lookup_lt_is_Some_2 (sortedPositions r)
                ((startIndex + i) `mod` length (sortedPositions r))%nat) as [p Hp].
    { apply Nat.mod_upper_bound. lia. }
    by rewrite Hp.
  - rewrite lookup_seq_ge by lia. simpl.
    rewrite lookup_ge_None_2; [done|]. rewrite length_rotate. lia.
Qed.

Section FirstOccurrences.
Context {A : Type} `{EqDecision A}.
Implicit Types (l : list A).

Lemma elem_of_first_occurrences l x : x ∈ first_occurrences l ↔ x ∈ l.
Proof.
  induction l as [|y l IH]; simpl; [done|].
  rewrite !elem_of_cons, list_elem_of_filter, IH.
  destruct (decide (x = y)); naive_solver.
Qed.

Lemma NoDup_first_occurrences l : NoDup (first_occurrences l).
Proof.
  induction l as [|y l IH]; simpl; [constructor|].
  apply NoDup_cons. split; [|by apply NoDup_filter].
  rewrite list_elem_of_filter. naive_solver.
Qed.

Lemma filter_first_occurrences (P : A → Prop) `{∀ x, Decision (P x)} l :
  filter P (first_occurrences l) = first_occurrences (filter P l).
Proof.
  induction l as [|y l IH]; simpl; [done|].
  rewrite !filter_cons. destruct (decide (P y)) as [Hy|Hy]; simpl.
  - rewrite <- IH. f_equal. rewrite !list_filter_filter.
    apply list_filter_iff. tauto.
  - rewrite <- IH, list_filter_filter. apply list_filter_iff.
    intros x. split; [tauto|]. intros Hx. split; [done|]. by intros ->.
Qed.

Lemma first_occurrences_length l k :
  NoDup k → (∀ x, x ∈ l → x ∈ k) → (length (first_occurrences l) ≤ length k)%nat.
Proof.
  intros Hk Hsub. apply submseteq_length, NoDup_submseteq.
  - apply NoDup_first_occurrences.
  - intros x Hx. apply Hsub. by apply (proj1 (elem_of_first_occurrences l x)).
Qed.
End FirstOccurrences.

Lemma collect_spec R (names assigned : list jsname) :
  collect R names assigned =
    if decide (length assigned < R)%nat
    then take R (assigned ++ first_occurrences (filter (λ n, n ∉ assigned) names))
    else assigned.
Proof.
  revert assigned. induction names as [|n names IH]; intros assigned; simpl.
  - destruct (decide _); [|done].
    rewrite app_nil_r, take_ge; [done|lia].
  - destruct (decide (length assigned < R)%nat) as [Hlt|]; [|done].
    destruct (decide (n ∈ assigned)) as [Hin|Hin].
    + rewrite IH, decide_True by done.
      rewrite (filter_cons_False (λ n, n ∉ assigned)) by (by intros ?). done.
    + rewrite IH. rewrite (filter_cons_True (λ n, n ∉ assigned)) by done. simpl.
      rewrite filter_first_occurrences, list_filter_filter.
      assert (Hfil : filter (λ x, x ∉ assigned ++ [n]) names
                     = filter (λ x, x ≠ n ∧ x ∉ assigned) names).
      { apply list_filter_iff. intros x.
        rewrite elem_of_app, list_elem_of_singleton. tauto. }
      rewrite Hfil.
      set (X := first_occurrences _).
      replace (assigned ++ n :: X) with ((assigned ++ [n]) ++ X)
        by (by rewrite <- app_assoc).
      destruct (decide (length (assigned ++ [n]) < R)%nat) as [Hlt'|Hge]; [done|].
      rewrite length_app in Hge. simpl in Hge.
      rewrite take_app_le by (rewrite length_app; simpl; lia).
      rewrite take_ge; [done|]. rewrite length_app. simpl. lia.
Qed.

Lemma collect_first_occurrences R (names : list jsname) :
  collect R names [] = take R (first_occurrences names).
Proof.
  assert (Hfil : filter (λ n : jsname, n ∉ []) names = names).
  { induction names as [|x names IH]; [done|].
    rewrite filter_cons_True by apply not_elem_of_nil. by rewrite IH. }
  rewrite collect_spec, Hfil, app_nil_l.
  destruct (decide _) as [|Hge]; [done|].
  simpl in Hge. assert (R = 0%nat) as -> by lia. done.
Qed.

(** What [getNodesForKey] computes on a non-empty node table: the first
    [replicationFactor] distinct names met clockwise from the key. *)
Lemma getNodesForKey_returns r key R :
  nodes r ≠ [] →
  getNodesForKey r key R =
    let assigned :=
      take R (first_occurrences (owners_from r (_findClockwiseIndex r (hash key)))) in
    Returned (mkAssignment (mjoin (head assigned)) (tail assigned) (hash key)).
Proof.
  intros Hne. unfold getNodesForKey.
  rewrite decide_False by (by destruct (nodes r)).
  rewrite walk_collect by done.
  by rewrite visit_owners_from, collect_first_occurrences.
Qed.

(** ** The ring built at start *)

Lemma addNode_names r n u r' :
  addNode r n u = Some r' →
  getAllNodeNames r' =
    if decide (n ∈ getAllNodeNames r) then getAllNodeNames r
    else getAllNodeNames r ++ [n].
Proof.
  rewrite addNode_unfold. destruct (place _ _ _) as [[rg' ps]|]; simpl; [|done].
  intros [= <-]. unfold getAllNodeNames. simpl. apply jsmap_keys_set.
Qed.

Lemma addNode_virtualNodeCount r n u r' :
  addNode r n u = Some r' → virtualNodeCount r' = virtualNodeCount r.
Proof.
  rewrite addNode_unfold. destruct (place _ _ _) as [[rg' ps]|]; simpl; [|done].
  by intros [= <-].
Qed.

Lemma buildRing_snoc v brokers b :
  buildRing v (brokers ++ [b]) =
    r ← buildRing v brokers;
    if bool_decide (b.1 ≠ "" ∧ b.2 ≠ "") then addNode r b.1 b.2 else Some r.
Proof. unfold buildRing. by rewrite foldl_app. Qed.

Lemma buildRing_built v brokers r :
  NoDup brokers.*1 → Forall (λ b, b.1 ≠ "" ∧ b.2 ≠ "") brokers →
  buildRing v brokers = Some r →
  ring_built r ∧ getAllNodeNames r = brokers.*1 ∧ virtualNodeCount r = v.
Proof.
  revert r. induction brokers as [|b brokers IH] using rev_ind; intros r Hnd Hall.
  - intros [= <-]. split_and!; [constructor | done | done].
  - rewrite buildRing_snoc. rewrite fmap_app in Hnd. simpl in Hnd.
    apply NoDup_app in Hnd as (Hnd & Hfresh & _).
    rewrite Forall_app, Forall_singleton in Hall. destruct Hall as [Hall Hb].
    rewrite (bool_decide_true _ Hb).
    destruct (buildRing v brokers) as [r0|] eqn:Hb0; simpl; [|done].
    destruct (IH r0 Hnd Hall eq_refl) as (Hbuilt & Hnames & Hv).
    intros Hadd.
    assert (Hb1 : b.1 ∉ getAllNodeNames r0).
    { rewrite Hnames. intros Hin. apply (Hfresh _ Hin). left. }
    split_and!.
    + by econstructor.
    + rewrite (addNode_names _ _ _ _ Hadd), decide_False by done.
      by rewrite Hnames, fmap_app.
    + by rewrite (addNode_virtualNodeCount _ _ _ _ Hadd).
Qed.

(** ** Properties of [getNodesForKey] *)

Lemma elem_of_take_1 {A} (x : A) n (l : list A) : x ∈ take n l → x ∈ l.
Proof. apply subseteq_take. Qed.

Lemma all_Some_fmap (l : list jsname) :
  (∀ x, x ∈ l → is_Some x) → ∃ names : list string, l = Some <$> names.
Proof.
  induction l as [|x l IH]; intros Hall.
  - by exists [].
  - destruct (Hall x ltac:(left)) as [n ->].
    destruct IH as [names ->]; [intros; apply Hall; by right|].
    by exists (n :: names).
Qed.

Lemma elem_of_owners_from r startIndex (x : jsname) :
  x ∈ owners_from r startIndex ↔ ∃ p, p ∈ sortedPositions r ∧ x = ring r !! p.
Proof.
  unfold owners_from. rewrite list_elem_of_fmap.
  split; intros (p & H1 & H2); exists p.
  - by rewrite elem_of_rotate in H2.
  - by rewrite elem_of_rotate.
Qed.

Lemma removeNode_virtualNodeCount r n :
  virtualNodeCount (removeNode r n) = virtualNodeCount r.
Proof. unfold removeNode. by destruct (jsmap_get _ _). Qed.

Lemma ring_state_registered_owner r n :
  ring_state r → (0 < virtualNodeCount r)%nat → n ∈ getAllNodeNames r →
  ∃ p, p ∈ sortedPositions r ∧ ring r !! p = Some n.
Proof.
  intros Hwf%ring_state_wf Hv Hn.
  apply jsmap_get_is_Some in Hn as [nd Hnd].
  destruct (wf_vps r Hwf n nd Hnd) as [Hlen Hown].
  destruct (virtualPositions nd) as [|p ps] eqn:Hps; [simpl in Hlen; lia|].
  exists p. assert (Hp : ring r !! p = Some n) by (apply Hown; left).
  split; [|done]. apply (wf_dom r Hwf). by eexists.
Qed.

Lemma assigned_names r startIndex R :
  ring_state r →
  ∃ names : list string,
    take R (first_occurrences (owners_from r startIndex)) = Some <$> names ∧
    NoDup names ∧
    (length names ≤ R)%nat ∧
    (length names ≤ length (getAllNodeNames r))%nat ∧
    (∀ n, n ∈ names → n ∈ getAllNodeNames r) ∧
    ((0 < virtualNodeCount r)%nat → (length (getAllNodeNames r) ≤ R)%nat →
     ∀ n, n ∈ getAllNodeNames r → n ∈ names).
Proof.
  intros Hst. pose proof (ring_state_wf r Hst) as Hwf.
  set (owners := owners_from r startIndex).
  assert (Hreg : ∀ x, x ∈ owners → ∃ n, x = Some n ∧ n ∈ getAllNodeNames r).
  { intros x (p & Hp & ->)%elem_of_owners_from.
    apply (wf_dom r Hwf) in Hp as [n Hn]. exists n. split; [done|].
    destruct (wf_owner r Hwf p n Hn) as (nd & Hnd & _).
    apply jsmap_get_is_Some. by eexists. }
  destruct (all_Some_fmap (take R (first_occurrences owners))) as [names Hnames].
  { intros x Hx%elem_of_take_1.
    apply (proj1 (elem_of_first_occurrences owners x)) in Hx.
    destruct (Hreg x Hx) as (n & -> & _). by eexists. }
  assert (Hsub : ∀ n, n ∈ names → n ∈ getAllNodeNames r).
  { intros n Hn.
    assert (Hx : Some n ∈ take R (first_occurrences owners)).
    { rewrite Hnames. apply list_elem_of_fmap. by exists n. }
    apply elem_of_take_1 in Hx.
    apply (proj1 (elem_of_first_occurrences owners _)) in Hx.
    destruct (Hreg _ Hx) as (n' & [= <-] & Hn'). done. }
  assert (Hnd : NoDup names).
  { apply (NoDup_fmap_1 Some). rewrite <- Hnames.
    eapply sublist_NoDup; [apply NoDup_first_occurrences | apply sublist_take]. }
  exists names. split_and!; [done | done | | | done |].
  - rewrite <- (length_fmap Some names), <- Hnames, length_take. lia.
  - apply submseteq_length, NoDup_submseteq; [done|]. exact Hsub.
  - intros Hv Hle n Hn.
    destruct (ring_state_registered_owner r n Hst Hv Hn) as (p & Hp & Hpn).
    assert (Hlen : (length (first_occurrences owners) ≤ length (getAllNodeNames r))%nat).
    { rewrite <- (length_fmap Some (getAllNodeNames r)).
      apply first_occurrences_length.
      - apply (NoDup_fmap_2 Some), (wf_names r Hwf).
      - intros x Hx. destruct (Hreg x Hx) as (n' & -> & Hn').
        apply list_elem_of_fmap. by exists n'. }
    rewrite take_ge in Hnames by lia.
    assert (Hx : Some n ∈ first_occurrences owners).
    { apply elem_of_first_occurrences, elem_of_owners_from. by exists p. }
    rewrite Hnames in Hx. apply list_elem_of_fmap in Hx as (n' & [= <-] & Hn'). done.
Qed.

(** ** The ring of the demo configuration *)

Definition demoBrokers : list (string * string) :=
  [("node-a", "http://node-a:5000"); ("node-b", "http://node-b:5000");
   ("node-c", "http://node-c:5000")].

(** The ring of the coordinator for the three demo brokers:
    [new HashRing(150)] and one [addNode] per broker. *)
Definition demoRing : HashRing :=
  Eval vm_compute in default (newHashRing 150) (buildRing 150 demoBrokers).

Lemma demoRing_built : buildRing 150 demoBrokers = Some demoRing.
Proof. vm_compute. reflexivity. Qed.

Lemma demoRing_state : ring_state demoRing.
Proof.
  apply ring_built_state.
  apply (buildRing_built 150 demoBrokers); [compute_done | | apply demoRing_built].
  repeat constructor; done.
Qed.

Example demoRing_positions :
  length (sortedPositions demoRing) = 450%nat ∧
  take 3 (sortedPositions demoRing) = [10877008; 12328773; 13088593] ∧
  last (sortedPositions demoRing) = Some 4294689418 ∧
  ring demoRing !! 10877008 = Some "node-c".
Proof. vm_compute. done. Qed.

Example demoRing_order_1 :
  getNodesForKey demoRing "order_1" 3 =
    Returned (mkAssignment (Some "node-a") [Some "node-b"; Some "node-c"] 184036158).
Proof. vm_compute. reflexivity. Qed.

(** A key past the last position of the ring. *)
Example demoRing_payment_847 :
  getNodesForKey demoRing "payment_847" 3 =
    Returned (mkAssignment (Some "node-c") [Some "node-a"; Some "node-b"] 4294845326).
Proof. vm_compute. reflexivity. Qed.

(** * The claims *)

(** ** C8: the empty ring *)


Lemma getNodesForKeyOf_string (r : HashRing) (s : string) (R : nat) :
  getNodesForKeyOf r (JsString s) R = getNodesForKey r s R.
Proof. reflexivity. Qed.



(** ** C7: wrap-around *)

Lemma rotate_0 {A} (l : list A) : rotate 0 l = l.
Proof.
  unfold rotate. rewrite Nat.Div0.mod_0_l. simpl. by rewrite drop_0, app_nil_r.
Qed.




(** ** C5: the nodes of a key *)

(** C5, as the code has it: on a ring reached through [addNode] of names not in use
    and [removeNode], with at least one registered broker, for a string
    key and a replication factor of at least 1, [getNodesForKey] returns
    pairwise distinct registered brokers, at most [R] and at most as many
    as are registered, in clockwise order from the first position at or
    after the key's hash (from index 0 when there is none); when no more
    than [R] brokers are registered, each with a virtual node or more, all
    of them. *)
Theorem C5_getNodesForKey_distinct_clockwise (r : HashRing) (key : string) (R : nat) :
  ring_state r → getAllNodeNames r ≠ [] → (1 ≤ R)%nat →
  ∃ (names : list string) (startIndex : nat),
    getNodesForKey r key R =
      Returned (mkAssignment (head names) (Some <$> tail names) (hash key)) ∧
    NoDup names ∧
    (length names ≤ R)%nat ∧
    (length names ≤ length (getAllNodeNames r))%nat ∧
    (∀ n, n ∈ names → n ∈ getAllNodeNames r) ∧
    clockwise_index (sortedPositions r) (hash key) startIndex ∧
    Some <$> names = take R (first_occurrences (owners_from r startIndex)) ∧
    ((0 < virtualNodeCount r)%nat →
     names ≠ [] ∧
     ((length (getAllNodeNames r) ≤ R)%nat → ∀ n, n ∈ getAllNodeNames r → n ∈ names)).
Proof.
  intros Hst Hne HR. pose proof (ring_state_wf r Hst) as Hwf.
  set (startIndex := _findClockwiseIndex r (hash key)).
  destruct (assigned_names r startIndex R Hst)
    as (names & Hnames & Hnd & HlenR & HlenB & Hsub & Hall).
  exists names, startIndex.
  assert (Hnodes : nodes r ≠ []).
  { intros Hn. apply Hne. unfold getAllNodeNames. by rewrite Hn. }
  split_and!; try done.
  - rewrite getNodesForKey_returns by done. simpl.
    fold startIndex. rewrite Hnames. by destruct names.
  - apply findClockwiseIndex_spec, (wf_sorted r Hwf).
  - intros Hv. split; [|auto].
    intros ->. simpl in Hnames.
    destruct (getAllNodeNames r) as [|n ns] eqn:Hns; [done|].
    destruct (ring_state_registered_owner r n Hst Hv) as (p & Hp & Hpn).
    { rewrite Hns. left. }
    assert (Hx : Some n ∈ first_occurrences (owners_from r startIndex)).
    { apply elem_of_first_occurrences, elem_of_owners_from. by exists p. }
    destruct (first_occurrences (owners_from r startIndex)) as [|x l];
      [by apply elem_of_nil in Hx|].
    destruct R; [lia|]. done.
Qed.

Lemma C5_witness :
  ∃ (names : list string) (startIndex : nat),
    getNodesForKey demoRing "order_1" 2 =
      Returned (mkAssignment (head names) (Some <$> tail names) (hash "order_1")) ∧
    NoDup names ∧
    (length names ≤ 2)%nat ∧
    (length names ≤ length (getAllNodeNames demoRing))%nat ∧
    (∀ n, n ∈ names → n ∈ getAllNodeNames demoRing) ∧
    clockwise_index (sortedPositions demoRing) (hash "order_1") startIndex ∧
    Some <$> names = take 2 (first_occurrences (owners_from demoRing startIndex)) ∧
    ((0 < virtualNodeCount demoRing)%nat →
     names ≠ [] ∧
     ((length (getAllNodeNames demoRing) ≤ 2)%nat →
      ∀ n, n ∈ getAllNodeNames demoRing → n ∈ names)).
Proof.
  apply (C5_getNodesForKey_distinct_clockwise demoRing "order_1" 2).
  - apply demoRing_state.
  - done.
  - lia.
Defined.

(** A name registered twice. [addNode] does not check the name: a second
    [addNode] of "a" probes past the position of the first one and
    overwrites its record in [nodes], so that [removeNode] deletes the
    position of the second registration only; the first one stays on the
    ring, owned by a name that is no longer registered. *)
Definition reregistered : option HashRing :=
  r1 ← addNode (newHashRing 1) "a" "http://a:5000";
  r2 ← addNode r1 "a" "http://a:5000";
  addNode (removeNode r2 "a") "b" "http://b:5000".

(** C5 as stated fails. With "b" the only registered broker,
    [getNodesForKey] returns two names, of which the primary "a" is not
    registered and has no URL; on a ring without virtual nodes it returns
    no name although one broker is registered, fewer than the replication
    factor; and for a key that is not a string it returns no list. *)
Lemma C5_counterexample :
  (∃ r names,
     reregistered = Some r ∧
     getAllNodeNames r = ["b"] ∧
     getNodesForKey r "order_1" 3 =
       Returned (mkAssignment (Some "a") [Some "b"] (hash "order_1")) ∧
     names = ["a"; "b"] ∧
     ¬ (length names ≤ length (getAllNodeNames r))%nat ∧
     ("a" ∉ getAllNodeNames r) ∧
     getNodeUrl r "a" = None) ∧
  (∃ r,
     addNode (newHashRing 0) "a" "http://a:5000" = Some r ∧
     getAllNodeNames r = ["a"] ∧
     (length (getAllNodeNames r) < 3)%nat ∧
     getNodesForKey r "order_1" 3 =
       Returned (mkAssignment None [] (hash "order_1"))) ∧
  (getAllNodeNames demoRing = ["node-a"; "node-b"; "node-c"] ∧
   ∀ a, getNodesForKeyOf demoRing (JsNumber 847) 3 ≠ Returned a).
Proof.
  split_and!.
  - eexists _, _. split; [vm_compute; reflexivity|].
    split; [vm_compute; reflexivity|].
    split; [vm_compute; reflexivity|].
    split; [reflexivity|].
    split; [vm_compute; lia|].
    split; [vm_compute; set_solver|].
    vm_compute; reflexivity.
  - eexists. split; [vm_compute; reflexivity|].
    split; [vm_compute; reflexivity|].
    split; [vm_compute; lia|].
    vm_compute; reflexivity.
  - reflexivity.
  - intros a. discriminate.
Qed.

Example demoRing_all_brokers :
  getNodesForKey demoRing "order_1" 5 =
    Returned (mkAssignment (Some "node-a") [Some "node-b"; Some "node-c"] 184036158) ∧
  getNodesForKey demoRing "order_1" 2 =
    Returned (mkAssignment (Some "node-a") [Some "node-b"] 184036158) ∧
  getNodesForKey demoRing "order_2" 3 =
    Returned (mkAssignment (Some "node-b") [Some "node-c"; Some "node-a"] 1305180658).
Proof. vm_compute. done. Qed.

(** ** C6: the broker's store *)

Lemma replicateLoop_spec post NODE_ID key payload i replicateTo :
  let res := replicateLoop post NODE_ID key payload i replicateTo in
  res.2 = (λ u, PostReplicate u key payload NODE_ID) <$> replicateTo ∧
  length res.1 = length replicateTo ∧
  ∀ (j : nat) u, replicateTo !! j = Some u →
    ∃ result, res.1 !! j = Some result ∧ rr_node result = u ∧
      (post (i + j)%nat (u +:+ "/replicate") = None →
         rr_status result = ReplSuccess ∧ rr_error result = None) ∧
      (∀ message, post (i + j)%nat (u +:+ "/replicate") = Some message →
         rr_status result = ReplFailed ∧ rr_error result = Some message).
Proof.
  revert i. induction replicateTo as [|u0 rest IH]; intros i; simpl.
  - split_and!; [done|done|]. intros j u. by rewrite lookup_nil.
  - destruct (IH (S i)) as (Htrace & Hlen & Hres). split_and!.
    + by rewrite Htrace.
    + by rewrite Hlen.
    + intros [|j] u; simpl.
      * intros [= ->]. eexists. split; [done|]. rewrite Nat.add_0_r.
        destruct (post i _) as [message|]; simpl; split_and!; try done.
        all: by intros ? [= ->].
      * intros Hu. destruct (Hres j u Hu) as (result & Hr & Hrest).
        exists result. split; [done|].
        by replace (i + S j)%nat with (S i + j)%nat by lia.
Qed.

(** C6: a store request with a key and a payload writes the entry locally
    with role primary before any replication request goes out, answers 201
    with [success = true] whatever the replication requests do, keeps the
    local entry, and reports one result per replica URL, in order, each
    [success] or [failed]. *)
Theorem C6_store_survives_replication_failure
    (NODE_ID : string) (post : nat → string → option string)
    (t_write t_log key payload : string) (replicateTo : list string) (b : Broker) :
  key ≠ "" →
  ∃ (results : list ReplicationResult),
    let entry := mkEntry payload t_write RolePrimary None in
    let logEntry := stored_as_primary key payload replicateTo results t_log in
    let response := Response201 true NODE_ID RolePrimary key replicateTo results in
    store NODE_ID post t_write t_log
          (mkStoreRequest (Some key) (Some payload) replicateTo) b
    = (mkBroker (<[key := entry]> (messageStore b)) (replicationLog b ++ [logEntry]),
       response,
       LocalWrite key entry
         :: ((λ u, PostReplicate u key payload NODE_ID) <$> replicateTo)
         ++ [PushLog logEntry; Respond response]) ∧
    (<[key := entry]> (messageStore b)) !! key = Some entry ∧
    length results = length replicateTo ∧
    ∀ (j : nat) u, replicateTo !! j = Some u →
      ∃ result, results !! j = Some result ∧ rr_node result = u ∧
        (rr_status result = ReplSuccess ∨ rr_status result = ReplFailed) ∧
        (rr_status result = ReplSuccess ↔ post j (u +:+ "/replicate") = None).
Proof.
  intros Hkey.
  destruct (replicateLoop_spec post NODE_ID key payload 0 replicateTo)
    as (Htrace & Hlen & Hres).
  exists (replicateLoop post NODE_ID key payload 0 replicateTo).1.
  split_and!.
  - unfold store. simpl. rewrite decide_False by done. by rewrite Htrace.
  - apply lookup_insert_eq.
  - done.
  - intros j u Hu. destruct (Hres j u Hu) as (result & Hr & Hnode & Hok & Hko).
    exists result. split_and!; [done|done| |].
    + destruct (post (0 + j)%nat (u +:+ "/replicate")) as [message|] eqn:Hp.
      * right. by apply (Hko message).
      * left. by apply Hok.
    + simpl in *. destruct (post j (u +:+ "/replicate")) as [message|] eqn:Hp.
      * destruct (Hko message eq_refl) as [Hs _]. rewrite Hs. split; done.
      * destruct (Hok eq_refl) as [Hs _]. by rewrite Hs.
Qed.

(** Two replicas, the first unreachable. *)
Definition demoPost (i : nat) (u : string) : option string :=
  if decide (u = "http://node-b:5000/replicate") then Some "connect ECONNREFUSED" else None.

Lemma C6_witness :
  ∃ (results : list ReplicationResult),
    let entry := mkEntry "{}" "t1" RolePrimary None in
    let replicateTo := ["http://node-b:5000"; "http://node-c:5000"] in
    let logEntry := stored_as_primary "order_1" "{}" replicateTo results "t2" in
    let response := Response201 true "node-a" RolePrimary "order_1" replicateTo results in
    store "node-a" demoPost "t1" "t2"
          (mkStoreRequest (Some "order_1") (Some "{}") replicateTo) (mkBroker ∅ [])
    = (mkBroker (<["order_1" := entry]> ∅) ([] ++ [logEntry]),
       response,
       LocalWrite "order_1" entry
         :: ((λ u, PostReplicate u "order_1" "{}" "node-a") <$> replicateTo)
         ++ [PushLog logEntry; Respond response]) ∧
    (<["order_1" := entry]> (∅ : gmap string Entry)) !! "order_1" = Some entry ∧
    length results = length replicateTo ∧
    ∀ (j : nat) u, replicateTo !! j = Some u →
      ∃ result, results !! j = Some result ∧ rr_node result = u ∧
        (rr_status result = ReplSuccess ∨ rr_status result = ReplFailed) ∧
        (rr_status result = ReplSuccess ↔ demoPost j (u +:+ "/replicate") = None).
Proof.
  apply (C6_store_survives_replication_failure "node-a" demoPost "t1" "t2"
           "order_1" "{}" ["http://node-b:5000"; "http://node-c:5000"] (mkBroker ∅ [])).
  done.
Defined.

Example store_degraded :
  (store "node-a" demoPost "t1" "t2"
         (mkStoreRequest (Some "order_1") (Some "{}")
                         ["http://node-b:5000"; "http://node-c:5000"])
         (mkBroker ∅ [])).1.2
  = Response201 true "node-a" RolePrimary "order_1"
      ["http://node-b:5000"; "http://node-c:5000"]
      [mkReplicationResult "http://node-b:5000" ReplFailed (Some "connect ECONNREFUSED");
       mkReplicationResult "http://node-c:5000" ReplSuccess None].
Proof. vm_compute. reflexivity. Qed.

(** ** C4 and C10: the health state machine *)

(** What happens to one broker's record: a probe, or [markFailedOver]. *)
Inductive HealthEvent :=
  | Probed (tcheck tdone : string) (responded : bool)
  | MarkedFailedOver.

Definition healthStep (T : nat) (n : string) (health : Health) (e : HealthEvent) : Health :=
  match e with
  | Probed tcheck tdone responded => (checkNode T n tcheck tdone responded health).1
  | MarkedFailedOver => failedOver health
  end.

(** The record of a broker after the events [es], from [init()] on. *)
Definition healthAfter (T : nat) (n : string) (es : list HealthEvent) : Health :=
  foldl (healthStep T n) initialHealth es.

(** The failed probes since the last successful one, most recent event
    first. *)
Fixpoint failuresSince (rev_es : list HealthEvent) : nat :=
  match rev_es with
  | [] => 0
  | Probed _ _ false :: rev_es' => S (failuresSince rev_es')
  | Probed _ _ true :: _ => 0
  | MarkedFailedOver :: rev_es' => failuresSince rev_es'
  end.

Definition consecutiveFailures (es : list HealthEvent) : nat :=
  failuresSince (reverse es).

Lemma consecutiveFailures_snoc es e :
  consecutiveFailures (es ++ [e]) =
    match e with
    | Probed _ _ false => S (consecutiveFailures es)
    | Probed _ _ true => 0%nat
    | MarkedFailedOver => consecutiveFailures es
    end.
Proof.
  unfold consecutiveFailures. rewrite reverse_snoc. simpl.
  by destruct e as [? ? []|].
Qed.

Lemma healthAfter_snoc T n es e :
  healthAfter T n (es ++ [e]) = healthStep T n (healthAfter T n es) e.
Proof. unfold healthAfter. by rewrite foldl_app. Qed.

Lemma healthAfter_invariant T n es :
  failCount (healthAfter T n es) = consecutiveFailures es ∧
  (status (healthAfter T n es) = HEALTHY →
   (consecutiveFailures es < T)%nat ∨ consecutiveFailures es = 0%nat).
Proof.
  induction es as [|e es [IHc IHs]] using rev_ind; [split; [done | by right]|].
  rewrite healthAfter_snoc, consecutiveFailures_snoc.
  destruct e as [tcheck tdone [|]|]; simpl; unfold checkNode.
  - destruct (status (healthAfter T n es)); simpl; split; auto.
  - rewrite IHc in *. case_decide as Hd; simpl.
    + split; [done|]. done.
    + split; [done|]. intros Hh. left.
      destruct (decide (T ≤ S (consecutiveFailures es))%nat); [|lia].
      exfalso. apply Hd. done.
  - split; [done|]. done.
Qed.

(** C4: along every history of a broker's record, [failCount] is the
    number of failed probes since the last successful one; a HEALTHY broker
    becomes FAILED at an event exactly when that event is a failed probe
    that brings this number to the threshold [T] or above, and it is below
    [T] while the broker is HEALTHY; a FAILED or FAILED_OVER broker becomes
    RECOVERED, with [failCount] 0, at its first successful probe. *)
Theorem C4_health_transitions (T : nat) (n : string) (es : list HealthEvent) :
  let health := healthAfter T n es in
  failCount health = consecutiveFailures es ∧
  (status health = HEALTHY →
   ((consecutiveFailures es < T)%nat ∨ consecutiveFailures es = 0%nat) ∧
   ∀ e, status (healthStep T n health e) = FAILED ↔
        (∃ tcheck tdone, e = Probed tcheck tdone false) ∧
        (T ≤ consecutiveFailures (es ++ [e]))%nat) ∧
  (status health = FAILED ∨ status health = FAILED_OVER →
   ∀ tcheck tdone,
     let res := checkNode T n tcheck tdone true health in
     status res.1 = RECOVERED ∧ failCount res.1 = 0%nat ∧
     res.2 = Some (OnRecovery n)).
Proof.
  destruct (healthAfter_invariant T n es) as [Hc Hs].
  cbv zeta. set (health := healthAfter T n es) in *.
  split; [done|]. split.
  - intros Hh. split; [auto|]. intros e. rewrite consecutiveFailures_snoc.
    destruct e as [tcheck tdone [|]|]; cbn [healthStep]; unfold checkNode, failedOver.
    + rewrite Hh. cbn. split; [done|]. intros [(? & ? & [=]) _].
    + destruct (decide _) as [[HT _]|Hd]; cbn.
      * rewrite <- Hc. split; [|done]. intros _. split; [by eexists _, _ | done].
      * rewrite Hh. split; [done|]. intros [_ HT]. exfalso. apply Hd.
        rewrite Hc. done.
    + cbn. split; [done|]. intros [(? & ? & [=]) _].
  - intros Hf tcheck tdone. unfold checkNode.
    destruct Hf as [-> | ->]; done.
Qed.

(** The records and callbacks of a run of failed probes, one per pair of
    clock readings. *)
Fixpoint failedProbes (T : nat) (n : string) (clock : list (string * string))
    (health : Health) : Health * list Callback :=
  match clock with
  | [] => (health, [])
  | (tcheck, tdone) :: clock' =>
      let res := checkNode T n tcheck tdone false health in
      let rest := failedProbes T n clock' res.1 in
      (rest.1, match res.2 with Some cb => [cb] | None => [] end ++ rest.2)
  end.

Lemma checkNode_failed_not_healthy T n tcheck tdone health :
  status health ≠ HEALTHY →
  checkNode T n tcheck tdone false health =
    (mkHealth (status health) (S (failCount health)) (Some tcheck)
              (lastSuccess health) (failedAt health), None).
Proof.
  intros Hs. unfold checkNode. by rewrite decide_False by (intros [_ ?]; done).
Qed.

Lemma checkNode_failed_healthy T n tcheck tdone health :
  status health = HEALTHY →
  checkNode T n tcheck tdone false health =
    if decide (T ≤ S (failCount health))%nat
    then (mkHealth FAILED (S (failCount health)) (Some tcheck)
                   (lastSuccess health) (Some tdone), Some (OnFailure n))
    else (mkHealth HEALTHY (S (failCount health)) (Some tcheck)
                   (lastSuccess health) (failedAt health), None).
Proof.
  intros Hs. unfold checkNode. rewrite Hs.
  destruct (decide (T ≤ S (failCount health))%nat).
  - by rewrite decide_True.
  - by rewrite decide_False by (intros [? _]; done).
Qed.

Lemma failedProbes_not_healthy T n clock health :
  status health ≠ HEALTHY →
  status (failedProbes T n clock health).1 = status health ∧
  (failedProbes T n clock health).2 = [] ∧
  failCount (failedProbes T n clock health).1 = (failCount health + length clock)%nat.
Proof.
  revert health. induction clock as [|[tcheck tdone] clock IH]; intros health Hs.
  - simpl. split_and!; [done|done|lia].
  - cbn [failedProbes]. rewrite checkNode_failed_not_healthy by done. cbn [fst snd].
    destruct (IH (mkHealth (status health) (S (failCount health)) (Some tcheck)
                           (lastSuccess health) (failedAt health)) Hs)
      as (H1 & H2 & H3).
    rewrite H1, H2, H3. simpl. split_and!; [done|done|lia].
Qed.

Lemma failedProbes_healthy T n clock health :
  status health = HEALTHY → (1 ≤ length clock)%nat →
  (failCount health + length clock = T)%nat →
  status (failedProbes T n clock health).1 = FAILED ∧
  (failedProbes T n clock health).2 = [OnFailure n].
Proof.
  revert health. induction clock as [|[tcheck tdone] clock IH];
    intros health Hs Hlen Hsum; simpl in Hlen, Hsum; [lia|].
  cbn [failedProbes]. rewrite checkNode_failed_healthy by done.
  destruct clock as [|c clock].
  - simpl in Hsum. rewrite decide_True by lia. done.
  - simpl in Hsum. rewrite decide_False by lia. cbn [fst snd app].
    apply IH; simpl; [done | lia | lia].
Qed.

(** C10: from RECOVERED, a run of failed probes of any length leaves the
    status RECOVERED and fires no callback; failure detection works again
    only after a successful probe, which sets the status to HEALTHY: from
    there [T] failed probes in a row fire [onFailure] once. *)
Theorem C10_recovered_never_fails_again
    (T : nat) (n : string) (health : Health) (clock : list (string * string)) :
  status health = RECOVERED →
  status (failedProbes T n clock health).1 = RECOVERED ∧
  (failedProbes T n clock health).2 = [] ∧
  ∀ tcheck tdone,
    let rearmed := (checkNode T n tcheck tdone true health).1 in
    status rearmed = HEALTHY ∧ failCount rearmed = 0%nat ∧
    ((1 ≤ T)%nat → ∀ clock', length clock' = T →
       status (failedProbes T n clock' rearmed).1 = FAILED ∧
       (failedProbes T n clock' rearmed).2 = [OnFailure n]).
Proof.
  intros Hs.
  destruct (failedProbes_not_healthy T n clock health) as (H1 & H2 & _);
    [by rewrite Hs|].
  split_and!; [by rewrite H1 | done |].
  intros tcheck tdone. unfold checkNode. rewrite Hs. simpl.
  split_and!; [done|done|]. intros HT clock' Hlen.
  apply failedProbes_healthy; simpl; [done | lia | lia].
Qed.

Lemma C10_witness :
  let health := mkHealth RECOVERED 0 (Some "t0") (Some "t0") (Some "t0") in
  let clock := [("t1", "t2"); ("t3", "t4"); ("t5", "t6"); ("t7", "t8")] in
  status (failedProbes 3 "node-a" clock health).1 = RECOVERED ∧
  (failedProbes 3 "node-a" clock health).2 = [] ∧
  ∀ tcheck tdone,
    let rearmed := (checkNode 3 "node-a" tcheck tdone true health).1 in
    status rearmed = HEALTHY ∧ failCount rearmed = 0%nat ∧
    ((1 ≤ 3)%nat → ∀ clock', length clock' = 3%nat →
       status (failedProbes 3 "node-a" clock' rearmed).1 = FAILED ∧
       (failedProbes 3 "node-a" clock' rearmed).2 = [OnFailure "node-a"]).
Proof.
  apply (C10_recovered_never_fails_again 3 "node-a"
           (mkHealth RECOVERED 0 (Some "t0") (Some "t0") (Some "t0"))
           [("t1", "t2"); ("t3", "t4"); ("t5", "t6"); ("t7", "t8")]).
  reflexivity.
Defined.

Example health_three_failures :
  status (healthAfter 3 "node-a"
            [Probed "t1" "t2" false; Probed "t3" "t4" false]) = HEALTHY ∧
  status (healthAfter 3 "node-a"
            [Probed "t1" "t2" false; Probed "t3" "t4" false; Probed "t5" "t6" false]) = FAILED ∧
  status (healthAfter 3 "node-a"
            [Probed "t1" "t2" false; Probed "t3" "t4" true; Probed "t5" "t6" false;
             Probed "t7" "t8" false]) = HEALTHY ∧
  healthAfter 3 "node-a"
    [Probed "t1" "t2" false; Probed "t3" "t4" false; Probed "t5" "t6" false;
     MarkedFailedOver; Probed "t7" "t8" true]
  = mkHealth RECOVERED 0 (Some "t7") (Some "t8") (Some "t6").
Proof. vm_compute. done. Qed.

(** ** Running the coordinator *)

(** A step of the coordinator: a probe of one node, or the end of a
    failure callback in flight. *)
Inductive Action :=
  | ACheck (nodeName tcheck tdone : string) (responded : bool)
  | AFailover (failedNode : string) (net : Network) (now : string).

Fixpoint remove_inflight (x : string) (l : list string) : option (list string) :=
  match l with
  | [] => None
  | y :: l' => if decide (y = x) then Some l' else (y ::.) <$> remove_inflight x l'
  end.

Definition act (r : HashRing) (T : nat) (w : World) (a : Action) : option World :=
  match a with
  | ACheck nodeName tcheck tdone responded =>
      health ← jsmap_get nodeName (nodeHealth (coord w));
      if truthy (getNodeUrl r nodeName) then
        let res := checkNode T nodeName tcheck tdone responded health in
        Some (mkWorld
                (mkCoordinator (jsmap_set nodeName res.1 (nodeHealth (coord w)))
                               (promotedNodes (coord w)) (failoverEvents (coord w)))
                (inflight w ++ failures (callbacks res.2)))
      else None
  | AFailover failedNode net now =>
      rest ← remove_inflight failedNode (inflight w);
      Some (mkWorld (onFailure r net now failedNode (coord w)).1 rest)
  end.

Definition run (r : HashRing) (T : nat) (actions : list Action) (w : World)
    : option World :=
  foldl (λ acc a, w ← acc; act r T w a) (Some w) actions.

Lemma remove_inflight_Some x l rest :
  remove_inflight x l = Some rest →
  ∃ before after, l = before ++ x :: after ∧ rest = before ++ after.
Proof.
  revert rest. induction l as [|y l IH]; intros rest; simpl; [done|].
  destruct (decide (y = x)) as [->|Hne].
  - intros [= <-]. by exists [], l.
  - destruct (remove_inflight x l) as [rest'|]; simpl; [|done].
    intros [= <-]. destruct (IH rest' eq_refl) as (before & after & -> & ->).
    by exists (y :: before), after.
Qed.

Lemma act_step r T w a w' : act r T w a = Some w' → step r T w w'.
Proof.
  destruct a as [nodeName tcheck tdone responded|failedNode net now]; simpl.
  - destruct (jsmap_get _ _) as [health|] eqn:Hh; simpl; [|done].
    destruct (truthy _) eqn:Hu; [|done].
    intros [= <-]. by apply step_check.
  - destruct (remove_inflight _ _) as [rest|] eqn:Hr; simpl; [|done].
    intros [= <-].
    apply remove_inflight_Some in Hr as (before & after & Hin & ->).
    by apply step_failover.
Qed.

Lemma run_rtc r T actions w w' :
  run r T actions w = Some w' → rtc (step r T) w w'.
Proof.
  unfold run. revert w. induction actions as [|a actions IH]; intros w; simpl.
  - intros [= <-]. apply rtc_refl.
  - destruct (act r T w a) as [w1|] eqn:Ha; simpl.
    + intros Hrun. apply (rtc_l _ _ w1); [by apply (act_step r T w a) | by apply IH].
    + intros Hrun. exfalso. clear -Hrun.
      induction actions as [|a' actions IH]; simpl in Hrun; [done | auto].
Qed.

Lemma run_reachable r T actions w :
  run r T actions (initWorld r) = Some w → reachable r T w.
Proof. apply run_rtc. Qed.

(** A round of [_checkAll] is a run of steps of the coordinator. *)
Lemma checkAll_loop_steps r T responded clock names c infl :
  let res := checkAll_loop T r responded clock names (nodeHealth c) in
  rtc (step r T) (mkWorld c infl)
      (mkWorld (mkCoordinator res.1 (promotedNodes c) (failoverEvents c))
               (infl ++ failures res.2)).
Proof.
  revert c infl. induction names as [|n names IH]; intros c infl; simpl.
  - rewrite app_nil_r. destruct c. apply rtc_refl.
  - destruct (jsmap_get n (nodeHealth c)) as [health|] eqn:Hh; [|apply IH].
    destruct (truthy (getNodeUrl r n)) eqn:Hu; [|apply IH].
    set (res := checkNode T n (clock n).1 (clock n).2 (responded n) health).
    eapply rtc_l.
    + apply (step_check r T (mkWorld c infl) n health (clock n).1 (clock n).2
               (responded n) Hh Hu).
    + cbv zeta. fold res. simpl.
      unfold failures at 2. rewrite omap_app. fold (failures (callbacks res.2)).
      fold (failures (checkAll_loop T r responded clock names
                        (jsmap_set n res.1 (nodeHealth c))).2).
      rewrite app_assoc.
      apply (IH (mkCoordinator (jsmap_set n res.1 (nodeHealth c))
                               (promotedNodes c) (failoverEvents c))).
Qed.

(** A network on which exactly the brokers of [alive] answer. *)
Definition aliveNetwork (r : HashRing) (alive : list string) (promote : bool) : Network :=
  mkNetwork
    (λ u, bool_decide (u ∈ (λ n, template (getNodeUrl r n) +:+ "/health") <$> alive))
    (λ u, promote).

(** Three probes of [nodeName] in a row without an answer. *)
Definition threeFailures (nodeName : string) : list Action :=
  [ACheck nodeName "t1" "t2" false; ACheck nodeName "t3" "t4" false;
   ACheck nodeName "t5" "t6" false].

(** ** C1: a failed promote request *)

(** node-a has failed, node-b answers the health probe and rejects the
    promote request. *)
Definition promoteFails : option World :=
  run demoRing 3
      (threeFailures "node-a"
         ++ [AFailover "node-a" (aliveNetwork demoRing ["node-b"; "node-c"] false) "t7"])
      (initWorld demoRing).

(** C1 as stated fails: the promote request is rejected, and the override
    is inserted, the record marked FAILED_OVER and an event appended. *)
Lemma C1_counterexample :
  ∃ w before,
    promoteFails = Some w ∧
    run demoRing 3 (threeFailures "node-a") (initWorld demoRing) = Some before ∧
    post_ok (aliveNetwork demoRing ["node-b"; "node-c"] false)
            "http://node-b:5000/promote" = false ∧
    promotedNodes (coord before) !! "node-a" = None ∧
    promotedNodes (coord w) !! "node-a" = Some "node-b" ∧
    status <$> jsmap_get "node-a" (nodeHealth (coord before)) = Some FAILED ∧
    status <$> jsmap_get "node-a" (nodeHealth (coord w)) = Some FAILED_OVER ∧
    failoverEvents (coord before) = [] ∧
    failoverEvents (coord w) = [mkFailoverEvent "node-a" "node-b" "t7"].
Proof.
  eexists _, _. split; [vm_compute; reflexivity|].
  split; [vm_compute; reflexivity|]. vm_compute. done.
Qed.

(** C1, as the code has it: the state [onFailure] leaves does not depend on the
    outcome of the promote request. When a candidate answers the health
    probe, the override is inserted, the failed node is marked FAILED_OVER
    and one event is appended, whether the promote request succeeds or not;
    a failure only adds a line to the console. The failover state is left
    unchanged when no candidate answers the health probe. *)
Theorem C1_promote_outcome_is_only_logged
    (r : HashRing) (net : Network) (now failedNode : string) (c : Coordinator) :
  let allNodes := getAllNodeNames r in
  let found := (findCandidate r net allNodes (indexOf failedNode allNodes)
                  (seq 1 (length allNodes - 1))).1 in
  (∀ post_ok', (onFailure r (mkNetwork (get_ok net) post_ok') now failedNode c).1
               = (onFailure r net now failedNode c).1) ∧
  (∀ promotedNode, found = Some promotedNode → promotedNode ≠ "" →
     (onFailure r net now failedNode c).1
     = mkCoordinator (markFailedOver failedNode (nodeHealth c))
                     (<[failedNode := promotedNode]> (promotedNodes c))
                     (failoverEvents c ++ [mkFailoverEvent failedNode promotedNode now]) ∧
     (post_ok net (template (getNodeUrl r promotedNode) +:+ "/promote") = false →
      LogPromoteSignalFailed ∈ (onFailure r net now failedNode c).2)) ∧
  (found = None ∨ found = Some "" → (onFailure r net now failedNode c).1 = c).
Proof.
  assert (Hfind : ∀ post_ok' allNodes failedIndex idxs,
            findCandidate r (mkNetwork (get_ok net) post_ok') allNodes failedIndex idxs
            = findCandidate r net allNodes failedIndex idxs).
  { intros post_ok' allNodes failedIndex idxs.
    induction idxs as [|i idxs IH]; simpl; [done|]. by rewrite IH. }
  cbv zeta. split_and!.
  - intros post_ok'. unfold onFailure. rewrite Hfind.
    destruct (findCandidate _ _ _ _ _).1 as [p|]; [|done].
    by destruct (decide (p = "")).
  - intros promotedNode Hfound Hne. unfold onFailure. rewrite Hfound.
    rewrite decide_False by done. split; [done|].
    intros Hpost. cbn [snd]. rewrite Hpost.
    apply elem_of_app. left. apply elem_of_app. right. left.
  - intros [Hfound|Hfound]; unfold onFailure; rewrite Hfound; [done|].
    by rewrite decide_True.
Qed.

(** ** C3: the replicas of a produce *)

(** node-b has failed and node-c, the next broker of the list, was
    promoted in its place. *)
Definition nodeB_failedOver : option World :=
  run demoRing 3
      (threeFailures "node-b"
         ++ [AFailover "node-b" (aliveNetwork demoRing ["node-a"; "node-c"] true) "t7"])
      (initWorld demoRing).

(** A primary that answers, every replication a success. *)
Definition allReplicated (u : string) (body : StoreBody) : option (list ReplicationResult) :=
  Some ((λ replicaUrl, mkReplicationResult replicaUrl ReplSuccess None)
          <$> sb_replicateTo body).

(** C3 as stated fails: both raw replicas of order_1 map to node-c, which
    is listed twice. *)
Lemma C3_counterexample :
  ∃ w,
    nodeB_failedOver = Some w ∧
    reachable demoRing 3 w ∧
    promotedNodes (coord w) = {["node-b" := "node-c"]} ∧
    getNodesForKey demoRing "order_1" 3 =
      Returned (mkAssignment (Some "node-a") [Some "node-b"; Some "node-c"] 184036158) ∧
    produceRouting demoRing (coord w) "order_1" 3 =
      Returned (mkRouting 184036158 (Some "node-a")
                  [Some "node-c"; Some "node-c"]
                  (Some "http://node-a:5000")
                  ["http://node-c:5000"; "http://node-c:5000"]) ∧
    produce demoRing (coord w) 3 allReplicated (Some "order_1") (Some "{}") =
      Returned (Produce201 "order_1" 184036158 (Some "node-a")
                  [Some "node-c"; Some "node-c"]
                  [mkReplicationResult "http://node-c:5000" ReplSuccess None;
                   mkReplicationResult "http://node-c:5000" ReplSuccess None]) ∧
    ¬ NoDup ["http://node-c:5000"; "http://node-c:5000"].
Proof.
  eexists. split; [vm_compute; reflexivity|].
  split; [apply (run_reachable demoRing 3
                   (threeFailures "node-b"
                      ++ [AFailover "node-b"
                            (aliveNetwork demoRing ["node-a"; "node-c"] true) "t7"]));
          vm_compute; reflexivity|].
  split; [vm_compute; reflexivity|].
  split; [vm_compute; reflexivity|].
  split; [vm_compute; reflexivity|].
  split; [vm_compute; reflexivity|].
  intros Hnd. apply NoDup_cons in Hnd as [Hnot _]. apply Hnot. left.
Qed.

Lemma filter_fmap_count {A B} `{EqDecision B} (f : A → B) (p n : B) (l : list A) :
  n ≠ p →
  length (filter (λ x, x = n) (filter (λ x, x ≠ p) (f <$> l)))
  = length (filter (λ a, f a = n) l).
Proof.
  intros Hnp. induction l as [|a l IH]; [done|].
  rewrite fmap_cons, !filter_cons.
  destruct (decide (f a = n)) as [Hfa|Hfa].
  - rewrite decide_True by congruence. rewrite filter_cons, decide_True by done.
    simpl. by rewrite IH.
  - destruct (decide (f a ≠ p)); [|done].
    rewrite filter_cons, decide_False by done. done.
Qed.

(** C3, as the code has it: the replica list used by produce is the raw
    replicas each mapped through the override map, in the same order, with
    the entries equal to the effective primary removed. Duplicates are kept:
    a broker other than the primary occurs once for every raw replica that
    maps to it, so the list holds a broker twice when two raw replicas map
    to the same promoted broker. The URLs of this list are what produce
    sends as [replicateTo]. *)
Theorem C3_replicas_mapped_and_filtered
    (r : HashRing) (c : Coordinator) (key : string) (R : nat) (a : Assignment) :
  getNodesForKey r key R = Returned a →
  ∃ rt,
    produceRouting r c key R = Returned rt ∧
    rt_primary rt = resolveEffectivePrimary c (primary a) ∧
    rt_replicas rt =
      filter (λ n, n ≠ rt_primary rt) (resolveEffectivePrimary c <$> replicas a) ∧
    (rt_primary rt ∉ rt_replicas rt) ∧
    (∀ n, n ≠ rt_primary rt →
       length (filter (λ x, x = n) (rt_replicas rt))
       = length (filter (λ raw, resolveEffectivePrimary c raw = n) (replicas a))) ∧
    rt_replicaUrls rt =
      omap (λ n, let u := nodeUrl r n in if truthy u then u else None) (rt_replicas rt) ∧
    (key ≠ "" → ∀ storeAt payload,
       produce r c R storeAt (Some key) (Some payload) =
         match storeAt (template (rt_primaryUrl rt) +:+ "/store")
                       (mkStoreBody key payload (rt_replicaUrls rt)) with
         | Some results =>
             Returned (Produce201 key (keyHash a) (rt_primary rt) (rt_replicas rt) results)
         | None =>
             Returned (Produce503 ("Primary broker " +:+ template (rt_primary rt)
                                     +:+ " is unreachable") key)
         end).
Proof.
  intros Ha. unfold produce, produceRouting. rewrite Ha. eexists. split; [done|]. simpl.
  split_and!; [done | done | | | done |].
  - rewrite list_elem_of_filter. tauto.
  - intros n Hn. by apply filter_fmap_count.
  - intros Hkey storeAt payload. by rewrite decide_False by done.
Qed.

Lemma C3_witness :
  ∃ rt,
    produceRouting demoRing (mkCoordinator [] {["node-b" := "node-c"]} []) "order_1" 3
      = Returned rt ∧
    rt_primary rt =
      resolveEffectivePrimary (mkCoordinator [] {["node-b" := "node-c"]} []) (Some "node-a") ∧
    rt_replicas rt =
      filter (λ n, n ≠ rt_primary rt)
        (resolveEffectivePrimary (mkCoordinator [] {["node-b" := "node-c"]} [])
           <$> [Some "node-b"; Some "node-c"]) ∧
    (rt_primary rt ∉ rt_replicas rt) ∧
    (∀ n, n ≠ rt_primary rt →
       length (filter (λ x, x = n) (rt_replicas rt))
       = length (filter (λ raw,
                   resolveEffectivePrimary (mkCoordinator [] {["node-b" := "node-c"]} []) raw = n)
                   [Some "node-b"; Some "node-c"])) ∧
    rt_replicaUrls rt =
      omap (λ n, let u := nodeUrl demoRing n in if truthy u then u else None)
           (rt_replicas rt) ∧
    ("order_1" ≠ "" → ∀ storeAt payload,
       produce demoRing (mkCoordinator [] {["node-b" := "node-c"]} []) 3 storeAt
               (Some "order_1") (Some payload) =
         match storeAt (template (rt_primaryUrl rt) +:+ "/store")
                       (mkStoreBody "order_1" payload (rt_replicaUrls rt)) with
         | Some results =>
             Returned (Produce201 "order_1" 184036158 (rt_primary rt) (rt_replicas rt) results)
         | None =>
             Returned (Produce503 ("Primary broker " +:+ template (rt_primary rt)
                                     +:+ " is unreachable") "order_1")
         end).
Proof.
  apply (C3_replicas_mapped_and_filtered demoRing
           (mkCoordinator [] {["node-b" := "node-c"]} []) "order_1" 3
           (mkAssignment (Some "node-a") [Some "node-b"; Some "node-c"] 184036158)).
  vm_compute. reflexivity.
Defined.

(** ** C2: the effective primary of a failed broker *)

(** node-a fails and node-b is promoted in its place; then node-b fails
    and node-c is promoted in its place. *)
Definition chainOfFailovers : option World :=
  run demoRing 3
      (threeFailures "node-a"
         ++ [AFailover "node-a" (aliveNetwork demoRing ["node-b"; "node-c"] true) "t7"]
         ++ threeFailures "node-b"
         ++ [AFailover "node-b" (aliveNetwork demoRing ["node-c"] true) "t8"])
      (initWorld demoRing).

(** C2 as stated fails: keys of node-a are written to node-b, which is
    FAILED_OVER; the override of node-b is not followed. *)
Lemma C2_counterexample :
  ∃ w a,
    chainOfFailovers = Some w ∧
    reachable demoRing 3 w ∧
    getNodesForKey demoRing "order_1" 3 = Returned a ∧
    primary a = Some "node-a" ∧
    promotedNodes (coord w) = {["node-a" := "node-b"; "node-b" := "node-c"]} ∧
    resolveEffectivePrimary (coord w) (primary a) = Some "node-b" ∧
    status <$> jsmap_get "node-b" (nodeHealth (coord w)) = Some FAILED_OVER.
Proof.
  eexists _, _. split; [vm_compute; reflexivity|].
  split; [apply (run_reachable demoRing 3
                   (threeFailures "node-a"
                      ++ [AFailover "node-a"
                            (aliveNetwork demoRing ["node-b"; "node-c"] true) "t7"]
                      ++ threeFailures "node-b"
                      ++ [AFailover "node-b" (aliveNetwork demoRing ["node-c"] true) "t8"]));
          vm_compute; reflexivity|].
  split; [vm_compute; reflexivity|].
  vm_compute. done.
Qed.

Lemma indexOf_spec (x : string) (l : list string) :
  (indexOf x l = -1 ∧ x ∉ l) ∨
  (0 ≤ indexOf x l < Z.of_nat (length l) ∧ l !! Z.to_nat (indexOf x l) = Some x).
Proof.
  induction l as [|y l IH]; simpl.
  - left. split; [done | apply not_elem_of_nil].
  - destruct (decide (y = x)) as [->|Hne].
    + right. split; [lia | done].
    + destruct IH as [[Hi Hx]|[Hi Hx]].
      * left. rewrite Hi. simpl. split; [done|].
        apply not_elem_of_cons. split; [congruence | done].
      * right. rewrite decide_False by lia. split; [lia|].
        replace (Z.to_nat (indexOf x l + 1)) with (S (Z.to_nat (indexOf x l))) by lia.
        done.
Qed.

Lemma findCandidate_Some r net (allNodes : list string) failedIndex idxs p :
  (findCandidate r net allNodes failedIndex idxs).1 = Some p →
  ∃ i : nat, i ∈ idxs ∧
    allNodes !! Z.to_nat ((failedIndex + Z.of_nat i) `rem` Z.of_nat (length allNodes))
    = Some p.
Proof.
  induction idxs as [|i idxs IH]; simpl; [done|].
  destruct (get_ok net _).
  - simpl. intros Hp. exists i. split; [left | done].
  - simpl. intros (j & Hj & Hp)%IH. exists j. split; [by right | done].
Qed.

(** The candidate differs from the failed node and is a node of the ring. *)
Lemma candidate_is_another_node r net failedNode p :
  NoDup (getAllNodeNames r) →
  (findCandidate r net (getAllNodeNames r) (indexOf failedNode (getAllNodeNames r))
     (seq 1 (length (getAllNodeNames r) - 1))).1 = Some p →
  p ∈ getAllNodeNames r ∧ p ≠ failedNode.
Proof.
  intros Hnd (i & [Hi1 Hi2]%elem_of_seq & Hp)%findCandidate_Some.
  set (allNodes := getAllNodeNames r) in *.
  split; [by apply list_elem_of_lookup_2 in Hp|].
  intros ->.
  destruct (indexOf_spec failedNode allNodes) as [[_ Hnot]|[Hrange Hf]].
  { apply Hnot. by apply list_elem_of_lookup_2 in Hp. }
  pose proof (NoDup_lookup _ _ _ _ Hnd Hp Hf) as Heq.
  set (fi := indexOf failedNode allNodes) in *.
  set (len := Z.of_nat (length allNodes)) in *.
  rewrite Z.rem_mod_nonneg in Heq by lia.
  assert (Hmod : (fi + Z.of_nat i) `mod` len = fi).
  { apply Z2Nat.inj; [|lia|done]. apply Z.mod_pos_bound. lia. }
  destruct (decide (fi + Z.of_nat i < len)) as [Hlt|Hge].
  - rewrite Z.mod_small in Hmod by lia. lia.
  - assert (Hsub : (fi + Z.of_nat i) `mod` len = fi + Z.of_nat i - len).
    { symmetry. apply (Z.mod_unique_pos _ _ 1). lia.  lia. }
    lia.
Qed.

Lemma onFailure_cases r net now failedNode c :
  NoDup (getAllNodeNames r) →
  (onFailure r net now failedNode c).1 = c ∨
  ∃ p, p ∈ getAllNodeNames r ∧ p ≠ failedNode ∧ p ≠ "" ∧
       (onFailure r net now failedNode c).1
       = mkCoordinator (markFailedOver failedNode (nodeHealth c))
                       (<[failedNode := p]> (promotedNodes c))
                       (failoverEvents c ++ [mkFailoverEvent failedNode p now]).
Proof.
  intros Hnd. unfold onFailure.
  destruct (findCandidate _ _ _ _ _).1 as [p|] eqn:Hfound; [|by left].
  destruct (decide (p = "")); [by left|]. right.
  destruct (candidate_is_another_node r net failedNode p Hnd Hfound) as [Hin Hne].
  by exists p.
Qed.

Lemma checkNode_failedOver_status T n tcheck tdone responded health :
  status (checkNode T n tcheck tdone responded health).1 = FAILED_OVER →
  status health = FAILED_OVER.
Proof.
  unfold checkNode. destruct responded.
  - by destruct (status health).
  - case_decide; simpl; done.
Qed.

Lemma markFailedOver_other f n (nh : list (string * Health)) :
  n ≠ f → jsmap_get n (markFailedOver f nh) = jsmap_get n nh.
Proof.
  intros Hne. unfold markFailedOver. destruct (jsmap_get f nh); [|done].
  by rewrite jsmap_get_set, decide_False.
Qed.

(** A broker marked FAILED_OVER has an override naming another node. *)
Definition overridden (r : HashRing) (c : Coordinator) : Prop :=
  ∀ n health, jsmap_get n (nodeHealth c) = Some health → status health = FAILED_OVER →
    ∃ p, promotedNodes c !! n = Some p ∧ p ≠ n ∧ p ≠ "" ∧ p ∈ getAllNodeNames r.

Lemma initHealth_healthy r n health :
  jsmap_get n (initHealth r) = Some health → health = initialHealth.
Proof.
  unfold initHealth.
  assert (Hgen : ∀ names (acc : list (string * Health)),
            (∀ h, jsmap_get n acc = Some h → h = initialHealth) →
            ∀ h, jsmap_get n (foldl (λ acc nodeName, jsmap_set nodeName initialHealth acc)
                                    acc names) = Some h → h = initialHealth).
  { intros names. induction names as [|m names IH]; intros acc Hacc h; simpl; [auto|].
    apply IH. intros h'. rewrite jsmap_get_set. case_decide; [congruence | auto]. }
  apply Hgen. done.
Qed.

Lemma step_overridden r T w w' :
  NoDup (getAllNodeNames r) →
  step r T w w' → overridden r (coord w) → overridden r (coord w').
Proof.
  intros Hnd Hstep Hinv. destruct Hstep as [w nodeName health tcheck tdone responded Hh Hu|
                                            w failedNode net now before after Hin]; simpl.
  - intros n h. simpl. rewrite jsmap_get_set.
    destruct (decide (n = nodeName)) as [->|Hne].
    + intros [= <-] Hs%checkNode_failedOver_status. by apply (Hinv nodeName health).
    + apply Hinv.
  - destruct (onFailure_cases r net now failedNode (coord w) Hnd)
      as [->|(p & Hp & Hpf & Hpe & ->)]; [done|].
    intros n h. simpl. destruct (decide (n = failedNode)) as [->|Hne].
    + intros _ _. exists p. by rewrite lookup_insert_eq.
    + rewrite markFailedOver_other, lookup_insert_ne by done. apply Hinv.
Qed.

Lemma reachable_overridden r T w :
  NoDup (getAllNodeNames r) → reachable r T w → overridden r (coord w).
Proof.
  intros Hnd. revert w. unfold reachable. apply rtc_ind_r.
  - intros n h Hn%initHealth_healthy Hs. by subst h.
  - intros w1 w2 _ Hstep IH. by apply (step_overridden r T w1 w2).
Qed.

(** C2, as the code has it: in every reachable state of the coordinator, a broker
    whose status is FAILED_OVER has an override entry that names another
    registered broker, so a key whose raw primary is FAILED_OVER is routed,
    by one lookup of the override map, to that other broker and not to its
    raw primary. Nothing is promised on the status of that other broker,
    nor for a raw primary that is FAILED. *)
Theorem C2_failed_over_primary_is_replaced
    (r : HashRing) (T : nat) (w : World) (key : string) (R : nat)
    (a : Assignment) (n : string) (health : Health) :
  ring_state r → reachable r T w →
  getNodesForKey r key R = Returned a → primary a = Some n →
  jsmap_get n (nodeHealth (coord w)) = Some health → status health = FAILED_OVER →
  ∃ rt promoted,
    produceRouting r (coord w) key R = Returned rt ∧
    rt_primary rt = Some promoted ∧
    promotedNodes (coord w) !! n = Some promoted ∧
    promoted ≠ n ∧
    promoted ∈ getAllNodeNames r.
Proof.
  intros Hst Hreach Ha Hprim Hh Hs.
  pose proof (wf_names r (ring_state_wf r Hst)) as Hnd.
  destruct (reachable_overridden r T w Hnd Hreach n health Hh Hs)
    as (p & Hp & Hpn & Hpe & Hpin).
  unfold produceRouting. rewrite Ha, Hprim. eexists _, p. split; [done|]. simpl.
  rewrite Hp, decide_False by done. done.
Qed.

(** node-a has failed and node-b was promoted in its place. *)
Definition nodeA_failedOver : option World :=
  run demoRing 3
      (threeFailures "node-a"
         ++ [AFailover "node-a" (aliveNetwork demoRing ["node-b"; "node-c"] true) "t7"])
      (initWorld demoRing).

Definition nodeA_failedOver_world : World :=
  Eval vm_compute in default (initWorld demoRing) nodeA_failedOver.

Lemma C2_witness :
  ∃ rt promoted,
    produceRouting demoRing (coord nodeA_failedOver_world) "order_1" 3 = Returned rt ∧
    rt_primary rt = Some promoted ∧
    promotedNodes (coord nodeA_failedOver_world) !! "node-a" = Some promoted ∧
    promoted ≠ "node-a" ∧
    promoted ∈ getAllNodeNames demoRing.
Proof.
  apply (C2_failed_over_primary_is_replaced demoRing 3 nodeA_failedOver_world
           "order_1" 3
           (mkAssignment (Some "node-a") [Some "node-b"; Some "node-c"] 184036158)
           "node-a"
           (mkHealth FAILED_OVER 3 (Some "t5") None (Some "t6"))).
  - apply demoRing_state.
  - apply (run_reachable demoRing 3
             (threeFailures "node-a"
                ++ [AFailover "node-a"
                      (aliveNetwork demoRing ["node-b"; "node-c"] true) "t7"])).
    vm_compute. reflexivity.
  - vm_compute. reflexivity.
  - reflexivity.
  - vm_compute. reflexivity.
  - reflexivity.
Defined.

(** ** C9: removing a broker and adding it again *)

(** Two broker names with a label each of the same hash. *)
Example labels_collide :
  hash (vnode_label "node-801" 72) = 2027215980 ∧
  hash (vnode_label "node-842" 8) = 2027215980.
Proof. vm_compute. done. Qed.

(** With 150 virtual nodes per broker: node-801 is added, node-842 is
    added and its label 8 probes to the next position, node-801 is
    removed. *)
Definition ringWith801 : HashRing :=
  Eval vm_compute in
    default (newHashRing 150)
            (addNode (newHashRing 150) "node-801" "http://node-801:5000").

Definition ringWith801And842 : HashRing :=
  Eval vm_compute in
    default ringWith801 (addNode ringWith801 "node-842" "http://node-842:5000").

Definition probedThenFreed : HashRing := removeNode ringWith801And842 "node-801".

(** The positions of a registered broker. *)
Definition positionsOf (r : HashRing) (nodeName : string) : option (list Z) :=
  virtualPositions <$> jsmap_get nodeName (nodes r).

Lemma removeNode_names r n m :
  NoDup (getAllNodeNames r) →
  m ∈ getAllNodeNames (removeNode r n) ↔ m ∈ getAllNodeNames r ∧ m ≠ n.
Proof.
  intros Hnd. unfold removeNode, getAllNodeNames in *.
  destruct (jsmap_get n (nodes r)) as [nd|] eqn:Hn; simpl.
  - rewrite <- !jsmap_get_is_Some, jsmap_get_delete by done.
    destruct (decide (m = n)) as [->|]; [|tauto].
    split; [by intros [? ?] | tauto].
  - split; [|tauto]. intros Hm. split; [done|]. intros ->.
    by apply jsmap_get_None in Hn.
Qed.

Lemma ringWith801_added :
  addNode (newHashRing 150) "node-801" "http://node-801:5000" = Some ringWith801.
Proof. vm_compute. reflexivity. Qed.

Lemma ringWith801And842_added :
  addNode ringWith801 "node-842" "http://node-842:5000" = Some ringWith801And842.
Proof. vm_compute. reflexivity. Qed.

Lemma probedThenFreed_state : ring_state probedThenFreed.
Proof.
  apply ring_state_remove.
  apply (ring_state_add ringWith801 "node-842" "http://node-842:5000");
    [|compute_done|apply ringWith801And842_added].
  apply (ring_state_add (newHashRing 150) "node-801" "http://node-801:5000");
    [constructor|compute_done|apply ringWith801_added].
Qed.

(** C9 as stated fails: removed and added again, node-842 gets its label 8
    back at its hash, which node-801 has left, and no more at the position
    it had probed to. *)
Lemma C9_counterexample :
  ∃ r',
    ring_state probedThenFreed ∧
    addNode (removeNode probedThenFreed "node-842") "node-842" "http://node-842:5000"
      = Some r' ∧
    positionsOf probedThenFreed "node-842" ≫= (.!! 8%nat) = Some 2027215981 ∧
    positionsOf r' "node-842" ≫= (.!! 8%nat) = Some 2027215980 ∧
    positionsOf r' "node-842" ≠ positionsOf probedThenFreed "node-842".
Proof.
  eexists. split; [apply probedThenFreed_state|].
  split; [vm_compute; reflexivity|].
  split; [vm_compute; reflexivity|].
  split; [vm_compute; reflexivity|].
  intros Heq.
  assert (H8 : Some 2027215980 = Some 2027215981); [|done].
  transitivity (positionsOf probedThenFreed "node-842" ≫= (.!! 8%nat));
    [rewrite <- Heq|]; vm_compute; reflexivity.
Qed.

(** The ring map without the positions [ps]. *)
Definition ring_minus (rg : gmap Z string) (ps : list Z) : gmap Z string :=
  filter (λ kv, kv.1 ∉ ps) rg.

Lemma ring_minus_lookup (rg : gmap Z string) ps p :
  ring_minus rg ps !! p = if decide (p ∈ ps) then None else rg !! p.
Proof.
  unfold ring_minus. rewrite map_lookup_filter.
  destruct (rg !! p) as [n|]; simpl; [|by destruct (decide _)].
  destruct (decide (p ∈ ps)).
  - by rewrite option_guard_False by (simpl; tauto).
  - by rewrite option_guard_True.
Qed.

Lemma removeNode_ring r n nd :
  StronglySorted Z.lt (sortedPositions r) →
  jsmap_get n (nodes r) = Some nd →
  ring (removeNode r n) = ring_minus (ring r) (virtualPositions nd).
Proof.
  intros Hs Hn. unfold removeNode. rewrite Hn. simpl. apply map_eq. intros p.
  destruct (removeNode_loop_spec (virtualPositions nd) (ring r) (sortedPositions r) Hs)
    as (_ & _ & Hlook).
  by rewrite Hlook, ring_minus_lookup.
Qed.

(** Placing the labels of a broker on a larger ring map gives the same
    positions, as long as these are free on it. *)
Lemma place_mono n idxs (rg rg2 rg' : gmap Z string) ps :
  rg ⊆ rg2 → place n rg idxs = Some (rg', ps) →
  (∀ p, p ∈ ps → rg2 !! p = None) →
  ∃ rg2', place n rg2 idxs = Some (rg2', ps).
Proof.
  revert rg rg2 rg' ps. induction idxs as [|i idxs IH]; intros rg rg2 rg' ps Hsub; simpl.
  - intros [= <- <-] _. by eexists.
  - destruct (probe (S (size rg)) rg _) as [q|] eqn:Hq; simpl; [|done].
    destruct (place n (<[q:=n]> rg) idxs) as [[rg1 ps1]|] eqn:Hpl; simpl; [|done].
    intros [= <- <-] Hfree.
    pose proof Hq as (k & Hk & -> & Hqfree & Hocc)%probe_Some.
    set (h := hash (vnode_label n i)) in *.
    assert (Hq2 : probe (S (size rg2)) rg2 h = Some (Nat.iter k next_position h)).
    { apply probe_first_free.
      - pose proof (map_subseteq_size _ _ Hsub). lia.
      - apply Hfree. left.
      - intros j Hj. destruct (Hocc j Hj) as [x Hx]. exists x.
        by apply (lookup_weaken rg rg2). }
    rewrite Hq2. simpl.
    destruct (place_spec _ _ _ _ _ Hpl) as (_ & _ & Hfree1 & _).
    destruct (IH (<[Nat.iter k next_position h:=n]> rg)
                 (<[Nat.iter k next_position h:=n]> rg2) rg1 ps1) as [rg2' Hpl2].
    + by apply insert_mono.
    + done.
    + intros p Hp. destruct (Hfree1 p Hp) as [Hn _].
      rewrite lookup_insert_ne; [apply Hfree; by right|].
      intros <-. by rewrite lookup_insert_eq in Hn.
    + rewrite Hpl2. by eexists.
Qed.

(** Adding the broker again after its removal would find the positions it
    has. *)
Definition settled (r : HashRing) (n : string) : Prop :=
  ∀ nd, jsmap_get n (nodes r) = Some nd →
    ∃ rg', place n (ring_minus (ring r) (virtualPositions nd))
                 (seq 0 (virtualNodeCount r))
           = Some (rg', virtualPositions nd).

(** The broker [n] is registered and no broker has been removed since it
    was added. *)
Inductive registered_since (n : string) : HashRing → Prop :=
  | registered_now r u r' :
      ring_state r → n ∉ getAllNodeNames r → addNode r n u = Some r' →
      registered_since n r'
  | registered_then r m u r' :
      registered_since n r → m ∉ getAllNodeNames r → addNode r m u = Some r' →
      registered_since n r'.

Lemma registered_since_state n r : registered_since n r → ring_state r.
Proof. induction 1; by econstructor. Qed.

Lemma registered_since_name n r : registered_since n r → n ∈ getAllNodeNames r.
Proof.
  induction 1 as [r u r' Hst Hfresh Hadd|r m u r' Hsince IH Hfresh Hadd];
    rewrite (addNode_names _ _ _ _ Hadd); rewrite decide_False by done;
    apply elem_of_app; [right; left | by left].
Qed.

Lemma ring_built_registered_since r n :
  ring_built r → n ∈ getAllNodeNames r → registered_since n r.
Proof.
  induction 1 as [v|r m u r' Hbuilt IH Hfresh Hadd].
  - by intros ?%elem_of_nil.
  - rewrite (addNode_names _ _ _ _ Hadd), decide_False by done.
    intros [Hn|Hn%list_elem_of_singleton]%elem_of_app.
    + by apply (registered_then n r m u r'); [apply IH|..].
    + subst m. by apply (registered_now n r u r'); [apply ring_built_state|..].
Qed.

Lemma addNode_settled r m u r' n :
  ring_state r → m ∉ getAllNodeNames r → addNode r m u = Some r' →
  (n ≠ m → settled r n) → settled r' n.
Proof.
  intros Hst Hfresh Hadd IH.
  rewrite addNode_unfold in Hadd.
  destruct (place m (ring r) _) as [[rg' ps]|] eqn:Hpl; simpl in Hadd; [|done].
  injection Hadd as <-.
  destruct (place_spec _ _ _ _ _ Hpl) as (_ & _ & Hfree & Hlook).
  intros nd. simpl. rewrite jsmap_get_set.
  destruct (decide (n = m)) as [->|Hne].
  - intros [= <-]. simpl. exists rg'. rewrite <- Hpl. f_equal.
    apply map_eq. intros p. rewrite ring_minus_lookup, Hlook.
    destruct (decide (p ∈ ps)) as [Hp|]; [|done].
    symmetry. by apply Hfree.
  - intros Hn. destruct (IH Hne nd Hn) as [rg0 Hpl0].
    apply (place_mono n _ (ring_minus (ring r) (virtualPositions nd)) _ rg0); [|done|].
    + apply map_subseteq_spec. intros p x.
      rewrite !ring_minus_lookup, Hlook.
      destruct (decide (p ∈ virtualPositions nd)); [done|].
      intros Hp. rewrite decide_False; [done|].
      intros Hin. destruct (Hfree p Hin) as [Hnone _]. congruence.
    + intros p Hp. by rewrite ring_minus_lookup, decide_True.
Qed.

Lemma registered_since_settled n r : registered_since n r → settled r n.
Proof.
  induction 1 as [r u r' Hst Hfresh Hadd|r m u r' Hsince IH Hfresh Hadd].
  - apply (addNode_settled r n u r' n); [done..|]. by intros [].
  - apply (addNode_settled r m u r' n); [by apply (registered_since_state n)|done..|].
    by intros _.
Qed.

Lemma sorted_lt_unique (l1 l2 : list Z) :
  StronglySorted Z.lt l1 → StronglySorted Z.lt l2 →
  (∀ x, x ∈ l1 ↔ x ∈ l2) → l1 = l2.
Proof.
  intros H1 H2 Hmem. apply (StronglySorted_unique_strong Z.lt); [|done|done|].
  - intros x1 x2 _ _ ? ?. lia.
  - apply NoDup_Permutation; [by apply StronglySorted_lt_NoDup..|done].
Qed.

(** C9, as the code has it: on a ring where no broker has been removed since the
    broker [n] was added (so on every ring built by registrations alone),
    removing [n] and adding it again under the same name returns, and gives
    the broker the same virtual-node positions as before, in the same
    order; the map from positions to names and the sorted positions are the
    same as before, also where probing had moved a position. *)
Theorem C9_readd_same_positions (r : HashRing) (n u : string) :
  registered_since n r →
  ∃ r',
    addNode (removeNode r n) n u = Some r' ∧
    positionsOf r' n = positionsOf r n ∧
    ring r' = ring r ∧
    sortedPositions r' = sortedPositions r.
Proof.
  intros Hsince.
  pose proof (registered_since_state n r Hsince) as Hst.
  pose proof (ring_state_wf r Hst) as Hwf.
  pose proof (registered_since_name n r Hsince) as Hn.
  apply jsmap_get_is_Some in Hn as [nd Hnd].
  destruct (registered_since_settled n r Hsince nd Hnd) as [rg' Hpl].
  assert (Hadd : addNode (removeNode r n) n u
                 = Some (mkHashRing (virtualNodeCount r) rg'
                           (merge_sort Z.le (sortedPositions (removeNode r n)
                                             ++ virtualPositions nd))
                           (jsmap_set n (mkNodeData u (virtualPositions nd))
                                      (nodes (removeNode r n))))).
  { rewrite addNode_unfold, removeNode_virtualNodeCount.
    rewrite (removeNode_ring r n nd (wf_sorted r Hwf) Hnd), Hpl. done. }
  eexists. split; [exact Hadd|].
  assert (Hring : rg' = ring r).
  { destruct (place_spec _ _ _ _ _ Hpl) as (_ & _ & _ & Hlook).
    apply map_eq. intros p. rewrite Hlook, ring_minus_lookup.
    destruct (decide (p ∈ virtualPositions nd)) as [Hp|]; [|done].
    symmetry. by apply (wf_vps r Hwf n nd Hnd). }
  split_and!.
  - unfold positionsOf. simpl. rewrite jsmap_get_set, decide_True by done.
    by rewrite Hnd.
  - done.
  - assert (Hst' : ring_state (mkHashRing (virtualNodeCount r) rg'
                           (merge_sort Z.le (sortedPositions (removeNode r n)
                                             ++ virtualPositions nd))
                           (jsmap_set n (mkNodeData u (virtualPositions nd))
                                      (nodes (removeNode r n))))).
    { apply (ring_state_add (removeNode r n) n u); [by constructor| |done].
      rewrite removeNode_names by apply (wf_names r Hwf). tauto. }
    apply ring_state_wf in Hst'. simpl.
    apply sorted_lt_unique; [apply (wf_sorted _ Hst') | apply (wf_sorted r Hwf) |].
    intros p. rewrite (wf_dom _ Hst' p), (wf_dom r Hwf p). simpl. by rewrite Hring.
Qed.

(** node-842 on the ring where its label 8 sits one past its hash, next
    to node-801. *)
Example probed_position :
  hash (vnode_label "node-842" 8) = 2027215980 ∧
  ring ringWith801And842 !! 2027215980 = Some "node-801" ∧
  positionsOf ringWith801And842 "node-842" ≫= (.!! 8%nat) = Some 2027215981.
Proof. vm_compute. done. Qed.

Lemma C9_witness :
  ∃ r',
    addNode (removeNode ringWith801And842 "node-842") "node-842" "http://node-842:5001"
      = Some r' ∧
    positionsOf r' "node-842" = positionsOf ringWith801And842 "node-842" ∧
    ring r' = ring ringWith801And842 ∧
    sortedPositions r' = sortedPositions ringWith801And842.
Proof.
  apply (C9_readd_same_positions ringWith801And842 "node-842" "http://node-842:5001").
  apply (registered_now "node-842" ringWith801 "http://node-842:5000").
  - apply (ring_state_add (newHashRing 150) "node-801" "http://node-801:5000");
      [constructor | compute_done | apply ringWith801_added].
  - compute_done.
  - apply ringWith801And842_added.
Defined.

(** * Further properties of the ring *)

(** The positions of every registered broker are pairwise distinct. *)
Lemma ring_state_positions_NoDup r n nd :
  ring_state r → jsmap_get n (nodes r) = Some nd → NoDup (virtualPositions nd).
Proof.
  intros Hst. revert n nd.
  induction Hst as [v|r m u r' Hst IH Hfresh Hadd|r m Hst IH]; intros n nd.
  - done.
  - rewrite addNode_unfold in Hadd.
    destruct (place m (ring r) _) as [[rg' ps]|] eqn:Hpl; simpl in Hadd; [|done].
    injection Hadd as <-. simpl. rewrite jsmap_get_set.
    destruct (decide (n = m)) as [->|]; [|apply IH].
    intros [= <-]. simpl. by destruct (place_spec _ _ _ _ _ Hpl) as (_ & Hnd & _).
  - pose proof (wf_names r (ring_state_wf r Hst)) as Hnames.
    unfold removeNode. destruct (jsmap_get m (nodes r)) as [ndm|] eqn:Hm; [|apply IH].
    simpl. rewrite jsmap_get_delete by exact Hnames.
    destruct (decide (n = m)); [done | apply IH].
Qed.

Lemma ring_minus_size (rg : gmap Z string) ps :
  NoDup ps → (∀ p, p ∈ ps → is_Some (rg !! p)) →
  (size (ring_minus rg ps) + length ps = size rg)%nat.
Proof.
  induction ps as [|q ps IH]; intros Hnd Hin.
  - simpl. rewrite Nat.add_0_r. f_equal. apply map_eq. intros p.
    by rewrite ring_minus_lookup, decide_False by apply not_elem_of_nil.
  - apply NoDup_cons in Hnd as [Hq Hnd].
    assert (Hdel : ring_minus rg (q :: ps) = delete q (ring_minus rg ps)).
    { apply map_eq. intros p. rewrite ring_minus_lookup.
      destruct (decide (p = q)) as [->|Hne].
      - rewrite decide_True by left. by rewrite lookup_delete_eq.
      - rewrite lookup_delete_ne, ring_minus_lookup by done.
        destruct (decide (p ∈ ps)).
        + rewrite decide_True; [done | by right].
        + rewrite decide_False; [done|]. by apply not_elem_of_cons. }
    destruct (Hin q ltac:(left)) as [x Hx].
    rewrite Hdel. simpl.
    rewrite <- (IH Hnd) by (intros; apply Hin; by right).
    rewrite (map_size_delete_Some q (ring_minus rg ps)).
    + assert (size (ring_minus rg ps) ≠ 0%nat); [|lia].
      apply map_size_non_empty_iff. intros Hempty.
      assert (Hq' : ring_minus rg ps !! q = Some x)
        by (by rewrite ring_minus_lookup, decide_False).
      by rewrite Hempty, lookup_empty in Hq'.
    + exists x. by rewrite ring_minus_lookup, decide_False.
Qed.

(** Every broker owns [virtualNodeCount] positions: the ring has that many
    positions per registered broker. *)
Lemma ring_state_size r :
  ring_state r → size (ring r) = (virtualNodeCount r * length (nodes r))%nat.
Proof.
  induction 1 as [v|r m u r' Hst IH Hfresh Hadd|r m Hst IH].
  - simpl. rewrite map_size_empty. lia.
  - rewrite addNode_unfold in Hadd.
    destruct (place m (ring r) _) as [[rg' ps]|] eqn:Hpl; simpl in Hadd; [|done].
    injection Hadd as <-. simpl.
    rewrite (place_size _ _ _ _ _ Hpl), length_seq, IH.
    rewrite <- !jsmap_keys_length, jsmap_keys_set, decide_False by exact Hfresh.
    rewrite length_app. simpl. lia.
  - pose proof (ring_state_wf r Hst) as Hwf.
    destruct (jsmap_get m (nodes r)) as [nd|] eqn:Hm.
    + rewrite (removeNode_ring r m nd (wf_sorted r Hwf) Hm).
      rewrite removeNode_virtualNodeCount.
      destruct (wf_vps r Hwf m nd Hm) as [Hlen Hown].
      pose proof (ring_minus_size (ring r) (virtualPositions nd)
                    (ring_state_positions_NoDup r m nd Hst Hm)) as Hsize.
      rewrite Hlen, IH in Hsize.
      assert (Hnodes : length (nodes r) = S (length (nodes (removeNode r m)))).
      { unfold removeNode. rewrite Hm. simpl.
        clear -Hm. induction (nodes r) as [|[k v] l IHl]; simpl in *; [done|].
        destruct (decide (m = k)); [done|]. simpl. f_equal. by apply IHl. }
      rewrite Hnodes in Hsize.
      assert (Hall : ∀ p, p ∈ virtualPositions nd → is_Some (ring r !! p)).
      { intros p Hp. exists m. by apply Hown. }
      specialize (Hsize Hall). lia.
    + unfold removeNode. by rewrite Hm.
Qed.

Lemma sorted_positions_length r :
  ring_state r → length (sortedPositions r) = size (ring r).
Proof.
  intros Hwf%ring_state_wf. rewrite <- size_dom.
  unfold size, set_size. simpl.
  apply Permutation_length, NoDup_Permutation.
  - apply StronglySorted_lt_NoDup, (wf_sorted r Hwf).
  - apply NoDup_elements.
  - intros p. rewrite elem_of_elements, elem_of_dom. apply (wf_dom r Hwf).
Qed.



(** X2: registering a broker under a name not in use, on a ring with room
    for its positions, returns: the name comes last in the list of names,
    its URL is the one given, the URLs of the other brokers and every
    position already on the ring are as before, and the positions the
    broker gets were free. *)
Theorem X2_addNode_registers (r : HashRing) (n u : string) :
  ring_state r → n ∉ getAllNodeNames r →
  Z.of_nat (virtualNodeCount r * S (length (getAllNodeNames r))) ≤ hashSpace →
  ∃ r', addNode r n u = Some r' ∧
    getAllNodeNames r' = getAllNodeNames r ++ [n] ∧
    getNodeUrl r' n = Some u ∧
    (∀ m, m ≠ n → getNodeUrl r' m = getNodeUrl r m) ∧
    (∀ p m, ring r !! p = Some m → ring r' !! p = Some m) ∧
    (∀ p, ring r' !! p = Some n → ring r !! p = None).
Proof.
  intros Hst Hfresh Hroom. pose proof (ring_state_wf r Hst) as Hwf.
  destruct (addNode_total r n u) as [r' Hadd].
  { rewrite (ring_state_size r Hst). unfold getAllNodeNames in Hroom.
    rewrite jsmap_keys_length in Hroom. lia. }
  exists r'. split; [done|].
  split; [by rewrite (addNode_names _ _ _ _ Hadd), decide_False|].
  rewrite addNode_unfold in Hadd.
  destruct (place n (ring r) _) as [[rg' ps]|] eqn:Hpl; simpl in Hadd; [|done].
  injection Hadd as <-.
  destruct (place_spec _ _ _ _ _ Hpl) as (_ & _ & Hfree & Hlook).
  unfold getNodeUrl. simpl. split_and!.
  - by rewrite jsmap_get_set, decide_True.
  - intros m Hm. by rewrite jsmap_get_set, decide_False.
  - intros p m Hpm. rewrite Hlook. destruct (decide (p ∈ ps)) as [Hp|]; [|done].
    destruct (Hfree p Hp) as [Hnone _]. congruence.
  - intros p. rewrite Hlook. destruct (decide (p ∈ ps)) as [Hp|Hp].
    + intros _. by destruct (Hfree p Hp).
    + intros Hpn. destruct (wf_owner r Hwf p n Hpn) as (nd & Hnd & _).
      exfalso. apply Hfresh, jsmap_get_is_Some. by eexists.
Qed.

Lemma X2_witness :
  ∃ r', addNode demoRing "node-d" "http://node-d:5000" = Some r' ∧
    getAllNodeNames r' = getAllNodeNames demoRing ++ ["node-d"] ∧
    getNodeUrl r' "node-d" = Some "http://node-d:5000" ∧
    (∀ m, m ≠ "node-d" → getNodeUrl r' m = getNodeUrl demoRing m) ∧
    (∀ p m, ring demoRing !! p = Some m → ring r' !! p = Some m) ∧
    (∀ p, ring r' !! p = Some "node-d" → ring demoRing !! p = None).
Proof.
  apply (X2_addNode_registers demoRing "node-d" "http://node-d:5000").
  - apply demoRing_state.
  - vm_compute. set_solver.
  - vm_compute. done.
Defined.

(** X3: on strictly increasing positions, [_findClockwiseIndex], for any
    key position, returns the index of the least position at or above
    it, and 0 when every position is below it; the index is within the list
    whenever the list is not empty. *)
Theorem X3_findClockwiseIndex_least (r : HashRing) (keyPosition : Z) :
  StronglySorted Z.lt (sortedPositions r) →
  let idx := _findClockwiseIndex r keyPosition in
  (sortedPositions r ≠ [] → (idx < length (sortedPositions r))%nat) ∧
  (∀ p, p ∈ sortedPositions r → keyPosition ≤ p →
        ∃ q, sortedPositions r !! idx = Some q ∧ keyPosition ≤ q ≤ p) ∧
  ((∀ p, p ∈ sortedPositions r → p < keyPosition) → idx = 0%nat).
Proof.
  intros Hs idx. split_and!.
  - intros Hne. apply findClockwiseIndex_lt. destruct (sortedPositions r); [done|].
    simpl. lia.
  - intros p Hp Hle.
    destruct (findClockwiseIndex_spec r keyPosition Hs) as [(q & Hq & Hkq & Hbelow)|[_ Hall]].
    + exists q. fold idx in Hq, Hbelow. split; [done|]. split; [done|].
      apply list_elem_of_lookup_1 in Hp as [i Hi].
      destruct (decide (i < idx)%nat) as [Hlt|Hge].
      * specialize (Hbelow i p Hlt Hi). lia.
      * apply (sorted_lookup_le (sortedPositions r) idx i q p); [done | lia | done | done].
    + specialize (Hall p Hp). lia.
  - intros Hall.
    destruct (findClockwiseIndex_spec r keyPosition Hs) as [(q & Hq & Hkq & _)|[H0 _]];
      [|done].
    apply list_elem_of_lookup_2 in Hq. specialize (Hall q Hq). lia.
Qed.

Lemma X3_witness :
  let idx := _findClockwiseIndex demoRing (2 ^ 31) in
  (sortedPositions demoRing ≠ [] → (idx < length (sortedPositions demoRing))%nat) ∧
  (∀ p, p ∈ sortedPositions demoRing → 2 ^ 31 ≤ p →
        ∃ q, sortedPositions demoRing !! idx = Some q ∧ 2 ^ 31 ≤ q ≤ p) ∧
  ((∀ p, p ∈ sortedPositions demoRing → p < 2 ^ 31) → idx = 0%nat).
Proof.
  apply (X3_findClockwiseIndex_least demoRing (2 ^ 31)).
  apply (wf_sorted demoRing), ring_state_wf, demoRing_state.
Defined.

Lemma filter_all {A} (P : A → Prop) `{∀ x, Decision (P x)} (l : list A) :
  (∀ x, x ∈ l → P x) → filter P l = l.
Proof.
  induction l as [|x l IH]; intros Hall; [done|].
  rewrite filter_cons_True by (apply Hall; left).
  f_equal. apply IH. intros y Hy. apply Hall. by right.
Qed.

Lemma jsmap_delete_filter {V} (m : list (string * V)) (k : string) :
  NoDup (jsmap_keys m) →
  jsmap_keys (jsmap_delete k m) = filter (λ k', k' ≠ k) (jsmap_keys m).
Proof.
  unfold jsmap_keys. induction m as [|[k' v] m IH]; [done|].
  csimpl. intros [Hk' Hnd]%NoDup_cons.
  destruct (decide (k = k')) as [<-|Hne].
  - rewrite filter_cons_False by (intros H; by apply H).
    symmetry. apply filter_all. intros x Hx ->. done.
  - rewrite filter_cons_True by congruence. csimpl. f_equal. by apply IH.
Qed.

Lemma removeNode_lookup (r : HashRing) (n : string) (p : Z) (m : string) :
  ring_wf r →
  ring (removeNode r n) !! p = Some m ↔ ring r !! p = Some m ∧ m ≠ n.
Proof.
  intros Hwf. destruct (jsmap_get n (nodes r)) as [nd|] eqn:Hn.
  - rewrite (removeNode_ring r n nd (wf_sorted r Hwf) Hn), ring_minus_lookup.
    destruct (wf_vps r Hwf n nd Hn) as [_ Hown].
    destruct (decide (p ∈ virtualPositions nd)) as [Hp|Hp].
    + rewrite (Hown p Hp). split; [done | intros [[= <-] ?]; done].
    + split; [|tauto]. intros Hpm. split; [done|]. intros ->.
      destruct (wf_owner r Hwf p n Hpm) as (nd' & Hnd' & Hp').
      congruence.
  - unfold removeNode. rewrite Hn. split; [|tauto].
    intros Hpm. split; [done|]. intros ->.
    destruct (wf_owner r Hwf p n Hpm) as (nd' & Hnd' & _). congruence.
Qed.

(** X4: removing a broker, on a ring reached through [addNode] of names
    not in use and [removeNode]. An unknown name leaves the ring as it is;
    otherwise the name leaves the list of names (the order of the others is
    kept), has no URL any more, the ring map loses exactly the positions it
    owned, and no key is assigned to it afterwards. *)
Theorem X4_removeNode_unregisters (r : HashRing) (n : string) :
  ring_state r →
  (n ∉ getAllNodeNames r → removeNode r n = r) ∧
  getAllNodeNames (removeNode r n) = filter (λ m, m ≠ n) (getAllNodeNames r) ∧
  getNodeUrl (removeNode r n) n = None ∧
  (∀ m, m ≠ n → getNodeUrl (removeNode r n) m = getNodeUrl r m) ∧
  (∀ p m, ring (removeNode r n) !! p = Some m ↔ ring r !! p = Some m ∧ m ≠ n) ∧
  (∀ key R a, getNodesForKey (removeNode r n) key R = Returned a →
     primary a ≠ Some n ∧ Some n ∉ replicas a).
Proof.
  intros Hst. pose proof (ring_state_wf r Hst) as Hwf.
  pose proof (wf_names r Hwf) as Hnd.
  assert (Hgone : n ∉ getAllNodeNames (removeNode r n)).
  { rewrite removeNode_names by done. tauto. }
  split_and!.
  - intros Hn%jsmap_get_None. unfold removeNode. by rewrite Hn.
  - unfold removeNode, getAllNodeNames in *.
    destruct (jsmap_get n (nodes r)) as [nd|] eqn:Hn; simpl.
    + by apply jsmap_delete_filter.
    + symmetry. apply filter_all. intros x Hx ->.
      by apply jsmap_get_None in Hn.
  - unfold getNodeUrl. apply jsmap_get_None in Hgone. by rewrite Hgone.
  - intros m Hm. unfold getNodeUrl, removeNode.
    destruct (jsmap_get n (nodes r)) as [nd|] eqn:Hn; [|done]. simpl.
    by rewrite jsmap_get_delete, decide_False.
  - intros p m. by apply removeNode_lookup.
  - intros key R a Ha.
    assert (Hne : nodes (removeNode r n) ≠ []).
    { intros Hnil. unfold getNodesForKey in Ha. rewrite Hnil in Ha. done. }
    rewrite getNodesForKey_returns in Ha by done. cbv zeta in Ha.
    destruct (assigned_names (removeNode r n) (_findClockwiseIndex (removeNode r n) (hash key)) R)
      as (names & Hnames & _ & _ & _ & Hsub & _); [by apply ring_state_remove|].
    rewrite Hnames in Ha. injection Ha as <-. simpl.
    assert (Hn : n ∉ names) by (intros Hin; by apply Hgone, Hsub).
    destruct names as [|m names]; simpl.
    + split; [done | apply not_elem_of_nil].
    + apply not_elem_of_cons in Hn as [Hnm Hn]. split; [congruence|].
      intros (x & [= <-] & Hx)%list_elem_of_fmap. done.
Qed.

Lemma X4_witness :
  ("node-b" ∉ getAllNodeNames demoRing → removeNode demoRing "node-b" = demoRing) ∧
  getAllNodeNames (removeNode demoRing "node-b")
  = filter (λ m, m ≠ "node-b") (getAllNodeNames demoRing) ∧
  getNodeUrl (removeNode demoRing "node-b") "node-b" = None ∧
  (∀ m, m ≠ "node-b" →
     getNodeUrl (removeNode demoRing "node-b") m = getNodeUrl demoRing m) ∧
  (∀ p m, ring (removeNode demoRing "node-b") !! p = Some m ↔
          ring demoRing !! p = Some m ∧ m ≠ "node-b") ∧
  (∀ key R a, getNodesForKey (removeNode demoRing "node-b") key R = Returned a →
     primary a ≠ Some "node-b" ∧ Some "node-b" ∉ replicas a).
Proof. apply (X4_removeNode_unregisters demoRing "node-b"), demoRing_state. Defined.

Lemma tail_take {A} (l : list A) (k : nat) : tail (take (S k) l) = take k (tail l).
Proof. destruct l; [by destruct k | done]. Qed.

(** X5: a larger replication factor only adds replicas at the end: for
    factors [1 ≤ R ≤ R'], the primary of a key is the same and the replicas
    for [R] are the first replicas for [R']. *)
Theorem X5_replication_factor_prefix
    (r : HashRing) (key : string) (R R' : nat) (a a' : Assignment) :
  (1 ≤ R ≤ R')%nat →
  getNodesForKey r key R = Returned a →
  getNodesForKey r key R' = Returned a' →
  keyHash a = keyHash a' ∧ primary a = primary a' ∧
  replicas a = take (R - 1) (replicas a').
Proof.
  intros [H1 HR] Ha Ha'.
  assert (Hne : nodes r ≠ []).
  { intros Hnil. unfold getNodesForKey in Ha. rewrite Hnil in Ha. done. }
  rewrite getNodesForKey_returns in Ha, Ha' by done. cbv zeta in Ha, Ha'.
  set (l := first_occurrences _) in *.
  injection Ha as <-. injection Ha' as <-. simpl.
  destruct R as [|R]; [lia|]. destruct R' as [|R']; [lia|].
  split; [done|]. split; [by destruct l|].
  rewrite !tail_take, take_take. f_equal. lia.
Qed.

Lemma X5_witness :
  keyHash (mkAssignment (Some "node-a") [Some "node-b"] 184036158)
  = keyHash (mkAssignment (Some "node-a") [Some "node-b"; Some "node-c"] 184036158) ∧
  primary (mkAssignment (Some "node-a") [Some "node-b"] 184036158)
  = primary (mkAssignment (Some "node-a") [Some "node-b"; Some "node-c"] 184036158) ∧
  replicas (mkAssignment (Some "node-a") [Some "node-b"] 184036158)
  = take (2 - 1)
      (replicas (mkAssignment (Some "node-a") [Some "node-b"; Some "node-c"] 184036158)).
Proof.
  apply (X5_replication_factor_prefix demoRing "order_1" 2 3).
  - lia.
  - vm_compute. reflexivity.
  - vm_compute. reflexivity.
Defined.

(** X6: on a ring reached through [addNode] of names not in use and
    [removeNode], with a broker or more and a virtual node or more per
    broker, a string key gets exactly [min R N] brokers, [N] being the
    number of registered brokers: for [R ≥ 1] a primary, which has a URL,
    and [min R N - 1] replicas. *)
Theorem X6_getNodesForKey_count (r : HashRing) (key : string) (R : nat) :
  ring_state r → (0 < virtualNodeCount r)%nat → getAllNodeNames r ≠ [] → (1 ≤ R)%nat →
  ∃ p reps,
    getNodesForKey r key R = Returned (mkAssignment (Some p) reps (hash key)) ∧
    is_Some (getNodeUrl r p) ∧
    length reps = (R `min` length (getAllNodeNames r) - 1)%nat.
Proof.
  intros Hst Hv Hne HR.
  assert (Hnodes : nodes r ≠ []).
  { intros Hn. apply Hne. unfold getAllNodeNames. by rewrite Hn. }
  rewrite getNodesForKey_returns by done. cbv zeta.
  set (startIndex := _findClockwiseIndex r (hash key)).
  set (N := length (getAllNodeNames r)).
  destruct (assigned_names r startIndex N Hst)
    as (all & Hall & Hnd & _ & HlenN & Hsub & Hcomplete).
  specialize (Hcomplete Hv (Nat.le_refl _)).
  assert (Hlen : length all = N).
  { apply Nat.le_antisymm; [done|]. apply submseteq_length, NoDup_submseteq.
    - apply (wf_names r (ring_state_wf r Hst)).
    - exact Hcomplete. }
  destruct (assigned_names r startIndex R Hst)
    as (names & Hnames & _ & _ & _ & HsubR & _).
  set (l := first_occurrences (owners_from r startIndex)) in *.
  assert (Hl : length l = N).
  { apply Nat.le_antisymm.
    - destruct (assigned_names r startIndex (length l) Hst)
        as (whole & Hwhole & _ & _ & HlenW & _).
      fold l in Hwhole. rewrite take_ge in Hwhole by done.
      by rewrite Hwhole, length_fmap.
    - assert (Hlen' : length (take N l) = N) by (by rewrite Hall, length_fmap).
      rewrite length_take in Hlen'. lia. }
  assert (HlenR : length names = (R `min` N)%nat).
  { by rewrite <- (length_fmap Some names), <- Hnames, length_take, Hl. }
  rewrite Hnames.
  assert (0 < N)%nat by (unfold N; destruct (getAllNodeNames r); [done | simpl; lia]).
  destruct names as [|p names]; [simpl in HlenR; lia|].
  exists p, (Some <$> names). split; [done|]. split.
  - unfold getNodeUrl.
    destruct (proj2 (jsmap_get_is_Some (nodes r) p)) as [nd Hnd'];
      [apply HsubR; left|]. rewrite Hnd'. by eexists.
  - rewrite length_fmap. simpl in HlenR. lia.
Qed.

Lemma X6_witness :
  ∃ p reps,
    getNodesForKey demoRing "order_1" 2
    = Returned (mkAssignment (Some p) reps (hash "order_1")) ∧
    is_Some (getNodeUrl demoRing p) ∧
    length reps = (2 `min` length (getAllNodeNames demoRing) - 1)%nat.
Proof.
  apply (X6_getNodesForKey_count demoRing "order_1" 2).
  - apply demoRing_state.
  - vm_compute. lia.
  - done.
  - lia.
Defined.

(** X7: registering a name that is already registered adds
    [virtualNodeCount] further positions under that name and replaces its
    URL and its list of positions; the positions of the first registration
    stay on the ring, and [removeNode] then leaves them there, owned by a
    name that has no URL any more. *)
Theorem X7_addNode_twice (r : HashRing) (n u : string) (nd : NodeData) :
  ring_state r → jsmap_get n (nodes r) = Some nd →
  Z.of_nat (virtualNodeCount r * S (length (getAllNodeNames r))) ≤ hashSpace →
  ∃ r', addNode r n u = Some r' ∧
    getAllNodeNames r' = getAllNodeNames r ∧
    getNodeUrl r' n = Some u ∧
    length (sortedPositions r') = (length (sortedPositions r) + virtualNodeCount r)%nat ∧
    (∀ p, p ∈ virtualPositions nd →
       ring r' !! p = Some n ∧
       ring (removeNode r' n) !! p = Some n ∧
       p ∈ sortedPositions (removeNode r' n)) ∧
    getNodeUrl (removeNode r' n) n = None.
Proof.
  intros Hst Hn Hroom. pose proof (ring_state_wf r Hst) as Hwf.
  destruct (addNode_total r n u) as [r' Hadd].
  { rewrite (ring_state_size r Hst). unfold getAllNodeNames in Hroom.
    rewrite jsmap_keys_length in Hroom. lia. }
  exists r'. split; [done|].
  assert (Hin : n ∈ getAllNodeNames r) by (apply jsmap_get_is_Some; by eexists).
  split; [by rewrite (addNode_names _ _ _ _ Hadd), decide_True|].
  rewrite addNode_unfold in Hadd.
  destruct (place n (ring r) _) as [[rg' ps]|] eqn:Hpl; simpl in Hadd; [|done].
  injection Hadd as <-.
  destruct (place_spec _ _ _ _ _ Hpl) as (Hlen & Hnd & Hfree & Hlook).
  rewrite length_seq in Hlen.
  assert (Hperm : merge_sort Z.le (sortedPositions r ++ ps) ≡ₚ sortedPositions r ++ ps)
    by apply merge_sort_Permutation.
  assert (Hsorted : StronglySorted Z.lt (merge_sort Z.le (sortedPositions r ++ ps))).
  { apply sorted_le_NoDup_lt; [apply StronglySorted_merge_sort; apply _|].
    rewrite Hperm. apply NoDup_app.
    split_and!; [apply StronglySorted_lt_NoDup, (wf_sorted r Hwf) | | done].
    intros p Hp%(wf_dom r Hwf) Hp'. destruct (Hfree p Hp') as [Hnone _].
    rewrite Hnone in Hp. by destruct Hp. }
  assert (Hnames : NoDup (jsmap_keys (jsmap_set n (mkNodeData u ps) (nodes r))))
    by apply jsmap_set_NoDup, (wf_names r Hwf).
  unfold getNodeUrl, removeNode. simpl.
  rewrite jsmap_get_set, decide_True by done. simpl.
  destruct (removeNode_loop_spec ps rg' (merge_sort Z.le (sortedPositions r ++ ps)) Hsorted)
    as (_ & Hmem & Hlook').
  split_and!.
  - done.
  - by rewrite Hperm, length_app, Hlen.
  - intros p Hp. destruct (wf_vps r Hwf n nd Hn) as [_ Hown].
    specialize (Hown p Hp).
    assert (Hps : p ∉ ps).
    { intros Hp'. destruct (Hfree p Hp') as [Hnone _]. congruence. }
    split_and!.
    + by rewrite Hlook, decide_False.
    + by rewrite Hlook', decide_False, Hlook, decide_False.
    + apply Hmem. split; [|done]. rewrite Hperm. apply elem_of_app. left.
      apply (wf_dom r Hwf). by eexists.
  - rewrite jsmap_get_delete, decide_True by done. done.
Qed.

Lemma X7_witness :
  ∃ r', addNode demoRing "node-b" "http://other:5000" = Some r' ∧
    getAllNodeNames r' = getAllNodeNames demoRing ∧
    getNodeUrl r' "node-b" = Some "http://other:5000" ∧
    length (sortedPositions r')
    = (length (sortedPositions demoRing) + virtualNodeCount demoRing)%nat ∧
    (∀ p, p ∈ virtualPositions
                (mkNodeData "http://node-b:5000"
                            (default [] (positionsOf demoRing "node-b"))) →
       ring r' !! p = Some "node-b" ∧
       ring (removeNode r' "node-b") !! p = Some "node-b" ∧
       p ∈ sortedPositions (removeNode r' "node-b")) ∧
    getNodeUrl (removeNode r' "node-b") "node-b" = None.
Proof.
  apply (X7_addNode_twice demoRing "node-b" "http://other:5000").
  - apply demoRing_state.
  - vm_compute. reflexivity.
  - vm_compute. done.
Defined.

(** * Further properties of the health monitor *)






(** The callback an event on a broker's record fires. *)
Definition eventCallback (T : nat) (n : string) (health : Health) (e : HealthEvent)
    : option Callback :=
  match e with
  | Probed tcheck tdone responded => (checkNode T n tcheck tdone responded health).2
  | MarkedFailedOver => None
  end.

Lemma eventCallback_failure T n health e :
  eventCallback T n health e = Some (OnFailure n) →
  status health = HEALTHY ∧ status (healthStep T n health e) = FAILED.
Proof.
  destruct e as [tcheck tdone responded|]; simpl; [|done].
  unfold checkNode. destruct responded.
  - by destruct (status health).
  - destruct (decide _) as [[_ Hh]|]; simpl; [|done]. done.
Qed.

Lemma down_until_recovery T n health e :
  status health = FAILED ∨ status health = FAILED_OVER →
  eventCallback T n health e = Some (OnRecovery n) ∨
  (status (healthStep T n health e) = FAILED ∨
   status (healthStep T n health e) = FAILED_OVER).
Proof.
  intros Hs. destruct e as [tcheck tdone responded|]; simpl.
  - unfold checkNode. destruct responded.
    + left. by destruct Hs as [-> | ->].
    + right. destruct (decide _) as [[_ Hh]|]; simpl; [by left | done].
  - right. by right.
Qed.

(** X9: [onFailure] fires at most once per outage. Between two events of
    a broker's history that fire [onFailure] for it there is an event that
    fires [onRecovery]: a broker declared FAILED is not declared FAILED
    again before a probe of it has succeeded. *)
Theorem X9_onFailure_once_per_outage
    (T : nat) (n : string) (es1 es2 : list HealthEvent) (e1 e2 : HealthEvent) :
  eventCallback T n (healthAfter T n es1) e1 = Some (OnFailure n) →
  eventCallback T n (healthAfter T n (es1 ++ e1 :: es2)) e2 = Some (OnFailure n) →
  ∃ before e after,
    es2 = before ++ e :: after ∧
    eventCallback T n (healthAfter T n (es1 ++ e1 :: before)) e = Some (OnRecovery n).
Proof.
  intros [_ Hfailed]%eventCallback_failure [Hhealthy _]%eventCallback_failure.
  rewrite <- healthAfter_snoc in Hfailed.
  change (es1 ++ [e1]) with (es1 ++ e1 :: []) in Hfailed.
  assert (Hgen : ∀ es2,
    (status (healthAfter T n (es1 ++ e1 :: es2)) = FAILED ∨
     status (healthAfter T n (es1 ++ e1 :: es2)) = FAILED_OVER) ∨
    ∃ before e after,
      es2 = before ++ e :: after ∧
      eventCallback T n (healthAfter T n (es1 ++ e1 :: before)) e = Some (OnRecovery n)).
  { clear es2 Hhealthy. induction es2 as [|e es2 IH] using rev_ind.
    - left. left. exact Hfailed.
    - destruct IH as [Hdown|(before & e' & after & -> & Hrec)].
      + destruct (down_until_recovery T n _ e Hdown) as [Hrec|Hdown'].
        * right. by exists es2, e, [].
        * left. replace (es1 ++ e1 :: es2 ++ [e]) with ((es1 ++ e1 :: es2) ++ [e])
            by (by rewrite <- app_assoc). by rewrite healthAfter_snoc.
      + right. exists before, e', (after ++ [e]). split; [|done].
        by rewrite <- app_assoc. }
  destruct (Hgen es2) as [[Hs|Hs]|Hrec]; [congruence | congruence | done].
Qed.

Lemma X9_witness :
  ∃ before e after,
    [Probed "t3" "t4" true; Probed "t5" "t6" true] = before ++ e :: after ∧
    eventCallback 1 "node-a"
      (healthAfter 1 "node-a" ([] ++ Probed "t1" "t2" false :: before)) e
    = Some (OnRecovery "node-a").
Proof.
  apply (X9_onFailure_once_per_outage 1 "node-a" []
           [Probed "t3" "t4" true; Probed "t5" "t6" true]
           (Probed "t1" "t2" false) (Probed "t7" "t8" false)).
  - reflexivity.
  - reflexivity.
Defined.

(** * Further properties of the coordinator *)

(** ** The choice of the broker to promote *)

(** The candidates of [onFailure], as the loop reads them. *)
Definition candidateAt (allNodes : list string) (failedIndex : Z) (i : nat) : jsname :=
  allNodes !! Z.to_nat ((failedIndex + Z.of_nat i) `rem` Z.of_nat (length allNodes)).

(** The GET of a broker's [/health] resolves. *)
Definition answersHealth (r : HashRing) (net : Network) (n : string) : Prop :=
  get_ok net (template (getNodeUrl r n) +:+ "/health") = true.

Global Instance answersHealth_dec r net n : Decision (answersHealth r net n).
Proof. unfold answersHealth. apply _. Defined.

Lemma indexOf_app_fresh (x : string) (before after : list string) :
  x ∉ before → indexOf x (before ++ x :: after) = Z.of_nat (length before).
Proof.
  induction before as [|y before IH]; intros Hx; simpl.
  - by rewrite decide_True.
  - apply not_elem_of_cons in Hx as [Hxy Hx].
    rewrite decide_False by congruence. rewrite IH by done.
    rewrite decide_False by lia. lia.
Qed.

Lemma candidates_cyclic (before after : list string) (f : string) :
  candidateAt (before ++ f :: after) (Z.of_nat (length before))
    <$> seq 1 (length (before ++ f :: after) - 1)
  = Some <$> (after ++ before).
Proof.
  apply list_eq. intros j. rewrite !list_lookup_fmap.
  rewrite length_app. simpl.
  replace (length before + S (length after) - 1)%nat
    with (length after + length before)%nat by lia.
  destruct (decide (j < length after + length before)%nat) as [Hj|Hj].
  - rewrite lookup_seq_lt by done. simpl. unfold candidateAt.
    rewrite length_app. simpl.
    rewrite Z.rem_mod_nonneg by lia.
    destruct (decide (j < length after)%nat) as [Ha|Ha].
    + rewrite Z.mod_small by lia.
      replace (Z.to_nat (Z.of_nat (length before) + Z.of_nat (S j)))
        with (length before + S j)%nat by lia.
      rewrite lookup_app_r by lia.
      replace (length before + S j - length before)%nat with (S j) by lia.
      simpl. rewrite lookup_app_l by done.
      by destruct (lookup_lt_is_Some_2 after j Ha) as [x ->].
    + replace ((Z.of_nat (length before) + Z.of_nat (S j))
                 `mod` Z.of_nat (length before + S (length after)))
        with (Z.of_nat (j - length after)).
      2:{ apply (Z.mod_unique_pos _ _ 1); lia. }
      rewrite Nat2Z.id. rewrite lookup_app_l by lia.
      rewrite lookup_app_r by lia.
      by destruct (lookup_lt_is_Some_2 before (j - length after)%nat ltac:(lia)) as [x ->].
  - rewrite lookup_seq_ge by lia. simpl.
    rewrite lookup_ge_None_2; [done|]. rewrite length_app. lia.
Qed.

Lemma findCandidate_first r net (allNodes : list string) failedIndex idxs
    (cands : list string) :
  candidateAt allNodes failedIndex <$> idxs = Some <$> cands →
  (findCandidate r net allNodes failedIndex idxs).1
  = head (filter (answersHealth r net) cands).
Proof.
  revert cands. induction idxs as [|i idxs IH]; intros [|c cands]; csimpl; try done.
  intros [= Hc Hrest]. fold (candidateAt allNodes failedIndex i). rewrite Hc. simpl.
  destruct (get_ok net _) eqn:Hok.
  - by rewrite filter_cons_True.
  - rewrite filter_cons_False by (unfold answersHealth; congruence).
    simpl. by apply IH.
Qed.

(** X10: the broker [onFailure] promotes is the first one after the failed
    broker, in the order of registration and wrapping around to the brokers
    registered before it, whose [/health] answers at that time. It becomes
    the override of the failed broker, the failed broker is marked
    FAILED_OVER and one event is recorded; when no other broker answers, the
    coordinator is left as it was. *)
Theorem X10_onFailure_promotes_next_responsive
    (r : HashRing) (net : Network) (now failedNode : string) (c : Coordinator)
    (before after : list string) :
  NoDup (getAllNodeNames r) → "" ∉ getAllNodeNames r →
  getAllNodeNames r = before ++ failedNode :: after →
  (onFailure r net now failedNode c).1 =
    match head (filter (answersHealth r net) (after ++ before)) with
    | Some promotedNode =>
        mkCoordinator (markFailedOver failedNode (nodeHealth c))
                      (<[failedNode := promotedNode]> (promotedNodes c))
                      (failoverEvents c ++ [mkFailoverEvent failedNode promotedNode now])
    | None => c
    end.
Proof.
  intros Hnd Hempty Hnames. unfold onFailure. rewrite Hnames.
  rewrite Hnames in Hnd, Hempty.
  apply NoDup_app in Hnd as (_ & Hfresh & _).
  rewrite indexOf_app_fresh by (intros Hin; apply (Hfresh _ Hin); left).
  rewrite (findCandidate_first r net _ _ _ (after ++ before))
    by apply candidates_cyclic.
  destruct (head _) as [p|] eqn:Hp; [|done].
  rewrite decide_False; [done|]. intros ->.
  apply head_Some_elem_of in Hp. apply list_elem_of_filter in Hp as [_ Hp].
  apply Hempty. rewrite elem_of_app, elem_of_cons.
  apply elem_of_app in Hp as [Hp|Hp]; tauto.
Qed.

Lemma X10_witness :
  (onFailure demoRing (aliveNetwork demoRing ["node-a"; "node-b"] true) "t7" "node-c"
             (coord (initWorld demoRing))).1 =
    match head (filter (answersHealth demoRing
                          (aliveNetwork demoRing ["node-a"; "node-b"] true))
                       ([] ++ ["node-a"; "node-b"])) with
    | Some promotedNode =>
        mkCoordinator (markFailedOver "node-c" (nodeHealth (coord (initWorld demoRing))))
                      (<[ "node-c" := promotedNode]>
                         (promotedNodes (coord (initWorld demoRing))))
                      (failoverEvents (coord (initWorld demoRing))
                         ++ [mkFailoverEvent "node-c" promotedNode "t7"])
    | None => coord (initWorld demoRing)
    end.
Proof.
  apply (X10_onFailure_promotes_next_responsive demoRing
           (aliveNetwork demoRing ["node-a"; "node-b"] true) "t7" "node-c"
           (coord (initWorld demoRing)) ["node-a"; "node-b"] []).
  - vm_compute. repeat constructor; set_solver.
  - vm_compute. set_solver.
  - vm_compute. reflexivity.
Defined.

(** ** The failover state *)

(** The broker promoted by the last failover of [failedNode]. *)
Definition lastPromotion (failedNode : string) (evs : list FailoverEvent) : option string :=
  ev_promotedNode <$> last (filter (λ e, ev_failedNode e = failedNode) evs).

Lemma lastPromotion_snoc f evs e :
  lastPromotion f (evs ++ [e]) =
    if decide (ev_failedNode e = f) then Some (ev_promotedNode e) else lastPromotion f evs.
Proof.
  unfold lastPromotion. rewrite filter_app, filter_cons, filter_nil.
  destruct (decide (ev_failedNode e = f)) as [He|He].
  - by rewrite last_snoc.
  - by rewrite app_nil_r.
Qed.

(** What every state of the coordinator satisfies. *)
Record coordinator_inv (r : HashRing) (w : World) : Prop := mk_coordinator_inv {
  inv_keys : jsmap_keys (nodeHealth (coord w)) = getAllNodeNames r;
  inv_inflight : ∀ f, f ∈ inflight w → f ∈ getAllNodeNames r;
  inv_promoted : ∀ f,
    promotedNodes (coord w) !! f = lastPromotion f (failoverEvents (coord w));
  inv_events : ∀ e, e ∈ failoverEvents (coord w) →
    ev_failedNode e ∈ getAllNodeNames r ∧ ev_promotedNode e ∈ getAllNodeNames r ∧
    ev_promotedNode e ≠ ev_failedNode e ∧ ev_promotedNode e ≠ ""
}.

Lemma initHealth_keys r :
  NoDup (getAllNodeNames r) → jsmap_keys (initHealth r) = getAllNodeNames r.
Proof.
  unfold initHealth.
  assert (Hgen : ∀ names (acc : list (string * Health)),
            NoDup (jsmap_keys acc ++ names) →
            jsmap_keys (foldl (λ acc nodeName, jsmap_set nodeName initialHealth acc)
                              acc names) = jsmap_keys acc ++ names).
  { induction names as [|m names IH]; intros acc Hnd; simpl.
    - by rewrite app_nil_r.
    - rewrite IH.
      + rewrite jsmap_keys_set, decide_False; [by rewrite <- app_assoc|].
        apply NoDup_app in Hnd as (_ & Hfresh & _). intros Hin.
        apply (Hfresh _ Hin). left.
      + rewrite jsmap_keys_set, decide_False.
        * by rewrite <- app_assoc.
        * apply NoDup_app in Hnd as (_ & Hfresh & _). intros Hin.
          apply (Hfresh _ Hin). left. }
  intros Hnd. by rewrite Hgen.
Qed.

Lemma markFailedOver_keys f (nh : list (string * Health)) :
  jsmap_keys (markFailedOver f nh) = jsmap_keys nh.
Proof.
  unfold markFailedOver. destruct (jsmap_get f nh) as [h|] eqn:Hf; [|done].
  rewrite jsmap_keys_set, decide_True; [done|]. apply jsmap_get_is_Some. by eexists.
Qed.

Lemma checkNode_callback_name T n tcheck tdone responded health m :
  m ∈ failures (callbacks (checkNode T n tcheck tdone responded health).2) → m = n.
Proof.
  unfold checkNode. destruct responded.
  - destruct (status health); simpl; by intros ?%elem_of_nil.
  - destruct (decide _); simpl; [|by intros ?%elem_of_nil].
    by intros ?%list_elem_of_singleton.
Qed.

Lemma init_coordinator_inv r :
  NoDup (getAllNodeNames r) → coordinator_inv r (initWorld r).
Proof.
  intros Hnd. split; simpl.
  - by apply initHealth_keys.
  - by intros f ?%elem_of_nil.
  - intros f. by rewrite lookup_empty.
  - by intros e ?%elem_of_nil.
Qed.

Lemma step_coordinator_inv r T w w' :
  NoDup (getAllNodeNames r) →
  step r T w w' → coordinator_inv r w → coordinator_inv r w'.
Proof.
  intros Hnd Hstep [Hkeys Hinfl Hprom Hev].
  destruct Hstep as [w nodeName health tcheck tdone responded Hh Hu|
                     w failedNode net now before after Hin].
  - assert (Hn : nodeName ∈ getAllNodeNames r).
    { rewrite <- Hkeys. apply jsmap_get_is_Some. by eexists. }
    split; simpl; [|  |done|done].
    + rewrite jsmap_keys_set, decide_True; [done|]. by rewrite Hkeys.
    + intros f [Hf|Hf]%elem_of_app; [by apply Hinfl|].
      by rewrite (checkNode_callback_name _ _ _ _ _ _ _ Hf).
  - assert (Hf : failedNode ∈ getAllNodeNames r).
    { apply Hinfl. rewrite Hin, elem_of_app, elem_of_cons. tauto. }
    assert (Hinfl' : ∀ f, f ∈ before ++ after → f ∈ getAllNodeNames r).
    { intros f Hfin. apply Hinfl. rewrite Hin.
      rewrite elem_of_app, elem_of_cons. apply elem_of_app in Hfin. tauto. }
    destruct (onFailure_cases r net now failedNode (coord w) Hnd)
      as [Hsame|(p & Hp & Hpf & Hpe & Hnew)].
    + split; simpl; rewrite ?Hsame; done.
    + split; simpl; rewrite ?Hnew; simpl.
      * by rewrite markFailedOver_keys.
      * done.
      * intros f. rewrite lastPromotion_snoc. simpl.
        destruct (decide (failedNode = f)) as [->|Hne].
        -- by rewrite lookup_insert_eq.
        -- by rewrite lookup_insert_ne.
      * intros e [He|He%list_elem_of_singleton]%elem_of_app; [by apply Hev|].
        by subst e.
Qed.

Lemma reachable_coordinator_inv r T w :
  NoDup (getAllNodeNames r) → reachable r T w → coordinator_inv r w.
Proof.
  intros Hnd. revert w. unfold reachable. apply rtc_ind_r.
  - by apply init_coordinator_inv.
  - intros w1 w2 _ Hstep IH. by apply (step_coordinator_inv r T w1 w2).
Qed.

(** X11: in every state the coordinator reaches, the monitored brokers are
    the brokers of the ring, in the same order; the override of a broker is
    the broker promoted by the last failover event recorded for it, and a
    broker with no event has no override; every event names two different
    registered brokers; and [/route] and [/consume] report a failover as
    active exactly when [/failover/status] counts one failover or more. *)
Theorem X11_failover_state_consistent (r : HashRing) (T : nat) (w : World) :
  ring_state r → reachable r T w →
  jsmap_keys (nodeHealth (coord w)) = getAllNodeNames r ∧
  (∀ f, activePromotions (failoverStatus (coord w)) !! f
        = lastPromotion f (events (failoverStatus (coord w)))) ∧
  (∀ e, e ∈ events (failoverStatus (coord w)) →
     ev_failedNode e ∈ getAllNodeNames r ∧ ev_promotedNode e ∈ getAllNodeNames r ∧
     ev_promotedNode e ≠ ev_failedNode e ∧ ev_promotedNode e ≠ "") ∧
  (failoverActive (coord w) = true ↔ (0 < totalFailovers (failoverStatus (coord w)))%nat).
Proof.
  intros Hst Hreach.
  destruct (reachable_coordinator_inv r T w (wf_names r (ring_state_wf r Hst)) Hreach)
    as [Hkeys _ Hprom Hev].
  split_and!; [done | done | done |]. unfold failoverActive. simpl.
  rewrite bool_decide_eq_true.
  destruct (failoverEvents (coord w)) as [|e evs _] eqn:Hevs using rev_ind.
  - assert (Hempty : promotedNodes (coord w) = ∅).
    { apply map_eq. intros f. by rewrite Hprom, lookup_empty. }
    rewrite Hempty, map_size_empty. simpl. lia.
  - rewrite length_app. simpl. split; [lia|]. intros _.
    assert (Hne : promotedNodes (coord w) ≠ ∅).
    { intros Hempty. specialize (Hprom (ev_failedNode e)).
      rewrite lastPromotion_snoc, decide_True, Hempty, lookup_empty in Hprom by done.
      done. }
    apply map_size_non_empty_iff in Hne. lia.
Qed.

Lemma X11_witness :
  jsmap_keys (nodeHealth (coord nodeA_failedOver_world)) = getAllNodeNames demoRing ∧
  (∀ f, activePromotions (failoverStatus (coord nodeA_failedOver_world)) !! f
        = lastPromotion f (events (failoverStatus (coord nodeA_failedOver_world)))) ∧
  (∀ e, e ∈ events (failoverStatus (coord nodeA_failedOver_world)) →
     ev_failedNode e ∈ getAllNodeNames demoRing ∧
     ev_promotedNode e ∈ getAllNodeNames demoRing ∧
     ev_promotedNode e ≠ ev_failedNode e ∧ ev_promotedNode e ≠ "") ∧
  (failoverActive (coord nodeA_failedOver_world) = true ↔
   (0 < totalFailovers (failoverStatus (coord nodeA_failedOver_world)))%nat).
Proof.
  apply (X11_failover_state_consistent demoRing 3 nodeA_failedOver_world).
  - apply demoRing_state.
  - apply (run_reachable demoRing 3
             (threeFailures "node-a"
                ++ [AFailover "node-a"
                      (aliveNetwork demoRing ["node-b"; "node-c"] true) "t7"])).
    vm_compute. reflexivity.
Defined.

Lemma step_failover_grows r T w w' :
  NoDup (getAllNodeNames r) → step r T w w' →
  failoverEvents (coord w) `prefix_of` failoverEvents (coord w') ∧
  ∀ f, is_Some (promotedNodes (coord w) !! f) → is_Some (promotedNodes (coord w') !! f).
Proof.
  intros Hnd Hstep.
  destruct Hstep as [w nodeName health tcheck tdone responded Hh Hu|
                     w failedNode net now before after Hin]; simpl.
  - done.
  - destruct (onFailure_cases r net now failedNode (coord w) Hnd)
      as [->|(p & _ & _ & _ & ->)]; [done|]. simpl. split.
    + by apply prefix_app_r.
    + intros f Hf. destruct (decide (f = failedNode)) as [->|Hne].
      * rewrite lookup_insert_eq. by eexists.
      * by rewrite lookup_insert_ne.
Qed.

(** X12: a failover is never undone. From a state the coordinator has
    reached, whatever probes succeed or fail afterwards, the failover events
    recorded stay a prefix of the later list, and a key whose ring primary
    has an override is still produced to another registered broker than
    that primary, also after the primary has recovered. *)
Theorem X12_failover_is_permanent
    (r : HashRing) (T : nat) (w w' : World) (key : string) (R : nat)
    (a : Assignment) (f : string) :
  ring_state r → reachable r T w → rtc (step r T) w w' →
  getNodesForKey r key R = Returned a → primary a = Some f →
  is_Some (promotedNodes (coord w) !! f) →
  failoverEvents (coord w) `prefix_of` failoverEvents (coord w') ∧
  ∃ rt p,
    produceRouting r (coord w') key R = Returned rt ∧
    rt_primary rt = Some p ∧ p ≠ f ∧ is_Some (getNodeUrl r p).
Proof.
  intros Hst Hreach Hlater Ha Hprim Hover.
  pose proof (wf_names r (ring_state_wf r Hst)) as Hnd.
  assert (Hgrow : failoverEvents (coord w) `prefix_of` failoverEvents (coord w') ∧
                  is_Some (promotedNodes (coord w') !! f)).
  { clear Hreach. induction Hlater as [w|w w1 w' Hstep Hlater IH]; [done|].
    destruct (step_failover_grows r T w w1 Hnd Hstep) as [Hpre Hdom].
    destruct (IH (Hdom f Hover)) as [Hpre' Hover']. split; [|done].
    by etrans. }
  destruct Hgrow as [Hpre [p Hp]]. split; [done|].
  assert (Hreach' : reachable r T w') by (unfold reachable in *; by etrans).
  destruct (reachable_coordinator_inv r T w' Hnd Hreach') as [_ _ Hprom Hev].
  assert (Hp' : p ∈ getAllNodeNames r ∧ p ≠ f ∧ p ≠ "").
  { rewrite Hprom in Hp. unfold lastPromotion in Hp.
    destruct (last _) as [e|] eqn:Hlast; [|done]. injection Hp as <-.
    apply last_Some_elem_of, list_elem_of_filter in Hlast as [<- He].
    destruct (Hev e He) as (_ & Hpin & Hpne & Hpe). done. }
  destruct Hp' as (Hpin & Hpf & Hpe).
  unfold produceRouting. rewrite Ha, Hprim. eexists _, p.
  split; [done|]. simpl. rewrite Hp, decide_False by done.
  split_and!; [done | done |].
  unfold getNodeUrl. apply jsmap_get_is_Some in Hpin as [nd ->]. by eexists.
Qed.


(** node-a answers again, twice, after node-b was promoted in its place. *)
Definition nodeA_recovers : list Action :=
  [ACheck "node-a" "t8" "t9" true; ACheck "node-a" "t10" "t11" true].

Definition nodeA_recovered : World :=
  Eval vm_compute in
    default (initWorld demoRing) (run demoRing 3 nodeA_recovers nodeA_failedOver_world).

Example nodeA_recovered_healthy :
  status <$> jsmap_get "node-a" (nodeHealth (coord nodeA_recovered)) = Some HEALTHY ∧
  promotedNodes (coord nodeA_recovered) !! "node-a" = Some "node-b".
Proof. split; vm_compute; reflexivity. Qed.

Lemma X12_witness :
  failoverEvents (coord nodeA_failedOver_world)
    `prefix_of` failoverEvents (coord nodeA_recovered) ∧
  ∃ rt p,
    produceRouting demoRing (coord nodeA_recovered) "order_1" 3 = Returned rt ∧
    rt_primary rt = Some p ∧ p ≠ "node-a" ∧ is_Some (getNodeUrl demoRing p).
Proof.
  apply (X12_failover_is_permanent demoRing 3 nodeA_failedOver_world nodeA_recovered
           "order_1" 3
           (mkAssignment (Some "node-a") [Some "node-b"; Some "node-c"] 184036158)
           "node-a").
  - apply demoRing_state.
  - apply (run_reachable demoRing 3
             (threeFailures "node-a"
                ++ [AFailover "node-a"
                      (aliveNetwork demoRing ["node-b"; "node-c"] true) "t7"])).
    vm_compute. reflexivity.
  - apply (run_rtc demoRing 3 nodeA_recovers). vm_compute. reflexivity.
  - vm_compute. reflexivity.
  - reflexivity.
  - vm_compute. by eexists.
Defined.

(** ** Routing *)

Lemma resolveEffectivePrimary_empty (c : Coordinator) (n : jsname) :
  promotedNodes c = ∅ → resolveEffectivePrimary c n = n.
Proof.
  intros Hempty. destruct n as [n|]; simpl; [|done].
  by rewrite Hempty, lookup_empty.
Qed.

Lemma resolveEffectivePrimary_fmap_empty (c : Coordinator) (l : list jsname) :
  promotedNodes c = ∅ → resolveEffectivePrimary c <$> l = l.
Proof.
  intros Hempty. induction l as [|x l IH]; [done|]. csimpl.
  by rewrite resolveEffectivePrimary_empty, IH.
Qed.

(** The URLs [/produce] keeps: [replicas.map(n => ring.getNodeUrl(n)).filter(Boolean)]. *)
Definition truthyUrls (r : HashRing) (replicas : list jsname) : list string :=
  omap (λ n, let u := nodeUrl r n in if truthy u then u else None) replicas.

Lemma truthyUrls_registered (r : HashRing) (l : list string) :
  (∀ n, getNodeUrl r n ≠ Some "") → (∀ m, m ∈ l → m ∈ getAllNodeNames r) →
  Some <$> truthyUrls r (Some <$> l) = nodeUrl r <$> (Some <$> l).
Proof.
  intros Hurls. induction l as [|m l IH]; intros Hl; [done|].
  assert (Hm : m ∈ getAllNodeNames r) by (apply Hl; left).
  apply jsmap_get_is_Some in Hm as [nd Hm].
  assert (Hu : getNodeUrl r m = Some (url nd)) by (unfold getNodeUrl; by rewrite Hm).
  assert (Hue : url nd ≠ "").
  { intros He. apply (Hurls m). by rewrite Hu, He. }
  unfold truthyUrls in *. csimpl. rewrite Hu. simpl.
  rewrite bool_decide_true by done. csimpl. f_equal.
  apply IH. intros; apply Hl. by right.
Qed.

(** X13: as long as no failover has happened, the coordinator routes as
    the ring says: [/produce] writes to the ring's primary of the key and
    asks it to replicate to the ring's replicas, all of them and in ring
    order, when no registered URL is the empty string. *)
Theorem X13_routing_without_failover
    (r : HashRing) (c : Coordinator) (key : string) (R : nat) (a : Assignment) :
  ring_state r → (∀ n, getNodeUrl r n ≠ Some "") →
  promotedNodes c = ∅ →
  getNodesForKey r key R = Returned a →
  ∃ urls,
    produceRouting r c key R
    = Returned (mkRouting (keyHash a) (primary a) (replicas a)
                          (nodeUrl r (primary a)) urls) ∧
    Some <$> urls = nodeUrl r <$> replicas a.
Proof.
  intros Hst Hurls Hempty Ha.
  assert (Hne : nodes r ≠ []).
  { intros Hnil. unfold getNodesForKey in Ha. rewrite Hnil in Ha. done. }
  pose proof Ha as Ha'. rewrite getNodesForKey_returns in Ha' by done. cbv zeta in Ha'.
  destruct (assigned_names r (_findClockwiseIndex r (hash key)) R Hst)
    as (names & Hnames & Hnd & _ & _ & Hsub & _).
  rewrite Hnames in Ha'. injection Ha' as <-.
  unfold produceRouting. rewrite Ha. cbv zeta. cbn [primary replicas keyHash].
  rewrite resolveEffectivePrimary_empty by done.
  rewrite resolveEffectivePrimary_fmap_empty by done.
  assert (Hfilter : filter (λ n, n ≠ mjoin (head (Some <$> names))) (tail (Some <$> names))
                    = tail (Some <$> names)).
  { apply filter_all. destruct names as [|p names]; [by intros x ?%elem_of_nil|].
    csimpl. intros x (m & -> & Hm)%list_elem_of_fmap [= ->].
    by apply NoDup_cons in Hnd as [Hp _]. }
  rewrite Hfilter.
  replace (tail (Some <$> names)) with (Some <$> tail names) by (by destruct names).
  exists (truthyUrls r (Some <$> tail names)). split; [done|].
  apply truthyUrls_registered; [done|].
  intros m Hm. apply Hsub. destruct names; [by apply elem_of_nil in Hm | by right].
Qed.

Lemma demoRing_urls (n : string) : getNodeUrl demoRing n ≠ Some "".
Proof.
  unfold getNodeUrl.
  destruct (jsmap_get n (nodes demoRing)) as [nd|] eqn:Hn; [|done].
  apply jsmap_get_Some in Hn. intros [= Hu].
  assert (Hall : Forall (λ b : string * NodeData, url b.2 ≠ "") (nodes demoRing)).
  { vm_compute. repeat constructor; done. }
  rewrite Forall_forall in Hall. by apply (Hall _ Hn).
Qed.

Lemma X13_witness :
  ∃ urls,
    produceRouting demoRing (coord (initWorld demoRing)) "order_1" 3
    = Returned (mkRouting
                  (keyHash (mkAssignment (Some "node-a") [Some "node-b"; Some "node-c"]
                                         184036158))
                  (primary (mkAssignment (Some "node-a") [Some "node-b"; Some "node-c"]
                                         184036158))
                  (replicas (mkAssignment (Some "node-a") [Some "node-b"; Some "node-c"]
                                          184036158))
                  (nodeUrl demoRing
                     (primary (mkAssignment (Some "node-a") [Some "node-b"; Some "node-c"]
                                            184036158)))
                  urls) ∧
    Some <$> urls
    = nodeUrl demoRing
        <$> replicas (mkAssignment (Some "node-a") [Some "node-b"; Some "node-c"]
                                   184036158).
Proof.
  apply (X13_routing_without_failover demoRing (coord (initWorld demoRing)) "order_1" 3).
  - apply demoRing_state.
  - apply demoRing_urls.
  - reflexivity.
  - vm_compute. reflexivity.
Defined.

(** X14: whenever [getNodesForKey] returns for a key, in any state of the
    overrides, [/route] and [/produce] agree on the hash, on the primary
    and on its URL, and the replicas of [/produce] are those of [/route]
    without the primary. When the broker promoted for the key's ring
    primary is itself a replica of the key and has no override of its own,
    [/route] lists it as primary and among the replicas, [/produce] as
    primary only, and [/route] reports [failoverActive]. *)
Theorem X14_route_and_produce
    (r : HashRing) (c : Coordinator) (key : string) (R : nat) (a : Assignment) :
  getNodesForKey r key R = Returned a →
  ∃ rr rt,
    route r c R key = Returned rr ∧ produceRouting r c key R = Returned rt ∧
    route_keyHash rr = rt_keyHash rt ∧
    route_primary rr = rt_primary rt ∧
    route_primaryUrl rr = rt_primaryUrl rt ∧
    rt_replicas rt = filter (λ n, n ≠ route_primary rr) (route_replicas rr) ∧
    (∀ f p, primary a = Some f → promotedNodes c !! f = Some p → p ≠ "" →
       Some p ∈ replicas a → promotedNodes c !! p = None →
       route_primary rr = Some p ∧ rt_primary rt = Some p ∧
       Some p ∈ route_replicas rr ∧ (Some p ∉ rt_replicas rt) ∧
       route_failoverActive rr = true).
Proof.
  intros Ha.
  unfold route, produceRouting. rewrite Ha. eexists _, _.
  split; [done|]. split; [done|]. simpl.
  split_and!; [done | done | done | done |].
  intros f p Hprim Hfp Hpe Hrep Hp. rewrite Hprim. simpl.
  rewrite Hfp, decide_False by done.
  split_and!; [done | done | | |].
  - apply list_elem_of_fmap. exists (Some p). split; [|done]. simpl. by rewrite Hp.
  - rewrite list_elem_of_filter. tauto.
  - unfold failoverActive. apply bool_decide_eq_true.
    assert (Hne : promotedNodes c ≠ ∅).
    { intros Hempty. by rewrite Hempty, lookup_empty in Hfp. }
    apply map_size_non_empty_iff in Hne. lia.
Qed.

Lemma X14_witness :
  ∃ rr rt,
    route demoRing (coord nodeA_failedOver_world) 3 "order_1" = Returned rr ∧
    produceRouting demoRing (coord nodeA_failedOver_world) "order_1" 3 = Returned rt ∧
    route_keyHash rr = rt_keyHash rt ∧
    route_primary rr = rt_primary rt ∧
    route_primaryUrl rr = rt_primaryUrl rt ∧
    rt_replicas rt = filter (λ n, n ≠ route_primary rr) (route_replicas rr) ∧
    (∀ f p,
       primary (mkAssignment (Some "node-a") [Some "node-b"; Some "node-c"] 184036158)
       = Some f →
       promotedNodes (coord nodeA_failedOver_world) !! f = Some p → p ≠ "" →
       Some p ∈ replicas (mkAssignment (Some "node-a") [Some "node-b"; Some "node-c"]
                                       184036158) →
       promotedNodes (coord nodeA_failedOver_world) !! p = None →
       route_primary rr = Some p ∧ rt_primary rt = Some p ∧
       Some p ∈ route_replicas rr ∧ (Some p ∉ rt_replicas rt) ∧
       route_failoverActive rr = true).
Proof.
  apply (X14_route_and_produce demoRing (coord nodeA_failedOver_world) "order_1" 3
           (mkAssignment (Some "node-a") [Some "node-b"; Some "node-c"] 184036158)).
  vm_compute. reflexivity.
Defined.

(** After the failover of node-a to node-b, [/route] of order_1 names
    node-b as primary and among the replicas, [/produce] as primary only. *)
Example route_and_produce_after_failover :
  route demoRing (coord nodeA_failedOver_world) 3 "order_1" =
    Returned (mkRouteResponse "order_1" 184036158 (Some "node-b")
                (Some "http://node-b:5000") [Some "node-b"; Some "node-c"]
                [Some "http://node-b:5000"; Some "http://node-c:5000"] true) ∧
  produceRouting demoRing (coord nodeA_failedOver_world) "order_1" 3 =
    Returned (mkRouting 184036158 (Some "node-b") [Some "node-c"]
                (Some "http://node-b:5000") ["http://node-c:5000"]).
Proof. split; vm_compute; reflexivity. Qed.

(** ** Reading a message *)

(** The [i]th candidate has a URL and its broker answers with the message. *)
Definition answersFetch {Data : Type} (success : Data → bool)
    (r : HashRing) (fetchAt : nat → string → option Data)
    (key : string) (i : nat) (nodeName : jsname) (data : Data) : Prop :=
  truthy (nodeUrl r nodeName) = true ∧
  fetchAt i (template (nodeUrl r nodeName) +:+ ("/fetch/" +:+ key)) = Some data ∧
  success data = true.

Lemma consumeLoop_spec {Data : Type} (success : Data → bool)
    (r : HashRing) (c' : Coordinator) (fetchAt : nat → string → option Data)
    (key : string) (rawPrimary primary : jsname) (i : nat) (candidates : list jsname) :
  match consumeLoop success r c' fetchAt key rawPrimary primary i candidates with
  | (Consume200 data nodeName failover source, log) =>
      ∃ k : nat,
        candidates !! k = Some nodeName ∧
        answersFetch success r fetchAt key (i + k) nodeName data ∧
        (∀ (j : nat) m d, (j < k)%nat → candidates !! j = Some m →
                          ¬ answersFetch success r fetchAt key (i + j) m d) ∧
        failover = failoverActive c' ∧
        (source = SourcePrimary ↔ nodeName = rawPrimary) ∧
        last log = Some (LogServed key nodeName (bool_decide (nodeName ≠ primary)))
  | (Consume404 key', log) =>
      key' = key ∧
      ∀ (j : nat) m d, candidates !! j = Some m →
                       ¬ answersFetch success r fetchAt key (i + j) m d
  end.
Proof.
  revert i. induction candidates as [|n rest IH]; intros i; cbn [consumeLoop].
  - split; [done|]. intros j m d Hj. done.
  - assert (Hskip : (∀ d, ¬ answersFetch success r fetchAt key i n d) →
      match consumeLoop success r c' fetchAt key rawPrimary primary (S i) rest with
      | (Consume200 data nodeName failover source, log) =>
          ∃ k : nat,
            (n :: rest) !! k = Some nodeName ∧
            answersFetch success r fetchAt key (i + k) nodeName data ∧
            (∀ (j : nat) m d, (j < k)%nat → (n :: rest) !! j = Some m →
                              ¬ answersFetch success r fetchAt key (i + j) m d) ∧
            failover = failoverActive c' ∧
            (source = SourcePrimary ↔ nodeName = rawPrimary) ∧
            last log = Some (LogServed key nodeName (bool_decide (nodeName ≠ primary)))
      | (Consume404 key', log) =>
          key' = key ∧
          ∀ (j : nat) m d, (n :: rest) !! j = Some m →
                           ¬ answersFetch success r fetchAt key (i + j) m d
      end).
    { intros Hno. specialize (IH (S i)).
      destruct (consumeLoop success r c' fetchAt key rawPrimary primary (S i) rest)
        as [[data nodeName failover source|key'] log].
      - destruct IH as (k & Hk & Hans & Hbefore & Hfo & Hsrc & Hlog).
        exists (S k). split_and!; try done.
        + by replace (i + S k)%nat with (S i + k)%nat by lia.
        + intros [|j] m d Hj Hm.
          * injection Hm as <-. rewrite Nat.add_0_r. apply Hno.
          * replace (i + S j)%nat with (S i + j)%nat by lia.
            apply Hbefore; [lia | done].
      - destruct IH as [-> Hnone]. split; [done|]. intros [|j] m d Hm.
        + injection Hm as <-. rewrite Nat.add_0_r. apply Hno.
        + replace (i + S j)%nat with (S i + j)%nat by lia. by apply Hnone. }
    destruct (truthy (nodeUrl r n)) eqn:Hu.
    2:{ apply Hskip. intros d (Hu' & _). congruence. }
    destruct (fetchAt i _) as [data|] eqn:Hf.
    + destruct (success data) eqn:Hs.
      * exists 0%nat. rewrite Nat.add_0_r. split_and!; try done.
        -- intros j m d Hj. lia.
        -- destruct (decide (n = rawPrimary)); split; done.
      * apply Hskip. intros d (_ & Hf' & Hs'). congruence.
    + assert (Hno : ∀ d, ¬ answersFetch success r fetchAt key i n d).
      { intros d (_ & Hf' & _). congruence. }
      specialize (Hskip Hno).
      destruct (consumeLoop success r c' fetchAt key rawPrimary primary (S i) rest)
        as [[data nodeName failover source|key'] log]; cbn [fst snd].
      * destruct Hskip as (k & Hk & Hans & Hbefore & Hfo & Hsrc & Hlog).
        exists k. split_and!; try done.
        destruct log; [done|]. done.
      * done.
Qed.

(** X15: [/consume] answers with the message of the first candidate, in
    the order effective primary then replicas, that has a URL and whose
    broker returns the message, and with 404 exactly when no candidate
    does. In the answer, [failover] tells whether any override exists when
    the answer is sent, whoever served it; [source] is [primary] exactly
    when the serving broker is the ring's primary of the key; the console
    line says FAILOVER exactly when the serving broker is not the effective
    primary. *)
Theorem X15_consume_first_answering_candidate
    {Data : Type} (success : Data → bool) (r : HashRing) (c c' : Coordinator) (R : nat)
    (fetchAt : nat → string → option Data) (key : string) (a : Assignment) :
  getNodesForKey r key R = Returned a →
  ∃ res, consume success r c c' R fetchAt key = Returned res ∧
    match res with
    | (Consume200 data nodeName failover source, log) =>
        ∃ k : nat,
          consumeCandidates c a !! k = Some nodeName ∧
          answersFetch success r fetchAt key k nodeName data ∧
          (∀ (j : nat) m d, (j < k)%nat → consumeCandidates c a !! j = Some m →
                            ¬ answersFetch success r fetchAt key j m d) ∧
          failover = failoverActive c' ∧
          (source = SourcePrimary ↔ nodeName = primary a) ∧
          last log = Some (LogServed key nodeName
                             (bool_decide (nodeName ≠ resolveEffectivePrimary c (primary a))))
    | (Consume404 key', log) =>
        key' = key ∧
        ∀ (j : nat) m d, consumeCandidates c a !! j = Some m →
                         ¬ answersFetch success r fetchAt key j m d
    end.
Proof.
  intros Ha. unfold consume. rewrite Ha. eexists. split; [done|].
  apply (consumeLoop_spec success r c' fetchAt key (primary a)
           (resolveEffectivePrimary c (primary a)) 0 (consumeCandidates c a)).
Qed.

(** X16: after a failover of the ring's primary of a key, as long as no
    broker has failed over to that primary, a message of the key is never
    read from it, and every answer of [/consume] for the key says
    [source: replica], also when the promoted broker, the effective primary,
    served it. *)
Theorem X16_consume_after_failover
    {Data : Type} (success : Data → bool) (r : HashRing) (c c' : Coordinator) (R : nat)
    (fetchAt : nat → string → option Data) (key : string) (a : Assignment)
    (f p : string) (data : Data) (servedBy : jsname) (failover : bool)
    (source : Source) (log : list ConsumeLog) :
  ring_state r →
  getNodesForKey r key R = Returned a → primary a = Some f →
  promotedNodes c !! f = Some p → p ≠ "" → p ≠ f →
  (∀ g, promotedNodes c !! g ≠ Some f) →
  consume success r c c' R fetchAt key
  = Returned (Consume200 data servedBy failover source, log) →
  servedBy ≠ Some f ∧ source = SourceReplica.
Proof.
  intros Hst Ha Hprim Hfp Hpe Hpf Hnone Hcons.
  unfold consume in Hcons. rewrite Ha in Hcons.
  pose proof (consumeLoop_spec success r c' fetchAt key (primary a)
                (resolveEffectivePrimary c (primary a)) 0 (consumeCandidates c a)) as Hspec.
  destruct (consumeLoop success r c' fetchAt key (primary a)
              (resolveEffectivePrimary c (primary a)) 0 (consumeCandidates c a))
    as [[data' servedBy' failover' source'|key'] log']; [|done].
  injection Hcons as -> -> -> -> ->.
  destruct Hspec as (k & Hk & _ & _ & _ & Hsrc & _).
  assert (Hserved : servedBy ≠ Some f).
  { intros ->. unfold consumeCandidates in Hk. rewrite Hprim in Hk.
    destruct k as [|k]; simpl in Hk.
    - rewrite Hfp, decide_False in Hk by done. congruence.
    - rewrite list_lookup_fmap in Hk.
      destruct (replicas a !! k) as [g|] eqn:Hg; [|done]. simpl in Hk.
      assert (Hgf : g ≠ Some f).
      { intros ->.
        assert (Hne : nodes r ≠ []).
        { intros Hnil. unfold getNodesForKey in Ha. rewrite Hnil in Ha. done. }
        rewrite getNodesForKey_returns in Ha by done. cbv zeta in Ha.
        destruct (assigned_names r (_findClockwiseIndex r (hash key)) R Hst)
          as (names & Hnames & Hnd & _).
        rewrite Hnames in Ha. injection Ha as <-. simpl in Hprim, Hg.
        destruct names as [|n names]; [done|]. simpl in Hprim, Hg.
        injection Hprim as ->. apply NoDup_cons in Hnd as [Hf _]. apply Hf.
        apply list_elem_of_lookup_2 in Hg.
        by apply list_elem_of_fmap in Hg as (x & [= <-] & Hx). }
      destruct g as [g|]; simpl in Hk; [|done].
      destruct (promotedNodes c !! g) as [q|] eqn:Hq.
      + destruct (decide (q = "")); [congruence|].
        injection Hk as ->. by apply (Hnone g).
      + congruence. }
  split; [done|]. destruct source; [|done].
  exfalso. apply Hserved. rewrite <- Hprim. by apply Hsrc.
Qed.


(** A network on which the broker at [http://node-b:5000] alone holds the
    message. *)
Definition onlyNodeB (i : nat) (u : string) : option string :=
  if decide (u = "http://node-b:5000/fetch/order_1") then Some "laptop" else None.

Lemma X15_witness :
  ∃ res,
    consume (λ _ : string, true) demoRing (coord (initWorld demoRing))
            (coord (initWorld demoRing)) 3 onlyNodeB "order_1" = Returned res ∧
    match res with
    | (Consume200 data nodeName failover source, log) =>
        ∃ k : nat,
          consumeCandidates (coord (initWorld demoRing))
            (mkAssignment (Some "node-a") [Some "node-b"; Some "node-c"] 184036158) !! k
          = Some nodeName ∧
          answersFetch (λ _ : string, true) demoRing onlyNodeB "order_1" k nodeName data ∧
          (∀ (j : nat) m d, (j < k)%nat →
             consumeCandidates (coord (initWorld demoRing))
               (mkAssignment (Some "node-a") [Some "node-b"; Some "node-c"] 184036158) !! j
             = Some m →
             ¬ answersFetch (λ _ : string, true) demoRing onlyNodeB "order_1" j m d) ∧
          failover = failoverActive (coord (initWorld demoRing)) ∧
          (source = SourcePrimary ↔
           nodeName = primary (mkAssignment (Some "node-a") [Some "node-b"; Some "node-c"]
                                            184036158)) ∧
          last log
          = Some (LogServed "order_1" nodeName
                    (bool_decide
                       (nodeName ≠
                        resolveEffectivePrimary (coord (initWorld demoRing))
                          (primary (mkAssignment (Some "node-a")
                                      [Some "node-b"; Some "node-c"] 184036158)))))
    | (Consume404 key', log) =>
        key' = "order_1" ∧
        ∀ (j : nat) m d,
          consumeCandidates (coord (initWorld demoRing))
            (mkAssignment (Some "node-a") [Some "node-b"; Some "node-c"] 184036158) !! j
          = Some m →
          ¬ answersFetch (λ _ : string, true) demoRing onlyNodeB "order_1" j m d
    end.
Proof.
  apply (X15_consume_first_answering_candidate (λ _ : string, true) demoRing
           (coord (initWorld demoRing)) (coord (initWorld demoRing)) 3 onlyNodeB "order_1").
  vm_compute. reflexivity.
Defined.

Example consume_from_replica :
  consume (λ _ : string, true) demoRing (coord (initWorld demoRing))
          (coord (initWorld demoRing)) 3 onlyNodeB "order_1"
  = Returned (Consume200 "laptop" (Some "node-b") false SourceReplica,
              [LogUnreachable (Some "node-a") "order_1";
               LogServed "order_1" (Some "node-b") true]).
Proof. vm_compute. reflexivity. Qed.

Lemma X16_witness :
  Some "node-b" ≠ Some "node-a" ∧ SourceReplica = SourceReplica.
Proof.
  apply (X16_consume_after_failover (λ _ : string, true) demoRing
           (coord nodeA_failedOver_world) (coord nodeA_failedOver_world) 3
           onlyNodeB "order_1"
           (mkAssignment (Some "node-a") [Some "node-b"; Some "node-c"] 184036158)
           "node-a" "node-b" "laptop" (Some "node-b") true SourceReplica
           [LogServed "order_1" (Some "node-b") false]).
  - apply demoRing_state.
  - vm_compute. reflexivity.
  - reflexivity.
  - vm_compute. reflexivity.
  - done.
  - done.
  - intros g. destruct (decide (g = "node-a")) as [->|Hg].
    + vm_compute. done.
    + assert (Hdom : ∀ q, promotedNodes (coord nodeA_failedOver_world) !! g = Some q →
                          g = "node-a").
      { intros q Hq. apply (elem_of_dom_2 (D := gset string)) in Hq. revert Hq.
        assert (Hd : dom (promotedNodes (coord nodeA_failedOver_world))
                     = ({["node-a"]} : gset string)) by (by vm_compute).
        rewrite Hd. by intros ?%elem_of_singleton. }
      intros Hq. by apply Hg, (Hdom "node-a").
  - vm_compute. reflexivity.
Defined.

(** * Further properties of the broker *)

(** ** Runs of a broker *)

(** The store handler awaits its replication requests: between its local
    write and its log record other requests are served. A broker is
    followed with the store requests whose replication is under way. *)
Record BrokerWorld := mkBrokerWorld {
  broker : Broker;
  storing : list StoreRequest
}.

Definition initBroker : BrokerWorld := mkBrokerWorld (mkBroker ∅ []) [].

(** A request body with a key and a payload that pass the check
    [!key || payload === undefined]. *)
Definition accepted (key payload : option string) : option (string * string) :=
  match key, payload with
  | Some key, Some payload => if decide (key = "") then None else Some (key, payload)
  | _, _ => None
  end.

(** What happens at a broker: a store request arrives (check and local
    write), the replication of the [i]th store request under way is over
    (log record), a replicate request or a promote request is served. *)
Inductive BrokerAction :=
  | AStoreReceived (t_write : string) (req : StoreRequest)
  | AStoreReplicated (i : nat) (t_log : string) (results : list ReplicationResult)
  | AReplicate (t_write t_log : string) (key payload primaryNode : option string)
  | APromote (now : string).

(** The entry an action writes to [messageStore], with its key. *)
Definition writeOf (a : BrokerAction) : option (string * Entry) :=
  match a with
  | AStoreReceived t_write req =>
      '(key, payload) ← accepted (req_key req) (req_payload req);
      Some (key, mkEntry payload t_write RolePrimary None)
  | AReplicate t_write t_log key payload primaryNode =>
      '(key, payload) ← accepted key payload;
      Some (key, mkEntry payload t_write RoleReplica primaryNode)
  | _ => None
  end.

(** One step of a broker. An assignment to [messageStore.__proto__]
    replaces the prototype of the store object instead of adding an entry,
    and what the broker answers from then on depends on the JSON value of
    the payload, which an [Entry] does not keep. A run is followed up to
    its first accepted store or replicate request of key [__proto__]:
    there, and at a log record for a store request that is not under way,
    the step is [None]. *)
Definition brokerAct (NODE_ID : string) (w : BrokerWorld) (a : BrokerAction)
    : option BrokerWorld :=
  match a with
  | AStoreReceived t_write req =>
      match accepted (req_key req) (req_payload req) with
      | Some (key, payload) =>
          if decide (key = "__proto__") then None
          else
            Some (mkBrokerWorld
                    (mkBroker (<[key := mkEntry payload t_write RolePrimary None]>
                                 (messageStore (broker w)))
                              (replicationLog (broker w)))
                    (storing w ++ [req]))
      | None => Some w
      end
  | AStoreReplicated i t_log results =>
      req ← storing w !! i;
      '(key, payload) ← accepted (req_key req) (req_payload req);
      Some (mkBrokerWorld
              (mkBroker (messageStore (broker w))
                        (replicationLog (broker w)
                           ++ [stored_as_primary key payload (req_replicateTo req)
                                                 results t_log]))
              (delete i (storing w)))
  | AReplicate t_write t_log key payload primaryNode =>
      if decide (fst <$> accepted key payload = Some "__proto__") then None
      else Some (mkBrokerWorld
                   (replicate NODE_ID t_write t_log key payload primaryNode (broker w)).1
                   (storing w))
  | APromote now => Some (mkBrokerWorld (promote now (broker w)) (storing w))
  end.

Definition brokerRun (NODE_ID : string) (actions : list BrokerAction) (w : BrokerWorld)
    : option BrokerWorld :=
  foldl (λ acc a, w ← acc; brokerAct NODE_ID w a) (Some w) actions.

Lemma brokerRun_snoc NODE_ID actions a w :
  brokerRun NODE_ID (actions ++ [a]) w
  = brokerRun NODE_ID actions w ≫= λ w', brokerAct NODE_ID w' a.
Proof. unfold brokerRun. by rewrite foldl_app. Qed.

(** A store request served without another request in between is the two
    steps of a run. *)
Lemma store_as_run NODE_ID post t_write t_log req b key payload :
  accepted (req_key req) (req_payload req) = Some (key, payload) →
  key ≠ "__proto__" →
  brokerRun NODE_ID
    [AStoreReceived t_write req;
     AStoreReplicated 0 t_log
       (replicateLoop post NODE_ID key payload 0 (req_replicateTo req)).1]
    (mkBrokerWorld b [])
  = Some (mkBrokerWorld (store NODE_ID post t_write t_log req b).1.1 []).
Proof.
  intros Hacc Hproto. unfold brokerRun, store. cbn [foldl mbind option_bind brokerAct].
  rewrite Hacc. rewrite decide_False by done.
  cbn [mbind option_bind brokerAct storing broker lookup list_lookup app].
  rewrite Hacc. cbn [mbind option_bind].
  unfold accepted in Hacc.
  destruct (req_key req) as [k|]; [|done]. destruct (req_payload req) as [p|]; [|done].
  destruct (decide (k = "")); [done|]. by injection Hacc as <- <-.
Qed.

Lemma brokerAct_store NODE_ID w a w' :
  brokerAct NODE_ID w a = Some w' →
  messageStore (broker w') =
    match writeOf a with
    | Some (key, entry) => <[key := entry]> (messageStore (broker w))
    | None => messageStore (broker w)
    end.
Proof.
  destruct a as [t_write req|i t_log results|t_write t_log key payload primaryNode|now];
    simpl.
  - destruct (accepted _ _) as [[key payload]|]; simpl; [|by intros [= <-]].
    destruct (decide _); [done|]. by intros [= <-].
  - destruct (storing w !! i) as [req|]; simpl; [|done].
    destruct (accepted _ _) as [[key payload]|]; simpl; [|done]. by intros [= <-].
  - destruct (decide _); [done|]. intros [= <-]. simpl.
    unfold replicate, accepted.
    destruct key as [key|]; [|done]. destruct payload as [payload|]; [|done].
    by destruct (decide (key = "")).
  - by intros [= <-].
Qed.

(** X17: a broker serves the latest write. After any run of requests from
    start in which no accepted store or replicate request has the key
    [__proto__], [/fetch] of a key answers with the entry of the last store
    or replicate request accepted for that key, whichever role it wrote;
    for a key never written it answers 404, unless the key is a name every
    object inherits, for which it answers 200 without an entry. *)
Theorem X17_fetch_serves_latest_write
    (NODE_ID : string) (actions : list BrokerAction) (w : BrokerWorld) (key : string) :
  brokerRun NODE_ID actions initBroker = Some w →
  fetch NODE_ID key (broker w) =
    match last (filter (λ we, we.1 = key) (omap writeOf actions)) with
    | Some (_, entry) => Fetch200 NODE_ID key (Some entry)
    | None =>
        if bool_decide (key ∈ objectPrototypeNames) then Fetch200 NODE_ID key None
        else Fetch404 NODE_ID key
    end.
Proof.
  intros Hrun. unfold fetch.
  assert (Hstore : messageStore (broker w) !! key
                   = snd <$> last (filter (λ we, we.1 = key) (omap writeOf actions))).
  { revert w Hrun. induction actions as [|a actions IH] using rev_ind; intros w.
    - intros [= <-]. simpl. by rewrite lookup_empty.
    - rewrite brokerRun_snoc.
      destruct (brokerRun NODE_ID actions initBroker) as [w1|]; simpl; [|done].
      intros Hact. rewrite (brokerAct_store _ _ _ _ Hact).
      rewrite omap_app, filter_app. simpl.
      destruct (writeOf a) as [[k e]|]; simpl.
      + rewrite filter_cons, filter_nil. simpl.
        destruct (decide (k = key)) as [->|Hne].
        * by rewrite lookup_insert_eq, last_snoc.
        * rewrite lookup_insert_ne, app_nil_r by done. by apply IH.
      + rewrite filter_nil, app_nil_r. by apply IH. }
  rewrite Hstore. by destruct (last _) as [[k e]|].
Qed.

(** order_1 is stored as primary, then a replica copy of it arrives. *)
Definition primaryThenReplica : list BrokerAction :=
  [AStoreReceived "t1" (mkStoreRequest (Some "order_1") (Some "laptop") []);
   AStoreReplicated 0 "t2" [];
   AReplicate "t3" "t4" (Some "order_1") (Some "mouse") (Some "node-b")].

Definition afterPrimaryThenReplica : BrokerWorld :=
  Eval vm_compute in default initBroker (brokerRun "node-a" primaryThenReplica initBroker).

Lemma X17_witness :
  fetch "node-a" "order_1" (broker afterPrimaryThenReplica) =
    match last (filter (λ we, we.1 = "order_1") (omap writeOf primaryThenReplica)) with
    | Some (_, entry) => Fetch200 "node-a" "order_1" (Some entry)
    | None =>
        if bool_decide ("order_1" ∈ objectPrototypeNames)
        then Fetch200 "node-a" "order_1" None
        else Fetch404 "node-a" "order_1"
    end.
Proof.
  apply (X17_fetch_serves_latest_write "node-a" primaryThenReplica afterPrimaryThenReplica).
  vm_compute. reflexivity.
Defined.

Example fetch_after_primary_then_replica :
  fetch "node-a" "order_1" (broker afterPrimaryThenReplica)
  = Fetch200 "node-a" "order_1"
      (Some (mkEntry "mouse" "t3" RoleReplica (Some "node-b"))) ∧
  fetch "node-a" "order_2" (broker afterPrimaryThenReplica) = Fetch404 "node-a" "order_2" ∧
  fetch "node-a" "toString" (broker afterPrimaryThenReplica)
  = Fetch200 "node-a" "toString" None.
Proof. split_and!; vm_compute; reflexivity. Qed.

(** The key of a record of the log. *)
Definition logKey (e : LogEntry) : option string :=
  match e with
  | stored_as_primary key _ _ _ _ => Some key
  | stored_as_replica key _ _ _ => Some key
  | promoted_to_primary _ => None
  end.

(** Every store request under way has passed the check and has its entry
    in the store; so has every key of the log. *)
Definition broker_inv (w : BrokerWorld) : Prop :=
  (∀ req, req ∈ storing w →
     ∃ key payload, accepted (req_key req) (req_payload req) = Some (key, payload) ∧
                    is_Some (messageStore (broker w) !! key)) ∧
  (∀ e key, e ∈ replicationLog (broker w) → logKey e = Some key →
     is_Some (messageStore (broker w) !! key)).

Lemma brokerAct_grows NODE_ID w a w' :
  brokerAct NODE_ID w a = Some w' →
  replicationLog (broker w) `prefix_of` replicationLog (broker w') ∧
  (∀ key, is_Some (messageStore (broker w) !! key) →
          is_Some (messageStore (broker w') !! key)).
Proof.
  intros Hact. split.
  - destruct a as [t_write req|i t_log results|t_write t_log key payload primaryNode|now];
      simpl in Hact.
    + destruct (accepted _ _) as [[key payload]|]; simpl in Hact; [|by injection Hact as <-].
      destruct (decide _); [done|]. by injection Hact as <-.
    + destruct (storing w !! i) as [req|]; simpl in Hact; [|done].
      destruct (accepted _ _) as [[key payload]|]; simpl in Hact; [|done].
      injection Hact as <-. simpl. by apply prefix_app_r.
    + destruct (decide _); [done|]. injection Hact as <-. simpl. unfold replicate.
      destruct key as [key|]; [|done]. destruct payload as [payload|]; [|done].
      destruct (decide (key = "")); [done|]. simpl. by apply prefix_app_r.
    + injection Hact as <-. simpl. by apply prefix_app_r.
  - intros key Hkey. rewrite (brokerAct_store _ _ _ _ Hact).
    destruct (writeOf a) as [[k e]|]; [|done].
    destruct (decide (key = k)) as [->|Hne].
    + rewrite lookup_insert_eq. by eexists.
    + by rewrite lookup_insert_ne.
Qed.

Lemma brokerAct_inv NODE_ID w a w' :
  brokerAct NODE_ID w a = Some w' → broker_inv w → broker_inv w'.
Proof.
  intros Hact [Hst Hlog].
  destruct (brokerAct_grows NODE_ID w a w' Hact) as [_ Hkeep].
  destruct a as [t_write req|i t_log results|t_write t_log key payload primaryNode|now];
    simpl in Hact.
  - destruct (accepted (req_key req) (req_payload req)) as [[key payload]|] eqn:Hacc;
      simpl in Hact; [|by injection Hact as <-].
    destruct (decide _); [done|]. injection Hact as <-. split; simpl.
    + intros req' [Hin|Hin%list_elem_of_singleton]%elem_of_app.
      * destruct (Hst req' Hin) as (k & p & Hk & Hs). exists k, p. split; [done|].
        destruct (decide (k = key)) as [->|Hne].
        -- rewrite lookup_insert_eq. by eexists.
        -- by rewrite lookup_insert_ne.
      * subst req'. exists key, payload. split; [done|].
        rewrite lookup_insert_eq. by eexists.
    + intros e k He Hk. destruct (decide (k = key)) as [->|Hne].
      * rewrite lookup_insert_eq. by eexists.
      * rewrite lookup_insert_ne by done. by apply (Hlog e).
  - destruct (storing w !! i) as [req|] eqn:Hreq; simpl in Hact; [|done].
    destruct (accepted (req_key req) (req_payload req)) as [[key payload]|] eqn:Hacc;
      simpl in Hact; [|done].
    injection Hact as <-. split; simpl.
    + intros req' Hin. apply Hst.
      apply (elem_of_sublist _ _ _ Hin), sublist_delete.
    + intros e k [He|He%list_elem_of_singleton]%elem_of_app Hk; [by apply (Hlog e)|].
      subst e. injection Hk as <-.
      destruct (Hst req) as (k & p & Hk & Hs); [by apply list_elem_of_lookup_2 in Hreq|].
      congruence.
  - destruct (decide _); [done|]. injection Hact as <-. split; simpl.
    + intros req' Hin. destruct (Hst req' Hin) as (k & p & Hk & Hs).
      exists k, p. split; [done|]. unfold replicate.
      destruct key as [key|]; [|done]. destruct payload as [payload|]; [|done].
      destruct (decide (key = "")); [done|]. simpl.
      destruct (decide (k = key)) as [->|Hne].
      * rewrite lookup_insert_eq. by eexists.
      * by rewrite lookup_insert_ne.
    + unfold replicate.
      destruct key as [key|]; [|by apply Hlog]. destruct payload as [payload|]; [|by apply Hlog].
      destruct (decide (key = "")); [by apply Hlog|]. simpl.
      intros e k [He|He%list_elem_of_singleton]%elem_of_app Hk.
      * destruct (decide (k = key)) as [->|Hne].
        -- rewrite lookup_insert_eq. by eexists.
        -- rewrite lookup_insert_ne by done. by apply (Hlog e).
      * subst e. injection Hk as <-. rewrite lookup_insert_eq. by eexists.
  - injection Hact as <-. split; simpl; [done|].
    intros e k [He|He%list_elem_of_singleton]%elem_of_app Hk; [by apply (Hlog e)|].
    by subst e.
Qed.

Lemma brokerRun_inv NODE_ID actions w w' :
  brokerRun NODE_ID actions w = Some w' → broker_inv w → broker_inv w'.
Proof.
  revert w'. induction actions as [|a actions IH] using rev_ind; intros w'.
  - by intros [= <-].
  - rewrite brokerRun_snoc.
    destruct (brokerRun NODE_ID actions w) as [w1|]; simpl; [|done].
    intros Hact Hinv. apply (brokerAct_inv NODE_ID w1 a w' Hact). by apply IH.
Qed.

(** The steps left out are those of a write of key [__proto__] and of a
    log record for a store request that is not under way. *)
Lemma brokerAct_defined NODE_ID w a :
  broker_inv w →
  (∀ e, writeOf a ≠ Some ("__proto__", e)) →
  (∀ i t_log results, a = AStoreReplicated i t_log results → is_Some (storing w !! i)) →
  is_Some (brokerAct NODE_ID w a).
Proof.
  intros [Hst _] Hwrite Hidx.
  destruct a as [t_write req|i t_log results|t_write t_log key payload primaryNode|now];
    simpl in *.
  - destruct (accepted _ _) as [[key payload]|]; simpl in *; [|done].
    destruct (decide _) as [->|]; [|done]. by destruct (Hwrite _ eq_refl).
  - destruct (Hidx i t_log results eq_refl) as [req Hreq]. rewrite Hreq. simpl.
    destruct (Hst req) as (k & p & Hk & _); [by apply list_elem_of_lookup_2 in Hreq|].
    by rewrite Hk.
  - destruct (decide _) as [Heq|]; [|done].
    destruct (accepted _ _) as [[k p]|]; simpl in *; [|done].
    injection Heq as ->. by destruct (Hwrite _ eq_refl).
  - done.
Qed.

Lemma brokerRun_no_prototype_write NODE_ID actions w w' :
  brokerRun NODE_ID actions w = Some w' →
  ∀ e, ("__proto__", e) ∉ omap writeOf actions.
Proof.
  revert w'. induction actions as [|a actions IH] using rev_ind; intros w' Hrun e.
  - apply not_elem_of_nil.
  - rewrite brokerRun_snoc in Hrun.
    destruct (brokerRun NODE_ID actions w) as [w1|]; simpl in Hrun; [|done].
    rewrite omap_app. intros [Hin|Hin]%elem_of_app; [by apply (IH w1 eq_refl e)|].
    apply list_elem_of_omap in Hin as (a' & ->%list_elem_of_singleton & Ha).
    destruct a as [t_write req|i t_log results|t_write t_log key payload primaryNode|now];
      simpl in *; try done.
    + destruct (accepted _ _) as [[k p]|]; simpl in *; [|done].
      injection Ha as -> _. by rewrite decide_True in Hrun.
    + destruct (accepted _ _) as [[k p]|]; simpl in *; [|done].
      injection Ha as -> _. by rewrite decide_True in Hrun.
Qed.

(** X18: a broker never forgets. Along any run of requests in which no
    accepted store or replicate request has the key [__proto__], the
    records of the log stay where they are, new ones come after them, a key
    that [/fetch] finds with an entry is found ever after (no request
    deletes or expires an entry) and the message count never goes down;
    and every key that a record of the log names has an entry in the
    store. *)
Theorem X18_broker_never_forgets
    (NODE_ID : string) (before after : list BrokerAction) (w w' : BrokerWorld) :
  brokerRun NODE_ID before initBroker = Some w →
  brokerRun NODE_ID after w = Some w' →
  replicationLog (broker w) `prefix_of` replicationLog (broker w') ∧
  (∀ key entry, fetch NODE_ID key (broker w) = Fetch200 NODE_ID key (Some entry) →
     ∃ entry', fetch NODE_ID key (broker w') = Fetch200 NODE_ID key (Some entry')) ∧
  (mr_messageCount (messagesReport NODE_ID (broker w))
   ≤ mr_messageCount (messagesReport NODE_ID (broker w')))%nat ∧
  (∀ e key, e ∈ replicationLog (broker w') → logKey e = Some key →
     ∃ entry, fetch NODE_ID key (broker w') = Fetch200 NODE_ID key (Some entry)).
Proof.
  intros Hbefore Hafter.
  assert (Hgrow : replicationLog (broker w) `prefix_of` replicationLog (broker w') ∧
                  (∀ key, is_Some (messageStore (broker w) !! key) →
                          is_Some (messageStore (broker w') !! key))).
  { clear Hbefore. revert w' Hafter.
    induction after as [|a after IH] using rev_ind; intros w'.
    - by intros [= <-].
    - rewrite brokerRun_snoc.
      destruct (brokerRun NODE_ID after w) as [w1|]; simpl; [|done].
      intros Hact. destruct (IH w1 eq_refl) as [Hpre Hkeep].
      destruct (brokerAct_grows NODE_ID w1 a w' Hact) as [Hpre' Hkeep'].
      split; [by etrans | auto]. }
  destruct Hgrow as [Hpre Hkeep].
  assert (Hinv : broker_inv w').
  { apply (brokerRun_inv NODE_ID after w w' Hafter).
    apply (brokerRun_inv NODE_ID before initBroker w Hbefore).
    split; simpl; [by intros req ?%elem_of_nil | by intros e key ?%elem_of_nil]. }
  split_and!.
  - done.
  - intros key entry. unfold fetch.
    destruct (messageStore (broker w) !! key) as [e|] eqn:He.
    + intros _. destruct (Hkeep key) as [e' He']; [by rewrite He|].
      rewrite He'. by exists e'.
    + by destruct (bool_decide _).
  - simpl. rewrite <- !size_dom. apply subseteq_size.
    intros key. rewrite !elem_of_dom. apply Hkeep.
  - intros e key He Hkey. destruct Hinv as [_ Hlog].
    destruct (Hlog e key He Hkey) as [entry Hentry].
    exists entry. unfold fetch. by rewrite Hentry.
Qed.

Lemma X18_witness :
  replicationLog (broker initBroker)
    `prefix_of` replicationLog (broker afterPrimaryThenReplica) ∧
  (∀ key entry, fetch "node-a" key (broker initBroker)
                = Fetch200 "node-a" key (Some entry) →
     ∃ entry', fetch "node-a" key (broker afterPrimaryThenReplica)
               = Fetch200 "node-a" key (Some entry')) ∧
  (mr_messageCount (messagesReport "node-a" (broker initBroker))
   ≤ mr_messageCount (messagesReport "node-a" (broker afterPrimaryThenReplica)))%nat ∧
  (∀ e key, e ∈ replicationLog (broker afterPrimaryThenReplica) → logKey e = Some key →
     ∃ entry, fetch "node-a" key (broker afterPrimaryThenReplica)
              = Fetch200 "node-a" key (Some entry)).
Proof.
  apply (X18_broker_never_forgets "node-a" [] primaryThenReplica).
  - reflexivity.
  - vm_compute. reflexivity.
Defined.

(** The requests of a run other than the promote requests. *)
Definition isPromote (a : BrokerAction) : bool :=
  match a with APromote _ => true | _ => false end.

Definition withoutPromotes (actions : list BrokerAction) : list BrokerAction :=
  filter (λ a, isPromote a = false) actions.

Lemma logReport_promote NODE_ID now b :
  logReport NODE_ID (promote now b) = logReport NODE_ID b.
Proof.
  unfold logReport, promote. simpl. rewrite !filter_app.
  rewrite !filter_cons_False, !filter_nil, !app_nil_r by done. done.
Qed.

(** The brokers agree on the store, on the store requests under way and
    on what [/log] reports. *)
Definition same_answers (NODE_ID : string) (w1 w2 : BrokerWorld) : Prop :=
  messageStore (broker w1) = messageStore (broker w2) ∧
  storing w1 = storing w2 ∧
  logReport NODE_ID (broker w1) = logReport NODE_ID (broker w2).

Lemma logReport_snoc NODE_ID b1 b2 ms1 ms2 e :
  logReport NODE_ID b1 = logReport NODE_ID b2 →
  logReport NODE_ID (mkBroker ms1 (replicationLog b1 ++ [e]))
  = logReport NODE_ID (mkBroker ms2 (replicationLog b2 ++ [e])).
Proof.
  unfold logReport. simpl. intros [= _ _ Hp Hr].
  by rewrite !filter_app, Hp, Hr.
Qed.

Lemma brokerAct_same_answers NODE_ID w1 w2 a w1' :
  same_answers NODE_ID w1 w2 → brokerAct NODE_ID w1 a = Some w1' →
  ∃ w2', brokerAct NODE_ID w2 a = Some w2' ∧ same_answers NODE_ID w1' w2'.
Proof.
  intros (Hms & Hst & Hlog).
  destruct a as [t_write req|i t_log results|t_write t_log key payload primaryNode|now];
    simpl.
  - destruct (accepted _ _) as [[key payload]|]; simpl.
    + destruct (decide _); [done|]. intros [= <-]. eexists. split; [done|].
      split_and!; simpl; [by rewrite Hms | by rewrite Hst | done].
    + intros [= <-]. by exists w2.
  - rewrite <- Hst. destruct (storing w1 !! i) as [req|]; simpl; [|done].
    destruct (accepted _ _) as [[key payload]|]; simpl; [|done].
    intros [= <-]. eexists. split; [done|].
    split_and!; simpl; [done | done | by apply logReport_snoc].
  - destruct (decide _); [done|]. intros [= <-]. eexists. split; [done|].
    unfold replicate.
    destruct key as [key|]; [|done]. destruct payload as [payload|]; [|done].
    destruct (decide (key = "")); [done|].
    split_and!; simpl; [by rewrite Hms | done | by apply logReport_snoc].
  - intros [= <-]. eexists. split; [done|].
    split_and!; simpl; [done | done |].
    fold (promote now (broker w1)). fold (promote now (broker w2)).
    by rewrite !logReport_promote.
Qed.

(** X19: a promote request changes nothing a broker shows. The same run
    without its promote requests is a run too, and ends with the same
    store, so the same answers of [/fetch], [/health] and [/messages]
    (entries written as replica stay replica), and with the same answer of
    [/log], whose lists leave the promotion records out. *)
Theorem X19_promote_is_invisible
    (NODE_ID : string) (actions : list BrokerAction) (w : BrokerWorld) :
  brokerRun NODE_ID actions initBroker = Some w →
  ∃ w0, brokerRun NODE_ID (withoutPromotes actions) initBroker = Some w0 ∧
    (∀ key, fetch NODE_ID key (broker w0) = fetch NODE_ID key (broker w)) ∧
    (∀ now, healthReport NODE_ID now (broker w0) = healthReport NODE_ID now (broker w)) ∧
    messagesReport NODE_ID (broker w0) = messagesReport NODE_ID (broker w) ∧
    logReport NODE_ID (broker w0) = logReport NODE_ID (broker w).
Proof.
  intros Hrun.
  assert (Hgen : ∃ w0, brokerRun NODE_ID (withoutPromotes actions) initBroker = Some w0 ∧
                       same_answers NODE_ID w w0).
  { revert w Hrun. induction actions as [|a actions IH] using rev_ind; intros w.
    - intros [= <-]. by exists initBroker.
    - rewrite brokerRun_snoc.
      destruct (brokerRun NODE_ID actions initBroker) as [w1|]; simpl; [|done].
      intros Hact. destruct (IH w1 eq_refl) as (w0 & Hrun0 & Hsame).
      unfold withoutPromotes in *. rewrite filter_app, filter_cons, filter_nil.
      destruct (brokerAct_same_answers NODE_ID w1 w0 a w Hsame Hact)
        as (w0' & Hact0 & Hsame').
      destruct a as [t_write req|i t_log results|t_write t_log key payload primaryNode|now].
      1-3: rewrite decide_True by done; exists w0';
        by rewrite brokerRun_snoc, Hrun0.
      rewrite decide_False by done. rewrite app_nil_r. exists w0. split; [done|].
      simpl in Hact. injection Hact as <-.
      destruct Hsame as (Hms & Hst & Hlog). split_and!; simpl; [done | done |].
      fold (promote now (broker w1)). by rewrite logReport_promote. }
  destruct Hgen as (w0 & Hrun0 & Hms & _ & Hlog). exists w0.
  split; [done|]. unfold fetch, healthReport, messagesReport.
  rewrite Hms. done.
Qed.

Lemma X19_witness :
  ∃ w0,
    brokerRun "node-a" (withoutPromotes (primaryThenReplica ++ [APromote "t5"])) initBroker
    = Some w0 ∧
    (∀ key, fetch "node-a" key (broker w0)
            = fetch "node-a" key (broker (mkBrokerWorld
                 (promote "t5" (broker afterPrimaryThenReplica)) []))) ∧
    (∀ now, healthReport "node-a" now (broker w0)
            = healthReport "node-a" now (broker (mkBrokerWorld
                 (promote "t5" (broker afterPrimaryThenReplica)) []))) ∧
    messagesReport "node-a" (broker w0)
    = messagesReport "node-a" (broker (mkBrokerWorld
         (promote "t5" (broker afterPrimaryThenReplica)) [])) ∧
    logReport "node-a" (broker w0)
    = logReport "node-a" (broker (mkBrokerWorld
         (promote "t5" (broker afterPrimaryThenReplica)) [])).
Proof.
  apply (X19_promote_is_invisible "node-a" (primaryThenReplica ++ [APromote "t5"])).
  vm_compute. reflexivity.
Defined.

(** X20: the copy a replica serves is the payload the primary stored. For
    every replication request that the store handler of a primary sends
    for an accepted request, the broker that serves it with its replicate
    handler then answers [/fetch] of the key with that payload, as a
    replica of the primary, while the primary answers with the same payload
    as primary. *)
Theorem X20_replica_serves_what_primary_stored
    (PRIMARY_ID REPLICA_ID : string) (post : nat → string → option string)
    (t_write t_log t_write' t_log' : string) (req : StoreRequest)
    (primaryBroker replicaBroker : Broker)
    (key payload replicaUrl key' payload' primaryNode : string) :
  accepted (req_key req) (req_payload req) = Some (key, payload) →
  PostReplicate replicaUrl key' payload' primaryNode
    ∈ (store PRIMARY_ID post t_write t_log req primaryBroker).2 →
  replicaUrl ∈ req_replicateTo req ∧
  fetch PRIMARY_ID key (store PRIMARY_ID post t_write t_log req primaryBroker).1.1
  = Fetch200 PRIMARY_ID key (Some (mkEntry payload t_write RolePrimary None)) ∧
  fetch REPLICA_ID key
    (replicate REPLICA_ID t_write' t_log' (Some key') (Some payload') (Some primaryNode)
               replicaBroker).1
  = Fetch200 REPLICA_ID key (Some (mkEntry payload t_write' RoleReplica (Some PRIMARY_ID))).
Proof.
  intros Hacc Hpost. unfold accepted in Hacc. unfold store in *.
  destruct (req_key req) as [k|]; [|done]. destruct (req_payload req) as [p|]; [|done].
  destruct (decide (k = "")) as [|Hk]; [done|]. injection Hacc as -> ->.
  cbn [fst snd] in *.
  destruct (replicateLoop_spec post PRIMARY_ID key payload 0 (req_replicateTo req))
    as (Htrace & _).
  cbv zeta in Htrace.
  apply elem_of_cons in Hpost as [Hpost|Hpost]; [done|].
  apply elem_of_app in Hpost as [Hpost|Hpost].
  2:{ apply elem_of_cons in Hpost as [Hpost|Hpost]; [done|].
      apply elem_of_cons in Hpost as [Hpost|Hpost]; [done|].
      by apply elem_of_nil in Hpost. }
  rewrite Htrace in Hpost. apply list_elem_of_fmap in Hpost as (u & [= -> -> -> ->] & Hu).
  split; [done|]. unfold fetch, replicate. rewrite decide_False by done. simpl.
  by rewrite !lookup_insert_eq.
Qed.

Lemma X20_witness :
  "http://node-b:5000" ∈ req_replicateTo
     (mkStoreRequest (Some "order_1") (Some "laptop") ["http://node-b:5000"]) ∧
  fetch "node-a" "order_1"
    (store "node-a" demoPost "t1" "t2"
       (mkStoreRequest (Some "order_1") (Some "laptop") ["http://node-b:5000"])
       (mkBroker ∅ [])).1.1
  = Fetch200 "node-a" "order_1" (Some (mkEntry "laptop" "t1" RolePrimary None)) ∧
  fetch "node-b" "order_1"
    (replicate "node-b" "t3" "t4" (Some "order_1") (Some "laptop") (Some "node-a")
               (mkBroker ∅ [])).1
  = Fetch200 "node-b" "order_1" (Some (mkEntry "laptop" "t3" RoleReplica (Some "node-a"))).
Proof.
  apply (X20_replica_serves_what_primary_stored "node-a" "node-b" demoPost
           "t1" "t2" "t3" "t4"
           (mkStoreRequest (Some "order_1") (Some "laptop") ["http://node-b:5000"])
           (mkBroker ∅ []) (mkBroker ∅ [])
           "order_1" "laptop" "http://node-b:5000" "order_1" "laptop" "node-a").
  - reflexivity.
  - vm_compute. set_solver.
Defined.

(** * The ring the coordinator builds at start *)

(** The entries of [BROKER_NODES] that pass [if (name && url)]. *)
Definition registered (brokers : list (string * string)) : list (string * string) :=
  filter (λ b, b.1 ≠ "" ∧ b.2 ≠ "") brokers.

Lemma addNode_urls r n u r' m :
  addNode r n u = Some r' →
  getNodeUrl r' m = if decide (m = n) then Some u else getNodeUrl r m.
Proof.
  rewrite addNode_unfold. destruct (place _ _ _) as [[rg' ps]|]; simpl; [|done].
  intros [= <-]. unfold getNodeUrl. simpl. rewrite jsmap_get_set.
  by destruct (decide (m = n)).
Qed.

Lemma buildRing_registered v brokers :
  buildRing v brokers = buildRing v (registered brokers).
Proof.
  induction brokers as [|b brokers IH] using rev_ind; [done|].
  unfold registered in *. rewrite filter_app, filter_cons, filter_nil.
  rewrite buildRing_snoc, IH.
  destruct (decide (b.1 ≠ "" ∧ b.2 ≠ "")) as [Hb|Hb].
  - by rewrite buildRing_snoc.
  - rewrite app_nil_r, (bool_decide_false _ Hb).
    by destruct (buildRing v (filter _ brokers)).
Qed.

(** X21: the ring of the coordinator. From entries of which those with a
    non-empty name and URL have pairwise different names, and with room in
    the hash space for their positions, the construction returns a ring
    that registers exactly these entries, in their order and each with its
    URL and [virtualNodeCount] positions; entries with an empty name or URL
    are skipped. *)
Theorem X21_buildRing_registers_valid_entries
    (v : nat) (brokers : list (string * string)) :
  NoDup (registered brokers).*1 →
  Z.of_nat (v * length (registered brokers)) ≤ hashSpace →
  ∃ r, buildRing v brokers = Some r ∧
    ring_built r ∧
    virtualNodeCount r = v ∧
    getAllNodeNames r = (registered brokers).*1 ∧
    (∀ n u, (n, u) ∈ registered brokers → getNodeUrl r n = Some u) ∧
    (∀ n, getNodeUrl r n ≠ Some "") ∧
    length (sortedPositions r) = (v * length (registered brokers))%nat.
Proof.
  rewrite buildRing_registered.
  assert (Hvalid : Forall (λ b, b.1 ≠ "" ∧ b.2 ≠ "") (registered brokers)).
  { apply Forall_forall. intros b Hb. by apply list_elem_of_filter in Hb as [Hb _]. }
  revert Hvalid. generalize (registered brokers). clear brokers.
  induction l as [|b l IH] using rev_ind; intros Hvalid Hnd Hroom.
  - exists (newHashRing v).
    split_and!; first [done | constructor | by intros n u ?%elem_of_nil | simpl; lia].
  - rewrite fmap_app in Hnd. simpl in Hnd.
    apply NoDup_app in Hnd as (Hnd & Hfresh & _).
    rewrite Forall_app, Forall_singleton in Hvalid. destruct Hvalid as [Hvalid Hb].
    rewrite length_app in Hroom. simpl in Hroom.
    destruct IH as (r0 & Hr0 & Hbuilt & Hv & Hnames & Hurl & Hne & Hlen);
      [done | done | lia |].
    assert (Hb1 : b.1 ∉ getAllNodeNames r0).
    { rewrite Hnames. intros Hin. apply (Hfresh _ Hin). left. }
    pose proof (ring_built_state r0 Hbuilt) as Hst0.
    destruct (addNode_total r0 b.1 b.2) as [r Hadd].
    { rewrite (ring_state_size r0 Hst0), Hv.
      unfold getAllNodeNames in Hnames. rewrite <- jsmap_keys_length, Hnames, length_fmap.
      lia. }
    exists r. rewrite buildRing_snoc, Hr0. simpl. rewrite (bool_decide_true _ Hb).
    assert (Hbuilt' : ring_built r) by (by econstructor).
    assert (Hv' : virtualNodeCount r = v)
      by (by rewrite (addNode_virtualNodeCount _ _ _ _ Hadd)).
    assert (Hnames' : getAllNodeNames r = (l ++ [b]).*1).
    { rewrite (addNode_names _ _ _ _ Hadd), decide_False by done.
      by rewrite Hnames, fmap_app. }
    split_and!; try done.
    + intros n u [Hin|Hin%list_elem_of_singleton]%elem_of_app.
      * rewrite (addNode_urls _ _ _ _ n Hadd), decide_False; [by apply Hurl|].
        intros ->. apply Hb1. rewrite Hnames. apply list_elem_of_fmap. by exists (b.1, u).
      * subst b. simpl in *. by rewrite (addNode_urls _ _ _ _ n Hadd), decide_True.
    + intros n. rewrite (addNode_urls _ _ _ _ n Hadd).
      destruct (decide (n = b.1)); [|apply Hne]. intros [= Hu]. by destruct Hb.
    + rewrite sorted_positions_length, ring_state_size by (by apply ring_built_state).
      rewrite Hv'. unfold getAllNodeNames in Hnames'.
      by rewrite <- jsmap_keys_length, Hnames', length_fmap.
Qed.

Lemma X21_witness :
  ∃ r, buildRing 150 (("", "http://nameless:5000") :: demoBrokers) = Some r ∧
    ring_built r ∧
    virtualNodeCount r = 150%nat ∧
    getAllNodeNames r = (registered (("", "http://nameless:5000") :: demoBrokers)).*1 ∧
    (∀ n u, (n, u) ∈ registered (("", "http://nameless:5000") :: demoBrokers) →
            getNodeUrl r n = Some u) ∧
    (∀ n, getNodeUrl r n ≠ Some "") ∧
    length (sortedPositions r)
    = (150 * length (registered (("", "http://nameless:5000") :: demoBrokers)))%nat.
Proof.
  apply (X21_buildRing_registers_valid_entries 150
           (("", "http://nameless:5000") :: demoBrokers)).
  - vm_compute. repeat constructor; set_solver.
  - vm_compute. done.
Defined.

(** * What a change of the ring moves *)

(** The positions read clockwise from [h]: those at or after [h], then
    those before it. *)
Definition clockwise (sp : list Z) (h : Z) : list Z :=
  filter (λ p, h ≤ p) sp ++ filter (λ p, p < h) sp.

Lemma filter_none {A} (P : A → Prop) `{∀ x, Decision (P x)} (l : list A) :
  (∀ x, x ∈ l → ¬ P x) → filter P l = [].
Proof.
  induction l as [|x l IH]; intros Hnone; [done|].
  rewrite filter_cons_False by (apply Hnone; left).
  apply IH. intros y Hy. apply Hnone. by right.
Qed.

Lemma filter_fmap_pre {A B} (f : A → B) (P : B → Prop) `{∀ y, Decision (P y)}
    (l : list A) :
  f <$> filter (λ x, P (f x)) l = filter P (f <$> l).
Proof.
  induction l as [|x l IH]; [done|]. csimpl. rewrite !filter_cons.
  destruct (decide (P (f x))); csimpl; by rewrite IH.
Qed.

Lemma filter_swap {A} (P Q : A → Prop) `{∀ x, Decision (P x)} `{∀ x, Decision (Q x)}
    (l : list A) :
  filter P (filter Q l) = filter Q (filter P l).
Proof. rewrite !list_filter_filter. apply list_filter_iff. tauto. Qed.

Lemma StronglySorted_filter (P : Z → Prop) `{∀ x, Decision (P x)} (l : list Z) :
  StronglySorted Z.lt l → StronglySorted Z.lt (filter P l).
Proof.
  induction 1 as [|x l Hs IH Hall]; [constructor|].
  rewrite filter_cons. destruct (decide (P x)); [|done].
  constructor; [done|]. rewrite Forall_forall in *.
  intros y [_ Hy]%list_elem_of_filter. by apply Hall.
Qed.

Lemma sorted_take_drop_filter (sp : list Z) (h : Z) (idx : nat) :
  (∀ (i : nat) q, (i < idx)%nat → sp !! i = Some q → q < h) →
  (∀ (i : nat) q, (idx ≤ i)%nat → sp !! i = Some q → h ≤ q) →
  filter (λ p, h ≤ p) sp = drop idx sp ∧ filter (λ p, p < h) sp = take idx sp.
Proof.
  intros Hlo Hhi.
  assert (Htake : ∀ x, x ∈ take idx sp → x < h).
  { intros x [i Hi]%list_elem_of_lookup_1. apply lookup_take_Some in Hi as [Hi Hlt].
    by apply (Hlo i). }
  assert (Hdrop : ∀ x, x ∈ drop idx sp → h ≤ x).
  { intros x [i Hi]%list_elem_of_lookup_1. rewrite lookup_drop in Hi.
    apply (Hhi (idx + i)%nat); [lia | done]. }
  rewrite <- (take_drop idx sp) at 1 3. rewrite !filter_app. split.
  - rewrite (filter_none _ (take idx sp)) by (intros x Hx%Htake; lia).
    rewrite filter_all by done. done.
  - rewrite (filter_none _ (drop idx sp)) by (intros x Hx%Hdrop; lia).
    rewrite filter_all by done. by rewrite app_nil_r.
Qed.

(** The binary search gives the index from which the sorted positions,
    read around the ring, are the positions clockwise from the key. *)
Lemma findClockwiseIndex_rotate (r : HashRing) (h : Z) :
  StronglySorted Z.lt (sortedPositions r) →
  rotate (_findClockwiseIndex r h) (sortedPositions r) = clockwise (sortedPositions r) h.
Proof.
  intros Hs. unfold clockwise.
  destruct (findClockwiseIndex_spec r h Hs) as [(p & Hp & Hhp & Hbelow)|[H0 Hall]].
  - set (idx := _findClockwiseIndex r h) in *.
    destruct (sorted_take_drop_filter (sortedPositions r) h idx) as [-> ->].
    + done.
    + intros i q Hi Hq.
      pose proof (sorted_lookup_le (sortedPositions r) idx i p q Hs Hi Hp Hq). lia.
    + unfold rotate. apply lookup_lt_Some in Hp.
      by rewrite Nat.mod_small by done.
  - rewrite H0, rotate_0.
    rewrite (filter_none (λ p, h ≤ p)) by (intros x Hx%Hall; lia).
    by rewrite filter_all by done.
Qed.

(** The ring [r1] is the ring [r2] without the positions of [n]. *)
Definition ring_without (n : string) (r1 r2 : HashRing) : Prop :=
  sortedPositions r1 = filter (λ p, ring r2 !! p ≠ Some n) (sortedPositions r2) ∧
  ∀ p, p ∈ sortedPositions r1 → ring r1 !! p = ring r2 !! p.

Lemma owners_without (n : string) (r1 r2 : HashRing) (h : Z) :
  ring_without n r1 r2 →
  (λ p, ring r1 !! p) <$> clockwise (sortedPositions r1) h
  = filter (λ x, x ≠ Some n)
           ((λ p, ring r2 !! p) <$> clockwise (sortedPositions r2) h).
Proof.
  intros [Hsp Hring].
  assert (Hcw : clockwise (sortedPositions r1) h
                = filter (λ p, ring r2 !! p ≠ Some n) (clockwise (sortedPositions r2) h)).
  { unfold clockwise. rewrite Hsp, filter_app.
    by rewrite (filter_swap (λ p, h ≤ p)), (filter_swap (λ p, p < h)). }
  rewrite <- (filter_fmap_pre (λ p, ring r2 !! p) (λ x, x ≠ Some n)).
  rewrite <- Hcw. apply list_fmap_ext. intros i p Hp. apply Hring.
  apply list_elem_of_lookup_2 in Hp. unfold clockwise in Hp.
  apply elem_of_app in Hp as [Hp|Hp]; by apply list_elem_of_filter in Hp as [_ Hp].
Qed.

Lemma take_filter_one {A} `{EqDecision A} (x : A) (l : list A) (R : nat) :
  NoDup l →
  take R (filter (λ y, y ≠ x) l) = take R (filter (λ y, y ≠ x) (take (S R) l)).
Proof.
  revert R. induction l as [|y l IH]; intros R Hnd; [done|].
  apply NoDup_cons in Hnd as [Hy Hnd]. destruct R as [|R]; [done|].
  cbn [take]. rewrite !filter_cons. destruct (decide (y ≠ x)) as [Hne|Heq].
  - simpl. f_equal. by apply IH.
  - assert (y = x) as -> by (by destruct (decide (y = x))).
    rewrite !filter_all; [by rewrite take_take, Nat.min_id| |].
    + intros z Hz%elem_of_take_1 ->. done.
    + intros z Hz ->. done.
Qed.

Lemma assigned_cons (r : HashRing) (startIndex R : nat) :
  ring_state r → (0 < virtualNodeCount r)%nat → nodes r ≠ [] → (1 ≤ R)%nat →
  ∃ p rest, take R (first_occurrences (owners_from r startIndex)) = Some p :: rest.
Proof.
  intros Hst Hv Hne HR.
  destruct (assigned_names r startIndex R Hst) as (names & Hnames & _).
  rewrite Hnames. destruct names as [|p names]; [|by eexists _, _].
  exfalso. destruct (nodes r) as [|[n nd] rest] eqn:Hnodes; [done|].
  destruct (ring_state_registered_owner r n Hst Hv) as (p & Hp & Hpn).
  { unfold getAllNodeNames. rewrite Hnodes. left. }
  assert (Hx : Some n ∈ first_occurrences (owners_from r startIndex)).
  { apply elem_of_first_occurrences, elem_of_owners_from. by exists p. }
  destruct (first_occurrences (owners_from r startIndex)) as [|x l];
    [by apply elem_of_nil in Hx|].
  destruct R; [lia|]. done.
Qed.

Lemma returned_nodes r key R a : getNodesForKey r key R = Returned a → nodes r ≠ [].
Proof. intros Ha Hnil. unfold getNodesForKey in Ha. rewrite Hnil in Ha. done. Qed.

Lemma assignment_without (n : string) (r1 r2 : HashRing) (key : string) (R : nat)
    (a1 a2 : Assignment) :
  ring_state r1 → ring_state r2 →
  (0 < virtualNodeCount r1)%nat → (0 < virtualNodeCount r2)%nat → (1 ≤ R)%nat →
  ring_without n r1 r2 →
  getNodesForKey r1 key R = Returned a1 →
  getNodesForKey r2 key (S R) = Returned a2 →
  primary a1 :: replicas a1
  = take R (filter (λ x, x ≠ Some n) (primary a2 :: replicas a2)).
Proof.
  intros Hst1 Hst2 Hv1 Hv2 HR Hwo Ha1 Ha2.
  pose proof (returned_nodes _ _ _ _ Ha1) as Hne1.
  pose proof (returned_nodes _ _ _ _ Ha2) as Hne2.
  destruct (assigned_cons r1 (_findClockwiseIndex r1 (hash key)) R Hst1 Hv1 Hne1 HR)
    as (p1 & rest1 & Hcons1).
  destruct (assigned_cons r2 (_findClockwiseIndex r2 (hash key)) (S R) Hst2 Hv2 Hne2)
    as (p2 & rest2 & Hcons2); [lia|].
  pose proof Ha1 as Ha1'. pose proof Ha2 as Ha2'.
  rewrite getNodesForKey_returns in Ha1', Ha2' by done. cbv zeta in Ha1', Ha2'.
  rewrite Hcons1 in Ha1'. rewrite Hcons2 in Ha2'.
  injection Ha1' as <-. injection Ha2' as <-. cbn [primary replicas head tail mjoin].
  change (mjoin (Some (Some p1))) with (Some p1).
  change (mjoin (Some (Some p2))) with (Some p2).
  rewrite <- Hcons1, <- Hcons2.
  unfold owners_from.
  rewrite !findClockwiseIndex_rotate by (by apply wf_sorted, ring_state_wf).
  rewrite (owners_without n r1 r2 (hash key) Hwo).
  rewrite <- filter_first_occurrences.
  apply take_filter_one, NoDup_first_occurrences.
Qed.

Lemma removeNode_without (r : HashRing) (n : string) :
  ring_state r → ring_without n (removeNode r n) r.
Proof.
  intros Hst. pose proof (ring_state_wf r Hst) as Hwf.
  pose proof (ring_state_wf _ (ring_state_remove r n Hst)) as Hwf'.
  assert (Hlook : ∀ p, ring (removeNode r n) !! p
                       = if decide (ring r !! p = Some n) then None else ring r !! p).
  { intros p. apply option_eq. intros m. rewrite removeNode_lookup by done.
    destruct (decide (ring r !! p = Some n)) as [Hpn|Hpn].
    - rewrite Hpn. split; [by intros [[= <-] ?] | done].
    - split; [tauto|]. intros Hpm. split; [done|]. intros ->. done. }
  split.
  - apply sorted_lt_unique.
    + apply (wf_sorted _ Hwf').
    + apply StronglySorted_filter, (wf_sorted r Hwf).
    + intros p. rewrite list_elem_of_filter, (wf_dom _ Hwf'), (wf_dom r Hwf), Hlook.
      destruct (decide (ring r !! p = Some n)) as [Hpn|Hpn]; [|tauto].
      split; [by intros [? ?] | tauto].
  - intros p Hp%(wf_dom _ Hwf'). rewrite Hlook in *.
    destruct (decide (ring r !! p = Some n)); [by destruct Hp | done].
Qed.

Lemma addNode_without (r : HashRing) (n u : string) (r' : HashRing) :
  ring_state r → n ∉ getAllNodeNames r → addNode r n u = Some r' →
  ring_without n r r'.
Proof.
  intros Hst Hfresh Hadd. pose proof (ring_state_wf r Hst) as Hwf.
  pose proof (addNode_wf r n u r' Hwf Hfresh Hadd) as Hwf'.
  assert (Hold : ∀ p, ring r !! p ≠ Some n).
  { intros p Hpn. destruct (wf_owner r Hwf p n Hpn) as (nd & Hnd & _).
    apply Hfresh, jsmap_get_is_Some. by eexists. }
  assert (Hlook : ∀ p, is_Some (ring r !! p) → ring r' !! p = ring r !! p).
  { rewrite addNode_unfold in Hadd.
    destruct (place n (ring r) _) as [[rg' ps]|] eqn:Hpl; simpl in Hadd; [|done].
    injection Hadd as <-. simpl.
    destruct (place_spec _ _ _ _ _ Hpl) as (_ & _ & Hfree & Hlk).
    intros p Hp. rewrite Hlk. destruct (decide (p ∈ ps)) as [Hin|]; [|done].
    destruct (Hfree p Hin) as [Hnone _]. rewrite Hnone in Hp. by destruct Hp. }
  assert (Hnew : ∀ p, ring r !! p = None → is_Some (ring r' !! p) → ring r' !! p = Some n).
  { rewrite addNode_unfold in Hadd.
    destruct (place n (ring r) _) as [[rg' ps]|] eqn:Hpl; simpl in Hadd; [|done].
    injection Hadd as <-. simpl.
    destruct (place_spec _ _ _ _ _ Hpl) as (_ & _ & Hfree & Hlk).
    intros p Hnone. rewrite Hlk. destruct (decide (p ∈ ps)); [done|].
    rewrite Hnone. by intros [? ?]. }
  split.
  - apply sorted_lt_unique.
    + apply (wf_sorted r Hwf).
    + apply StronglySorted_filter, (wf_sorted r' Hwf').
    + intros p. rewrite list_elem_of_filter, (wf_dom r Hwf), (wf_dom r' Hwf').
      destruct (ring r !! p) as [m|] eqn:Hp.
      * rewrite (Hlook p) by (by rewrite Hp). rewrite Hp.
        split; [|by intros _; eexists]. intros _. split; [|by eexists].
        intros [= ->]. by apply (Hold p).
      * split; [by intros [? ?]|]. intros [Hne Hsome]. exfalso. apply Hne.
        by apply Hnew.
  - intros p Hp%(wf_dom r Hwf). symmetry. by apply Hlook.
Qed.

(** X22: adding a broker moves keys to that broker only. On a ring
    reached through [addNode] of names not in use and [removeNode], with a
    virtual node or more per broker, let a broker be added under a name
    not in use. For a key and a replication factor [R ≥ 1], the brokers of
    the key before the addition are the first [R] of its brokers after the
    addition (for factor [R + 1]) other than the new broker: the new broker
    is inserted at one place of the key's list or not at all, and the
    primary of the key is the same as before or the new broker. *)
Theorem X22_addNode_moves_keys_to_new_broker_only
    (r r' : HashRing) (n u key : string) (R : nat) (a a' : Assignment) :
  ring_state r → n ∉ getAllNodeNames r → addNode r n u = Some r' →
  (0 < virtualNodeCount r)%nat → (1 ≤ R)%nat →
  getNodesForKey r key R = Returned a →
  getNodesForKey r' key (S R) = Returned a' →
  primary a :: replicas a
  = take R (filter (λ x, x ≠ Some n) (primary a' :: replicas a')) ∧
  (primary a' = primary a ∨ primary a' = Some n).
Proof.
  intros Hst Hfresh Hadd Hv HR Ha Ha'.
  assert (Heq : primary a :: replicas a
                = take R (filter (λ x, x ≠ Some n) (primary a' :: replicas a'))).
  { apply (assignment_without n r r' key R a a'); try done.
    - by apply (ring_state_add r n u r').
    - by rewrite (addNode_virtualNodeCount _ _ _ _ Hadd).
    - by apply (addNode_without r n u r'). }
  split; [done|].
  destruct (decide (primary a' = Some n)) as [|Hne]; [by right|]. left.
  rewrite filter_cons_True in Heq by done.
  destruct R as [|R]; [lia|]. by injection Heq as -> _.
Qed.

Lemma X22_witness :
  primary (mkAssignment (Some "node-801") [] 1305180658)
    :: replicas (mkAssignment (Some "node-801") [] 1305180658)
  = take 1 (filter (λ x, x ≠ Some "node-842")
              (primary (mkAssignment (Some "node-842") [Some "node-801"] 1305180658)
                 :: replicas (mkAssignment (Some "node-842") [Some "node-801"]
                                           1305180658))) ∧
  (primary (mkAssignment (Some "node-842") [Some "node-801"] 1305180658)
   = primary (mkAssignment (Some "node-801") [] 1305180658) ∨
   primary (mkAssignment (Some "node-842") [Some "node-801"] 1305180658)
   = Some "node-842").
Proof.
  apply (X22_addNode_moves_keys_to_new_broker_only ringWith801 ringWith801And842
           "node-842" "http://node-842:5000" "order_2" 1).
  - apply (ring_state_add (newHashRing 150) "node-801" "http://node-801:5000");
      [constructor | compute_done | apply ringWith801_added].
  - compute_done.
  - apply ringWith801And842_added.
  - vm_compute. lia.
  - lia.
  - vm_compute. reflexivity.
  - vm_compute. reflexivity.
Defined.

(** X23: removing a broker moves the keys of that broker only. On a ring
    reached through [addNode] of names not in use and [removeNode], with a
    virtual node or more per broker, for a key and a replication factor
    [R ≥ 1], the brokers of the key after the removal are the first [R] of
    its former brokers (for factor [R + 1]) other than the removed one, in
    the same order; a key whose primary was another broker keeps its
    primary. *)
Theorem X23_removeNode_moves_its_keys_only
    (r : HashRing) (n key : string) (R : nat) (a a' : Assignment) :
  ring_state r → (0 < virtualNodeCount r)%nat → (1 ≤ R)%nat →
  getNodesForKey r key (S R) = Returned a →
  getNodesForKey (removeNode r n) key R = Returned a' →
  primary a' :: replicas a'
  = take R (filter (λ x, x ≠ Some n) (primary a :: replicas a)) ∧
  (primary a ≠ Some n → primary a' = primary a).
Proof.
  intros Hst Hv HR Ha Ha'.
  assert (Heq : primary a' :: replicas a'
                = take R (filter (λ x, x ≠ Some n) (primary a :: replicas a))).
  { apply (assignment_without n (removeNode r n) r key R a' a); try done.
    - by apply ring_state_remove.
    - by rewrite removeNode_virtualNodeCount.
    - by apply removeNode_without. }
  split; [done|]. intros Hne.
  rewrite filter_cons_True in Heq by done.
  destruct R as [|R]; [lia|]. by injection Heq as -> _.
Qed.

Lemma X23_witness :
  primary (mkAssignment (Some "node-b") [Some "node-c"] 184036158)
    :: replicas (mkAssignment (Some "node-b") [Some "node-c"] 184036158)
  = take 2 (filter (λ x, x ≠ Some "node-a")
              (primary (mkAssignment (Some "node-a") [Some "node-b"; Some "node-c"]
                                     184036158)
                 :: replicas (mkAssignment (Some "node-a") [Some "node-b"; Some "node-c"]
                                           184036158))) ∧
  (primary (mkAssignment (Some "node-a") [Some "node-b"; Some "node-c"] 184036158)
   ≠ Some "node-a" →
   primary (mkAssignment (Some "node-b") [Some "node-c"] 184036158)
   = primary (mkAssignment (Some "node-a") [Some "node-b"; Some "node-c"] 184036158)).
Proof.
  apply (X23_removeNode_moves_its_keys_only demoRing "node-a" "order_1" 2).
  - apply demoRing_state.
  - vm_compute. lia.
  - lia.
  - vm_compute. reflexivity.
  - vm_compute. reflexivity.
Defined.

(** * Linear probing *)

Lemma place_probing n (rg : gmap Z string) idxs rg' ps :
  place n rg idxs = Some (rg', ps) →
  ∀ (j i : nat) p, idxs !! j = Some i → ps !! j = Some p →
    ∃ k : nat,
      p = Nat.iter k next_position (hash (vnode_label n i)) ∧
      (∀ k' : nat, (k' < k)%nat →
         is_Some (rg !! Nat.iter k' next_position (hash (vnode_label n i))) ∨
         Nat.iter k' next_position (hash (vnode_label n i)) ∈ take j ps) ∧
      rg !! p = None ∧ p ∉ take j ps.
Proof.
  revert rg rg' ps. induction idxs as [|i0 idxs IH]; intros rg rg' ps; simpl.
  - intros _ j i p Hj. by rewrite lookup_nil in Hj.
  - destruct (probe (S (size rg)) rg _) as [q|] eqn:Hq; simpl; [|done].
    destruct (place n (<[q:=n]> rg) idxs) as [[rg1 ps1]|] eqn:Hpl; simpl; [|done].
    intros [= <- <-] [|j] i p; simpl.
    + intros [= <-] [= <-].
      apply probe_Some in Hq as (k & _ & -> & Hfree & Hocc).
      exists k. split_and!; [done | | done | apply not_elem_of_nil].
      intros k' Hk'. left. by apply Hocc.
    + intros Hi Hp.
      destruct (IH _ _ _ Hpl j i p Hi Hp) as (k & -> & Hocc & Hfree & Hnot).
      exists k. split_and!; [done | | |].
      * intros k' Hk'. destruct (Hocc k' Hk') as [Htaken|Hin].
        -- destruct (decide (Nat.iter k' next_position (hash (vnode_label n i)) = q))
             as [->|Hne].
           ++ right. left.
           ++ left. by rewrite lookup_insert_ne in Htaken.
        -- right. by right.
      * destruct (decide (Nat.iter k next_position (hash (vnode_label n i)) = q))
          as [Heq|Hne].
        -- by rewrite Heq, lookup_insert_eq in Hfree.
        -- by rewrite lookup_insert_ne in Hfree.
      * apply not_elem_of_cons. split; [|done].
        intros Heq. by rewrite Heq, lookup_insert_eq in Hfree.
Qed.

(** X24: collisions are resolved by linear probing. In [addNode], the
    label of index [i] gets the first position, from its hash on and going
    up by one modulo 2^32, that is neither on the ring already nor given to
    an earlier label of the same broker; a label whose hash is free gets
    its hash. *)
Theorem X24_addNode_linear_probing
    (r r' : HashRing) (n u : string) (nd : NodeData) :
  addNode r n u = Some r' → jsmap_get n (nodes r') = Some nd →
  length (virtualPositions nd) = virtualNodeCount r ∧
  ∀ (i : nat) p, virtualPositions nd !! i = Some p →
    ∃ k : nat,
      p = (hash (vnode_label n i) + Z.of_nat k) `mod` hashSpace ∧
      (∀ k' : nat, (k' < k)%nat →
         let q := (hash (vnode_label n i) + Z.of_nat k') `mod` hashSpace in
         is_Some (ring r !! q) ∨ q ∈ take i (virtualPositions nd)) ∧
      ring r !! p = None ∧ p ∉ take i (virtualPositions nd).
Proof.
  rewrite addNode_unfold.
  destruct (place n (ring r) _) as [[rg' ps]|] eqn:Hpl; simpl; [|done].
  intros [= <-]. simpl. rewrite jsmap_get_set, decide_True by done.
  intros [= <-]. simpl.
  destruct (place_spec _ _ _ _ _ Hpl) as (Hlen & _).
  rewrite length_seq in Hlen. split; [done|].
  intros i p Hp.
  assert (Hi : seq 0 (virtualNodeCount r) !! i = Some i).
  { apply lookup_seq. split; [done|]. apply lookup_lt_Some in Hp. lia. }
  destruct (place_probing _ _ _ _ _ Hpl i i p Hi Hp) as (k & -> & Hocc & Hfree & Hnot).
  exists k. rewrite <- iter_next_position by apply hash_range.
  split_and!; [done | | done | done].
  intros k' Hk'. cbv zeta. rewrite <- iter_next_position by apply hash_range.
  by apply Hocc.
Qed.

Lemma X24_witness :
  length (virtualPositions
            (default (mkNodeData "" [])
                     (jsmap_get "node-842" (nodes ringWith801And842))))
  = virtualNodeCount ringWith801 ∧
  ∀ (i : nat) p,
    virtualPositions
      (default (mkNodeData "" []) (jsmap_get "node-842" (nodes ringWith801And842)))
      !! i = Some p →
    ∃ k : nat,
      p = (hash (vnode_label "node-842" i) + Z.of_nat k) `mod` hashSpace ∧
      (∀ k' : nat, (k' < k)%nat →
         let q := (hash (vnode_label "node-842" i) + Z.of_nat k') `mod` hashSpace in
         is_Some (ring ringWith801 !! q) ∨
         q ∈ take i (virtualPositions
                       (default (mkNodeData "" [])
                                (jsmap_get "node-842" (nodes ringWith801And842))))) ∧
      ring ringWith801 !! p = None ∧
      p ∉ take i (virtualPositions
                    (default (mkNodeData "" [])
                             (jsmap_get "node-842" (nodes ringWith801And842)))).
Proof.
  apply (X24_addNode_linear_probing ringWith801 ringWith801And842
           "node-842" "http://node-842:5000").
  - apply ringWith801And842_added.
  - vm_compute. reflexivity.
Defined.

(** * The targets of a produce *)




(** * The counts of the log *)

Definition isStoreReceived (a : BrokerAction) : bool :=
  match a with AStoreReceived _ _ => true | _ => false end.

Definition isReplicate (a : BrokerAction) : bool :=
  match a with AReplicate _ _ _ _ _ => true | _ => false end.

(** The store requests and the replicate requests of a run that passed the
    check. *)
Definition acceptedStores (actions : list BrokerAction) : nat :=
  length (omap writeOf (filter (λ a, isStoreReceived a = true) actions)).

Definition acceptedReplicates (actions : list BrokerAction) : nat :=
  length (omap writeOf (filter (λ a, isReplicate a = true) actions)).

(** The keys written in a run. *)
Definition writtenKeys (actions : list BrokerAction) : gset string :=
  list_to_set (omap writeOf actions).*1.

Lemma replicate_accepted NODE_ID t_write t_log key payload primaryNode b k p :
  accepted key payload = Some (k, p) →
  (replicate NODE_ID t_write t_log key payload primaryNode b).1
  = mkBroker (<[k := mkEntry p t_write RoleReplica primaryNode]> (messageStore b))
             (replicationLog b ++ [stored_as_replica k p primaryNode t_log]).
Proof.
  unfold accepted, replicate.
  destruct key as [key|]; [|done]. destruct payload as [payload|]; [|done].
  destruct (decide (key = "")); [done|]. by intros [= <- <-].
Qed.

Lemma replicate_rejected NODE_ID t_write t_log key payload primaryNode b :
  accepted key payload = None →
  (replicate NODE_ID t_write t_log key payload primaryNode b).1 = b.
Proof.
  unfold accepted, replicate.
  destruct key as [key|]; [|done]. destruct payload as [payload|]; [|done].
  by destruct (decide (key = "")).
Qed.

Lemma size_list_to_set_le (l : list string) :
  (size (list_to_set l : gset string) ≤ length l)%nat.
Proof.
  induction l as [|k l IH].
  - by rewrite list_to_set_nil, size_empty.
  - rewrite list_to_set_cons, size_union_alt, size_singleton. simpl.
    assert (size (list_to_set l ∖ {[k]} : gset string)
            ≤ size (list_to_set l : gset string))%nat
      by (apply subseteq_size; set_solver).
    lia.
Qed.

Lemma logReport_counts_snoc NODE_ID ms ms' (log : list LogEntry) (e : LogEntry) :
  let rep := logReport NODE_ID (mkBroker ms log) in
  let rep' := logReport NODE_ID (mkBroker ms' (log ++ [e])) in
  lr_totalPrimaryKeys rep'
  = (lr_totalPrimaryKeys rep + if isStoredAsPrimary e then 1 else 0)%nat ∧
  lr_totalReplicaKeys rep'
  = (lr_totalReplicaKeys rep + if isStoredAsReplica e then 1 else 0)%nat.
Proof.
  unfold logReport. cbn [lr_totalPrimaryKeys lr_totalReplicaKeys replicationLog].
  rewrite !filter_app, !length_app. split.
  - destruct (isStoredAsPrimary e) eqn:He.
    + by rewrite (filter_cons_True _ e []) by done.
    + by rewrite (filter_cons_False _ e []) by (by rewrite He).
  - destruct (isStoredAsReplica e) eqn:He.
    + by rewrite (filter_cons_True _ e []) by done.
    + by rewrite (filter_cons_False _ e []) by (by rewrite He).
Qed.

(** X26: [/log] counts requests, not keys. After any run of requests from
    start in which no accepted store or replicate request has the key
    [__proto__], [totalPrimaryKeys] is the number of accepted store requests
    whose replication is over and [totalReplicaKeys] the number of accepted
    replicate requests, while the message count of [/health] and
    [/messages] is the number of different keys written: it is at most the
    sum of the two counts and of the store requests under way, and a key
    written twice is counted twice by [/log]. *)
Theorem X26_log_counts_requests
    (NODE_ID : string) (actions : list BrokerAction) (w : BrokerWorld) :
  brokerRun NODE_ID actions initBroker = Some w →
  (lr_totalPrimaryKeys (logReport NODE_ID (broker w)) + length (storing w))%nat
  = acceptedStores actions ∧
  lr_totalReplicaKeys (logReport NODE_ID (broker w)) = acceptedReplicates actions ∧
  mr_messageCount (messagesReport NODE_ID (broker w)) = size (writtenKeys actions) ∧
  (mr_messageCount (messagesReport NODE_ID (broker w))
   ≤ lr_totalPrimaryKeys (logReport NODE_ID (broker w))
     + lr_totalReplicaKeys (logReport NODE_ID (broker w)) + length (storing w))%nat.
Proof.
  intros Hrun.
  assert (Hgen : (lr_totalPrimaryKeys (logReport NODE_ID (broker w)) + length (storing w))%nat
                 = acceptedStores actions ∧
                 lr_totalReplicaKeys (logReport NODE_ID (broker w))
                 = acceptedReplicates actions ∧
                 dom (messageStore (broker w)) = writtenKeys actions ∧
                 (∀ req, req ∈ storing w →
                    is_Some (accepted (req_key req) (req_payload req)))).
  { revert w Hrun. induction actions as [|a actions IH] using rev_ind; intros w.
    - intros [= <-]. split_and!; [done | done | | by intros req ?%elem_of_nil].
      simpl. by rewrite dom_empty_L.
    - rewrite brokerRun_snoc.
      destruct (brokerRun NODE_ID actions initBroker) as [w1|]; simpl; [|done].
      destruct (IH w1 eq_refl) as (Hp & Hr & Hdom & Hst). intros Hact.
      unfold acceptedStores, acceptedReplicates, writtenKeys in *.
      rewrite !filter_app, !omap_app, !length_app, fmap_app, list_to_set_app_L.
      rewrite <- Hp, <- Hr, <- Hdom. rewrite !filter_cons, !filter_nil.
      pose proof (brokerAct_store NODE_ID w1 a w Hact) as Hms.
      destruct a as [t_write req|i t_log results|t_write t_log key payload primaryNode|now];
        simpl in Hact, Hms |- *.
      + destruct (accepted (req_key req) (req_payload req)) as [[k p]|] eqn:Hacc;
          simpl in Hact, Hms |- *.
        * destruct (decide (k = "__proto__")); [done|]. injection Hact as <-. simpl.
          rewrite length_app. simpl. split_and!.
          -- lia.
          -- lia.
          -- rewrite dom_insert_L. set_solver.
          -- intros req' [Hin|Hin%list_elem_of_singleton]%elem_of_app; [by apply Hst|].
             subst req'. by rewrite Hacc.
        * injection Hact as <-. split_and!; [simpl; lia | simpl; lia | set_solver | done].
      + destruct (storing w1 !! i) as [req|] eqn:Hreq; simpl in Hact; [|done].
        destruct (accepted (req_key req) (req_payload req)) as [[k p]|] eqn:Hacc;
          simpl in Hact; [|done].
        injection Hact as <-. simpl.
        destruct (logReport_counts_snoc NODE_ID (messageStore (broker w1))
                    (messageStore (broker w1)) (replicationLog (broker w1))
                    (stored_as_primary k p (req_replicateTo req) results t_log))
          as [Hp' Hr'].
        cbv zeta in Hp', Hr'. destruct (broker w1) as [ms log]. simpl in *.
        rewrite Hp', Hr'. simpl.
        assert (Hlen : (length (delete i (storing w1)) + 1 = length (storing w1))%nat).
        { rewrite length_delete by (by eexists). apply lookup_lt_Some in Hreq. lia. }
        split_and!; [lia | lia | set_solver |].
        intros req' Hin. apply Hst.
        apply (elem_of_sublist _ _ _ Hin), sublist_delete.
      + destruct (decide (_ = Some "__proto__")); [done|]. injection Hact as <-.
        simpl. destruct (accepted key payload) as [[k p]|] eqn:Hacc.
        * rewrite (replicate_accepted _ _ _ _ _ _ _ _ _ Hacc).
          destruct (logReport_counts_snoc NODE_ID
                      (<[k:=mkEntry p t_write RoleReplica primaryNode]>
                         (messageStore (broker w1)))
                      (messageStore (broker w1)) (replicationLog (broker w1))
                      (stored_as_replica k p primaryNode t_log))
            as [Hp' Hr'].
          cbv zeta in Hp', Hr'. destruct (broker w1) as [ms log]. simpl in *.
          rewrite Hp', Hr'. simpl.
          split_and!; [lia | lia | rewrite dom_insert_L; set_solver | done].
        * rewrite (replicate_rejected _ _ _ _ _ _ _ Hacc). simpl.
          split_and!; [lia | lia | set_solver | done].
      + injection Hact as <-. simpl.
        unfold promote.
        destruct (logReport_counts_snoc NODE_ID (messageStore (broker w1))
                    (messageStore (broker w1)) (replicationLog (broker w1))
                    (promoted_to_primary now)) as [Hp' Hr'].
        cbv zeta in Hp', Hr'. destruct (broker w1) as [ms log]. simpl in *.
        rewrite Hp', Hr'. simpl.
        split_and!; [lia | lia | set_solver | done]. }
  destruct Hgen as (Hp & Hr & Hdom & _).
  assert (Hcount : mr_messageCount (messagesReport NODE_ID (broker w))
                   = size (writtenKeys actions)).
  { simpl. by rewrite <- Hdom, size_dom. }
  split_and!; [done | done | done |].
  rewrite Hcount. unfold writtenKeys.
  pose proof (size_list_to_set_le (omap writeOf actions).*1) as Hle.
  rewrite length_fmap in Hle.
  assert (Hsplit : length (omap writeOf actions)
                   = (acceptedStores actions + acceptedReplicates actions)%nat).
  { unfold acceptedStores, acceptedReplicates. clear.
    induction actions as [|a actions IH]; [done|].
    rewrite !filter_cons.
    destruct a as [t_write req|i t_log results|t_write t_log key payload primaryNode|now];
      csimpl.
    - destruct (accepted _ _) as [[k p]|]; csimpl; lia.
    - lia.
    - destruct (accepted _ _) as [[k p]|]; csimpl; lia.
    - lia. }
  lia.
Qed.

(** order_1 is stored twice and replicated once; the second store request
    is still replicating. *)
Definition storedTwice : list BrokerAction :=
  [AStoreReceived "t1" (mkStoreRequest (Some "order_1") (Some "laptop") []);
   AStoreReplicated 0 "t2" [];
   AReplicate "t3" "t4" (Some "order_1") (Some "mouse") (Some "node-b");
   AStoreReceived "t5" (mkStoreRequest (Some "order_1") (Some "monitor")
                                       ["http://node-b:5000"])].

Definition afterStoredTwice : BrokerWorld :=
  Eval vm_compute in default initBroker (brokerRun "node-a" storedTwice initBroker).

Lemma X26_witness :
  (lr_totalPrimaryKeys (logReport "node-a" (broker afterStoredTwice))
   + length (storing afterStoredTwice))%nat
  = acceptedStores storedTwice ∧
  lr_totalReplicaKeys (logReport "node-a" (broker afterStoredTwice))
  = acceptedReplicates storedTwice ∧
  mr_messageCount (messagesReport "node-a" (broker afterStoredTwice))
  = size (writtenKeys storedTwice) ∧
  (mr_messageCount (messagesReport "node-a" (broker afterStoredTwice))
   ≤ lr_totalPrimaryKeys (logReport "node-a" (broker afterStoredTwice))
     + lr_totalReplicaKeys (logReport "node-a" (broker afterStoredTwice))
     + length (storing afterStoredTwice))%nat.
Proof.
  apply (X26_log_counts_requests "node-a" storedTwice afterStoredTwice).
  vm_compute. reflexivity.
Defined.

Example counts_after_stored_twice :
  lr_totalPrimaryKeys (logReport "node-a" (broker afterStoredTwice)) = 1%nat ∧
  lr_totalReplicaKeys (logReport "node-a" (broker afterStoredTwice)) = 1%nat ∧
  length (storing afterStoredTwice) = 1%nat ∧
  mr_messageCount (messagesReport "node-a" (broker afterStoredTwice)) = 1%nat.
Proof. split_and!; vm_compute; reflexivity. Qed.

(** * A replication factor of zero *)



